(** * 3d-chess: bitboard move generator, incremental evaluator and negamax search

  A shallow embedding of the chess engine core (TurnGenerator.cpp,
  IncrementalMaterialAndPSTEvaluator.cpp, Negamax.h) together with the
  properties stated about it.

  Conventions.  A [BitBoard] (uint64_t) is a [Z] in [0, 2^64); every
  operation that can leave that range in C++ wraps with [wrap64].  A shift
  whose count is outside 0..63 has no defined value in C++; its result is
  left open here through [UndefShift], so that every statement below holds
  for whatever 64-bit value such a shift produces. *)

From Stdlib Require Import ZArith List Bool Lia Permutation Sorted.
From stdpp Require Import base option list gmap.

Local Open Scope Z_scope.

(** ** Chess types (ChessTypes.h) *)

Module ChessTypes.

Inductive PlayerColor := White | Black | NoPlayer.

(** Fixed order King=0 .. Pawn=5; AllPieces is the seventh bitboard slot. *)
Inductive PieceType := King | Queen | Bishop | Knight | Rook | Pawn | AllPieces | NoType.

Definition pieceTypeIndex (t : PieceType) : Z :=
  match t with
  | King => 0 | Queen => 1 | Bishop => 2 | Knight => 3
  | Rook => 4 | Pawn => 5 | AllPieces => 6 | NoType => 7
  end.

(** The range of [for (int pieceType = King; pieceType <= Pawn; pieceType++)]. *)
Definition pieceTypes : list PieceType := [King; Queen; Bishop; Knight; Rook; Pawn].

Definition PlayerColor_eqb (a b : PlayerColor) : bool :=
  match a, b with
  | White, White | Black, Black | NoPlayer, NoPlayer => true
  | _, _ => false
  end.

Definition PieceType_eqb (a b : PieceType) : bool :=
  pieceTypeIndex a =? pieceTypeIndex b.

(** Modelled from the spec: ChessTypes.h is not part of the sources;
    [toggle(c)] yields the opponent. *)
Definition togglePlayerColor (c : PlayerColor) : PlayerColor :=
  match c with White => Black | _ => White end.

Record Piece := mkPiece { player : PlayerColor; type : PieceType }.

(** Fields A1=0, B1=1, .., H8=63; ERR=64 is the "no field" sentinel. *)
Definition Field := Z.
Definition ERR : Field := 64.
Definition A1 : Field := 0.
Definition B1 : Field := 1.
Definition C1 : Field := 2.
Definition D1 : Field := 3.
Definition E1 : Field := 4.
Definition F1 : Field := 5.
Definition G1 : Field := 6.
Definition H1 : Field := 7.
Definition A8 : Field := 56.
Definition B8 : Field := 57.
Definition C8 : Field := 58.
Definition D8 : Field := 59.
Definition E8 : Field := 60.
Definition F8 : Field := 61.
Definition G8 : Field := 62.
Definition H8 : Field := 63.

(** Modelled from the spec: [rank(f)=f/8], [file(f)=f%8]; ranks One..Eight
    and files A..H are the integers 0..7. *)
Definition rankFor (f : Field) : Z := f / 8.
Definition fileFor (f : Field) : Z := f mod 8.

Definition fileA : Z := 0.
Definition fileB : Z := 1.
Definition fileG : Z := 6.
Definition fileH : Z := 7.
Definition rankOne : Z := 0.
Definition rankThree : Z := 2.
Definition rankSix : Z := 5.
Definition rankEight : Z := 7.

(** Modelled from the spec: [flipHorizontal(f)] swaps ranks across the
    board midline; [nextField] steps to the following square. *)
Definition flipHorizontal (f : Field) : Field := (7 - rankFor f) * 8 + fileFor f.
Definition nextField (f : Field) : Field := f + 1.

Inductive TurnAction :=
  | Move | Castle
  | PromotionQueen | PromotionBishop | PromotionRook | PromotionKnight
  | Pass | Forfeit.

Record Turn := mkTurn { piece : Piece; from : Field; to : Field; action : TurnAction }.

Definition Turn_move p f t := mkTurn p f t Move.
Definition Turn_castle p f t := mkTurn p f t Castle.
Definition Turn_promotionQueen p f t := mkTurn p f t PromotionQueen.
Definition Turn_promotionBishop p f t := mkTurn p f t PromotionBishop.
Definition Turn_promotionRook p f t := mkTurn p f t PromotionRook.
Definition Turn_promotionKnight p f t := mkTurn p f t PromotionKnight.

End ChessTypes.
Export ChessTypes.

(** ** Bitboard kernel (ChessBoard.h macros) *)

Module BitBoard.

Definition mask64 : Z := 0xFFFFFFFFFFFFFFFF.
Definition wrap64 (x : Z) : Z := Z.land x mask64.

(** The value of [x << n] / [x >> n] when [n] is not in 0..63. *)
Record UndefShift := mkUndefShift {
  undef_shl : Z -> Z -> Z;
  undef_shr : Z -> Z -> Z
  }.

Definition shiftInRange (n : Z) : bool := (0 <=? n) && (n <? 64).

Definition shl64 (u : UndefShift) (x n : Z) : Z :=
  if shiftInRange n then wrap64 (Z.shiftl x n) else wrap64 (undef_shl u x n).

Definition shr64 (u : UndefShift) (x n : Z) : Z :=
  if shiftInRange n then Z.shiftr x n else wrap64 (undef_shr u x n).

Definition not64 (x : Z) : Z := wrap64 (Z.lnot x).

(** [getFirstOccupiedField]: index of the most significant set bit. *)
Definition BB_SCAN (bb : Z) : Field := Z.log2 bb.

Definition BIT_SET (u : UndefShift) (bb field : Z) : Z := Z.lor bb (shl64 u 1 field).
Definition BIT_CLEAR (u : UndefShift) (bb field : Z) : Z := Z.land bb (not64 (shl64 u 1 field)).
Definition BIT_ISSET (u : UndefShift) (bb field : Z) : bool :=
  negb (Z.land bb (shl64 u 1 field) =? 0).

(** Modelled from the spec: [generateBitBoard(f1, ...)] is only declared in
    ChessBoard.h; it builds the bitboard of the listed fields, the list
    ending at the first ERR. *)
Fixpoint generateBitBoard (u : UndefShift) (fields : list Field) : Z :=
  match fields with
  | [] => 0
  | f :: rest => if f =? ERR then 0 else BIT_SET u (generateBitBoard u rest) f
  end.

(** The fields visited by
    [while (bb != 0) { pos = BB_SCAN(bb); BIT_CLEAR(bb, pos); ... }],
    most significant first.  A 64-bit word needs at most 64 rounds. *)
Fixpoint scanFields (u : UndefShift) (fuel : nat) (bb : Z) : list Field :=
  match fuel with
  | O => []
  | S fuel' =>
      if bb =? 0 then []
      else let pos := BB_SCAN bb in pos :: scanFields u fuel' (BIT_CLEAR u bb pos)
  end.

Definition fieldsOf (u : UndefShift) (bb : Z) : list Field := scanFields u 64 bb.

End BitBoard.
Export BitBoard.

(** ** ChessBoard state read and written by the generator (ChessBoard.h) *)

Module ChessBoard.

Record ChessBoard := mkChessBoard {
  m_bb : PlayerColor -> PieceType -> Z;
  m_kingInCheck : PlayerColor -> bool;
  m_checkmate : PlayerColor -> bool;
  m_stalemate : bool;
  m_shortCastleRight : PlayerColor -> bool;
  m_longCastleRight : PlayerColor -> bool;
  m_enPassantSquare : Field;
  m_halfMoveClock : Z;
  m_fullMoveClock : Z;
  m_nextPlayer : PlayerColor
  }.

Definition setFlag (flags : PlayerColor -> bool) (p : PlayerColor) (v : bool)
  : PlayerColor -> bool :=
  fun q => if PlayerColor_eqb q p then v else flags q.

Definition setKingInCheck (cb : ChessBoard) (p : PlayerColor) (v : bool) : ChessBoard :=
  mkChessBoard (m_bb cb) (setFlag (m_kingInCheck cb) p v) (m_checkmate cb)
    (m_stalemate cb) (m_shortCastleRight cb) (m_longCastleRight cb)
    (m_enPassantSquare cb) (m_halfMoveClock cb) (m_fullMoveClock cb) (m_nextPlayer cb).

Definition setCheckmate (cb : ChessBoard) (p : PlayerColor) (v : bool) : ChessBoard :=
  mkChessBoard (m_bb cb) (m_kingInCheck cb) (setFlag (m_checkmate cb) p v)
    (m_stalemate cb) (m_shortCastleRight cb) (m_longCastleRight cb)
    (m_enPassantSquare cb) (m_halfMoveClock cb) (m_fullMoveClock cb) (m_nextPlayer cb).

Definition setStalemate (cb : ChessBoard) (v : bool) : ChessBoard :=
  mkChessBoard (m_bb cb) (m_kingInCheck cb) (m_checkmate cb)
    v (m_shortCastleRight cb) (m_longCastleRight cb)
    (m_enPassantSquare cb) (m_halfMoveClock cb) (m_fullMoveClock cb) (m_nextPlayer cb).

End ChessBoard.
Export ChessBoard.

(** ** Move generator (TurnGenerator.cpp) *)

Module TurnGenerator.

Section Generator.

Variable u : UndefShift.

Definition maskRank (rank : Z) : Z := shl64 u 0x00000000000000FF (rank * 8).
Definition clearRank (rank : Z) : Z := not64 (maskRank rank).
Definition maskFile (file : Z) : Z := shl64 u 0x0101010101010101 file.
Definition clearFile (file : Z) : Z := not64 (maskFile file).

(** [for (int i = lo; i < hi; i++) bbMask |= maskFile(i)] *)
Definition maskFiles (lo hi : Z) : Z :=
  fold_left (fun bbMask i => Z.lor bbMask (maskFile (lo + Z.of_nat i)))
            (seq 0 (Z.to_nat (hi - lo))) 0.

(** *** Ray helpers.  Each [getBitsX_shift] is the count of the one
    variable shift the helper performs for a piece on [field]. *)

Definition getBitsNE_shift (field : Z) : Z := field.
Definition getBitsNE (bbPiece : Z) : Z :=
  let field := BB_SCAN bbPiece in
  let bb := shl64 u 0x8040201008040200 (getBitsNE_shift field) in
  let bbMask := maskFiles (field mod 8 + 1) 8 in
  Z.land bb bbMask.

Definition getBitsNW_shift (field : Z) : Z :=
  let shift := field - 7 in
  if shift <? 0 then shift * (-1) else shift.
Definition getBitsNW (bbPiece : Z) : Z :=
  let field := BB_SCAN bbPiece in
  let shift := field - 7 in
  let bb := if shift <? 0 then shr64 u 0x0102040810204000 (getBitsNW_shift field)
            else shl64 u 0x0102040810204000 (getBitsNW_shift field) in
  let bbMask := maskFiles 0 (field mod 8) in
  Z.land bb bbMask.

Definition getBitsSE_shift (field : Z) : Z :=
  let shift := 56 - field in
  if shift <? 0 then shift * (-1) else shift.
Definition getBitsSE (bbPiece : Z) : Z :=
  let field := BB_SCAN bbPiece in
  let shift := 56 - field in
  let bb := if shift <? 0 then shl64 u 0x0002040810204080 (getBitsSE_shift field)
            else shr64 u 0x0002040810204080 (getBitsSE_shift field) in
  let bbMask := maskFiles (field mod 8 + 1) 8 in
  Z.land bb bbMask.

Definition getBitsSW_shift (field : Z) : Z := 64 - (field + 1).
Definition getBitsSW (bbPiece : Z) : Z :=
  let field := BB_SCAN bbPiece in
  let bb := shr64 u 0x0040201008040201 (getBitsSW_shift field) in
  let bbMask := maskFiles 0 (field mod 8) in
  Z.land bb bbMask.

Definition getBitsE_shift (field : Z) : Z :=
  let shift := 56 - field in
  if 0 <? shift then shift else shift * (-1).
Definition getBitsE (bbPiece : Z) : Z :=
  let field := BB_SCAN bbPiece in
  let shift := 56 - field in
  let bb := if 0 <? shift then shr64 u 0xFE00000000000000 (getBitsE_shift field)
            else shl64 u 0xFE00000000000000 (getBitsE_shift field) in
  Z.land bb (maskRank (field / 8)).

Definition getBitsW_shift (field : Z) : Z := 64 - field.
Definition getBitsW (bbPiece : Z) : Z :=
  let field := BB_SCAN bbPiece in
  let bb := shr64 u 0xFE00000000000000 (getBitsW_shift field) in
  Z.land bb (maskRank (field / 8)).

Definition getBitsN_shift (field : Z) : Z := field.
Definition getBitsN (bbPiece : Z) : Z :=
  let field := BB_SCAN bbPiece in
  shl64 u 0x0101010101010100 (getBitsN_shift field).

Definition getBitsS_shift (field : Z) : Z := 64 - (field + 1).
Definition getBitsS (bbPiece : Z) : Z :=
  let field := BB_SCAN bbPiece in
  shr64 u 0x0080808080808080 (getBitsS_shift field).

(** *** Sliding pieces *)

(** One ray of a sliding piece: [moves = ray & allPieces], smeared along the
    ray by [smear], then [&= ray; ^= ray; &= allOppPieces | ~allPieces]. *)
Definition rayMoves (ray : Z) (smear : Z -> Z) (allOppPieces allPieces : Z) : Z :=
  let moves := Z.land ray allPieces in
  let moves := smear moves in
  let moves := Z.land moves ray in
  let moves := Z.lxor moves ray in
  Z.land moves (Z.lor allOppPieces (not64 allPieces)).

Definition smearL (steps : list Z) (m : Z) : Z :=
  fold_left (fun acc s => Z.lor acc (shl64 u m s)) steps 0.
Definition smearR (steps : list Z) (m : Z) : Z :=
  fold_left (fun acc s => Z.lor acc (shr64 u m s)) steps 0.

Definition calcBishopTurns (bishops allOppPieces allPieces : Z) : Z :=
  let bbNE := getBitsNE bishops in
  let bbNW := getBitsNW bishops in
  let bbSE := getBitsSE bishops in
  let bbSW := getBitsSW bishops in
  let neMoves := rayMoves bbNE (smearL [9; 18; 27; 36; 45; 54]) allOppPieces allPieces in
  let nwMoves := rayMoves bbNW (smearL [7; 14; 21; 28; 35; 42]) allOppPieces allPieces in
  let seMoves := rayMoves bbSE (smearR [7; 14; 21; 28; 35; 42]) allOppPieces allPieces in
  let swMoves := rayMoves bbSW (smearR [9; 18; 27; 36; 45; 54]) allOppPieces allPieces in
  Z.lor (Z.lor (Z.lor neMoves nwMoves) seMoves) swMoves.

Definition calcRookTurns (rooks allOppPieces allPieces : Z) : Z :=
  let bbE := getBitsE rooks in
  let bbW := getBitsW rooks in
  let bbN := getBitsN rooks in
  let bbS := getBitsS rooks in
  let eastMoves := rayMoves bbE (smearL [1; 2; 3; 4; 5; 6; 7]) allOppPieces allPieces in
  let westMoves := rayMoves bbW (smearR [1; 2; 3; 4; 5; 6; 7]) allOppPieces allPieces in
  let northMoves := rayMoves bbN (smearL [8; 16; 24; 32; 40; 48; 56]) allOppPieces allPieces in
  let southMoves := rayMoves bbS (smearR [8; 16; 24; 32; 40; 48; 56]) allOppPieces allPieces in
  Z.lor (Z.lor (Z.lor eastMoves westMoves) northMoves) southMoves.

Definition calcQueenTurns (queens allOppPieces allPieces : Z) : Z :=
  Z.lor (calcRookTurns queens allOppPieces allPieces)
        (calcBishopTurns queens allOppPieces allPieces).

(** *** Pawns, knights, king *)

Definition calcPawnMoveTurns (pawns allPieces : Z) (player : PlayerColor) : Z :=
  let '(oneStep, twoSteps) :=
    match player with
    | White =>
        let oneStep := Z.land (shl64 u pawns 8) (not64 allPieces) in
        (oneStep, Z.land (shl64 u (Z.land oneStep (maskRank rankThree)) 8) (not64 allPieces))
    | Black =>
        let oneStep := Z.land (shr64 u pawns 8) (not64 allPieces) in
        (oneStep, Z.land (shr64 u (Z.land oneStep (maskRank rankSix)) 8) (not64 allPieces))
    | NoPlayer => (0, 0)
    end in
  Z.lor oneStep twoSteps.

Definition calcPawnAttackTurns (pawns allOppPieces : Z) (player : PlayerColor)
    (enPassantSquare : Field) : Z :=
  let '(leftAttacks, rightAttacks) :=
    match player with
    | White => (shl64 u (Z.land pawns (clearFile fileA)) 7,
                shl64 u (Z.land pawns (clearFile fileH)) 9)
    | Black => (shr64 u (Z.land pawns (clearFile fileA)) 9,
                shr64 u (Z.land pawns (clearFile fileH)) 7)
    | NoPlayer => (0, 0)
    end in
  let allOppPieces :=
    if negb (enPassantSquare =? ERR) then BIT_SET u allOppPieces enPassantSquare
    else allOppPieces in
  Z.land (Z.lor leftAttacks rightAttacks) allOppPieces.

Definition calcPawnTurns (pawns allOppPieces allPieces : Z) (player : PlayerColor)
    (enPassantSquare : Field) : Z :=
  Z.lor (calcPawnMoveTurns pawns allPieces player)
        (calcPawnAttackTurns pawns allOppPieces player enPassantSquare).

Definition lor8 (a b c d e f g h : Z) : Z :=
  Z.lor (Z.lor (Z.lor (Z.lor (Z.lor (Z.lor (Z.lor a b) c) d) e) f) g) h.

Definition calcKnightTurns (knights allOwnPieces : Z) : Z :=
  let turn1 := shl64 u (Z.land knights (Z.land (clearFile fileA) (clearFile fileB))) 6 in
  let turn2 := shl64 u (Z.land knights (clearFile fileA)) 15 in
  let turn3 := shl64 u (Z.land knights (clearFile fileH)) 17 in
  let turn4 := shl64 u (Z.land knights (Z.land (clearFile fileH) (clearFile fileG))) 10 in
  let turn5 := shr64 u (Z.land knights (Z.land (clearFile fileH) (clearFile fileG))) 6 in
  let turn6 := shr64 u (Z.land knights (clearFile fileH)) 15 in
  let turn7 := shr64 u (Z.land knights (clearFile fileA)) 17 in
  let turn8 := shr64 u (Z.land knights (Z.land (clearFile fileA) (clearFile fileB))) 10 in
  let knightTurns := lor8 turn1 turn2 turn3 turn4 turn5 turn6 turn7 turn8 in
  Z.land knightTurns (not64 allOwnPieces).

Definition calcKingTurns (king allOwnPieces allOppTurns : Z) : Z :=
  let turn1 := shl64 u (Z.land king (clearFile fileH)) 9 in
  let turn2 := shl64 u king 8 in
  let turn3 := shl64 u (Z.land king (clearFile fileA)) 7 in
  let turn4 := shl64 u (Z.land king (clearFile fileH)) 1 in
  let turn5 := shr64 u (Z.land king (clearFile fileA)) 1 in
  let turn6 := shr64 u (Z.land king (clearFile fileH)) 7 in
  let turn7 := shr64 u king 8 in
  let turn8 := shr64 u (Z.land king (clearFile fileA)) 9 in
  let kingTurns := lor8 turn1 turn2 turn3 turn4 turn5 turn6 turn7 turn8 in
  let kingTurns := Z.land kingTurns (not64 allOwnPieces) in
  Z.lxor kingTurns (Z.land allOppTurns kingTurns).

(** *** Castling *)

Definition calcShortCastleTurns (player : PlayerColor) (bbAllPieces bbAllOppTurns : Z) : Z :=
  match player with
  | White =>
      if (Z.land bbAllOppTurns (generateBitBoard u [E1; F1; G1; ERR]) =? 0)
         && negb (BIT_ISSET u bbAllPieces G1)
         && negb (BIT_ISSET u bbAllPieces F1)
      then BIT_SET u 0 G1 else 0
  | _ =>
      if (Z.land bbAllOppTurns (generateBitBoard u [E8; F8; G8; ERR]) =? 0)
         && negb (BIT_ISSET u bbAllPieces G8)
         && negb (BIT_ISSET u bbAllPieces F8)
      then BIT_SET u 0 G8 else 0
  end.

Definition calcLongCastleTurns (player : PlayerColor) (bbAllPieces bbAllOppTurns : Z) : Z :=
  match player with
  | White =>
      if (Z.land bbAllOppTurns (generateBitBoard u [E1; D1; C1; ERR]) =? 0)
         && negb (BIT_ISSET u bbAllPieces D1)
         && negb (BIT_ISSET u bbAllPieces C1)
         && negb (BIT_ISSET u bbAllPieces B1)
      then BIT_SET u 0 C1 else 0
  | _ =>
      if (Z.land bbAllOppTurns (generateBitBoard u [E8; D8; C8; ERR]) =? 0)
         && negb (BIT_ISSET u bbAllPieces D8)
         && negb (BIT_ISSET u bbAllPieces C8)
         && negb (BIT_ISSET u bbAllPieces B8)
      then BIT_SET u 0 C8 else 0
  end.

(** *** Per-piece dispatch *)

Definition calcMoveTurns (piece : Piece) (bbPiece bbAllOppTurns : Z) (cb : ChessBoard) : Z :=
  let opp := match player piece with White => Black | _ => White end in
  match type piece with
  | King => calcKingTurns bbPiece (m_bb cb (player piece) AllPieces) bbAllOppTurns
  | Queen => calcQueenTurns bbPiece (m_bb cb opp AllPieces)
               (Z.lor (m_bb cb (player piece) AllPieces) (m_bb cb opp AllPieces))
  | Bishop => calcBishopTurns bbPiece (m_bb cb opp AllPieces)
               (Z.lor (m_bb cb (player piece) AllPieces) (m_bb cb opp AllPieces))
  | Knight => calcKnightTurns bbPiece (m_bb cb (player piece) AllPieces)
  | Rook => calcRookTurns bbPiece (m_bb cb opp AllPieces)
               (Z.lor (m_bb cb (player piece) AllPieces) (m_bb cb opp AllPieces))
  | Pawn => calcPawnTurns bbPiece (m_bb cb opp AllPieces)
               (Z.lor (m_bb cb (player piece) AllPieces) (m_bb cb opp AllPieces))
               (player piece) (m_enPassantSquare cb)
  | _ => 0
  end.

Definition bitBoardToTurns (piece : Piece) (from : Field) (bbTurns : Z) : list Turn :=
  flat_map (fun to =>
    if ((rankFor to =? rankEight) || (rankFor to =? rankOne))
       && PieceType_eqb (type piece) Pawn
    then [Turn_promotionQueen piece from to; Turn_promotionBishop piece from to;
          Turn_promotionRook piece from to; Turn_promotionKnight piece from to]
    else [Turn_move piece from to])
  (fieldsOf u bbTurns).

(** *** Check evasion mask *)

(** The squares set by the [for (int i = 1; i <= dist; i++)] loop. *)
Definition setFieldsBetween (bb pieceRank pieceFile dist rankSign fileSign : Z) : Z :=
  fold_left (fun bb i =>
      let i := Z.of_nat i in
      let field := (pieceRank + i * rankSign) * 8 + (pieceFile + i * fileSign) in
      BIT_SET u bb field)
    (seq 1 (Z.to_nat dist)) bb.

(** The sliding-piece branch of [calcUnCheckFields], from the king bitboard
    and the checker's square. *)
Definition unCheckFieldsSliding (bbKing : Z) (curPiecePos : Field) : Z :=
  let bbUnCheckFields := 0 in
  let kingPos := if negb (bbKing =? 0) then BB_SCAN bbKing else ERR in
  let kingRank := rankFor kingPos in
  let kingFile := fileFor kingPos in
  let pieceRank := rankFor curPiecePos in
  let pieceFile := fileFor curPiecePos in
  let '(dist, rankSign, fileSign) :=
    if kingRank <? pieceRank then
      (pieceRank - kingRank - 1, -1,
       if kingFile <? pieceFile then -1
       else if kingFile =? pieceFile then 0
       else 1)
    else if kingRank =? pieceRank then
      if kingFile <? pieceFile then (pieceFile - kingFile - 1, 0, -1)
      else if pieceFile <? kingFile then (kingFile - pieceFile - 1, 0, 1)
      else (-10, 0, -10)
    else
      (kingRank - pieceRank - 1, 1,
       if kingFile <? pieceFile then -1
       else if kingFile =? pieceFile then 0
       else 1) in
  let bbUnCheckFields :=
    setFieldsBetween bbUnCheckFields pieceRank pieceFile dist rankSign fileSign in
  BIT_SET u bbUnCheckFields curPiecePos.

(** First iteration of a loop whose body returns from the function. *)
Fixpoint firstReturn {A B : Type} (body : A -> option B) (l : list A) : option B :=
  match l with
  | [] => None
  | x :: rest => match body x with Some r => Some r | None => firstReturn body rest end
  end.

(** The body of the two nested loops of [calcUnCheckFields] for the piece
    of type [pieceType] on [curPiecePos]: [Some] is a [return]. *)
Definition unCheckFieldsOf (opp : PlayerColor) (cb : ChessBoard)
    (pieceType : PieceType) (curPiecePos : Field) : option Z :=
  let player := togglePlayerColor opp in
  let bbCurPiece := BIT_SET u 0 curPiecePos in
  let bbTurns := calcMoveTurns (mkPiece opp pieceType) bbCurPiece 0 cb in
  let bbKingInCheck := Z.land (m_bb cb player King) bbTurns in
  if bbKingInCheck =? m_bb cb player King then
    match pieceType with
    | Pawn | Knight | King => Some (BIT_SET u 0 curPiecePos)
    | _ => Some (unCheckFieldsSliding (m_bb cb player King) curPiecePos)
    end
  else None.

Definition calcUnCheckFields (opp : PlayerColor) (cb : ChessBoard) : Z :=
  let found :=
    firstReturn (fun pieceType =>
      firstReturn (unCheckFieldsOf opp cb pieceType) (fieldsOf u (m_bb cb opp pieceType)))
    pieceTypes in
  match found with Some bbUnCheckFields => bbUnCheckFields | None => 0 end.

(** *** Squares attacked by the opponent *)

Definition calcAllOppTurns (opp : PlayerColor) (cb : ChessBoard) : Z :=
  let player := togglePlayerColor opp in
  let bbAllOppTurns := 0 in
  let bbAllPieces := Z.lor (m_bb cb White AllPieces) (m_bb cb Black AllPieces) in
  let bbAllOppPiecesWhitoutKing := Z.lxor (m_bb cb player AllPieces) (m_bb cb player King) in
  let bbAllPiecesWhitoutKing := Z.lxor bbAllPieces (m_bb cb player King) in
  let bbAllOppTurns :=
    if m_shortCastleRight cb opp
    then Z.lor bbAllOppTurns (calcShortCastleTurns opp bbAllPieces 0) else bbAllOppTurns in
  let bbAllOppTurns :=
    if m_longCastleRight cb opp
    then Z.lor bbAllOppTurns (calcLongCastleTurns opp bbAllPieces 0) else bbAllOppTurns in
  fold_left (fun bbAllOppTurns pieceType =>
      let bbCurPieceType := m_bb cb opp pieceType in
      match pieceType with
      | Pawn => Z.lor bbAllOppTurns
                  (calcPawnAttackTurns bbCurPieceType 0xFFFFFFFFFFFFFFFF opp (m_enPassantSquare cb))
      | King => Z.lor bbAllOppTurns (calcKingTurns bbCurPieceType 0 0)
      | Knight => Z.lor bbAllOppTurns (calcKnightTurns bbCurPieceType 0)
      | _ =>
          fold_left (fun bbAllOppTurns curPiecePos =>
              let bbCurPiece := BIT_SET u 0 curPiecePos in
              match pieceType with
              | Rook => Z.lor bbAllOppTurns
                          (calcRookTurns bbCurPiece bbAllOppPiecesWhitoutKing bbAllPiecesWhitoutKing)
              | Queen => Z.lor bbAllOppTurns
                          (calcQueenTurns bbCurPiece bbAllOppPiecesWhitoutKing bbAllPiecesWhitoutKing)
              | Bishop => Z.lor bbAllOppTurns
                          (calcBishopTurns bbCurPiece bbAllOppPiecesWhitoutKing bbAllPiecesWhitoutKing)
              | _ => bbAllOppTurns
              end)
            (fieldsOf u bbCurPieceType) bbAllOppTurns
      end)
    pieceTypes bbAllOppTurns.

(** *** generateTurns *)

(** The turns of the per-piece loops; [bbMask] is [Some bbUnCheckFields] in
    the check branch (applied to every piece but the king), [None] otherwise. *)
Definition pieceTurns (player : PlayerColor) (cb : ChessBoard)
    (bbAllOppTurns : Z) (bbMask : option Z) : list Turn :=
  flat_map (fun pieceType =>
    let piece := mkPiece player pieceType in
    flat_map (fun curPiecePos =>
      let bbCurPiece := BIT_SET u 0 curPiecePos in
      let bbTurns := calcMoveTurns piece bbCurPiece bbAllOppTurns cb in
      let bbTurns :=
        match bbMask with
        | Some bbUnCheckFields =>
            if negb (PieceType_eqb pieceType King) then Z.land bbTurns bbUnCheckFields
            else bbTurns
        | None => bbTurns
        end in
      bitBoardToTurns piece curPiecePos bbTurns)
    (fieldsOf u (m_bb cb player pieceType)))
  pieceTypes.

Definition castleTurns (player : PlayerColor) (cb : ChessBoard)
    (bbAllPieces bbAllOppTurns : Z) : list Turn :=
  let short :=
    if m_shortCastleRight cb player then
      if negb (calcShortCastleTurns player bbAllPieces bbAllOppTurns =? 0) then
        match player with
        | White => [Turn_castle (mkPiece White King) E1 G1]
        | _ => [Turn_castle (mkPiece Black King) E8 G8]
        end
      else []
    else [] in
  let long :=
    if m_longCastleRight cb player then
      if negb (calcLongCastleTurns player bbAllPieces bbAllOppTurns =? 0) then
        match player with
        | White => [Turn_castle (mkPiece White King) E1 C1]
        | _ => [Turn_castle (mkPiece Black King) E8 C8]
        end
      else []
    else [] in
  short ++ long.

(** Returns the new [turnList] and the board with its flags updated. *)
Definition generateTurns (player : PlayerColor) (cb : ChessBoard) : list Turn * ChessBoard :=
  let opp := togglePlayerColor player in
  let bbAllPieces := Z.lor (m_bb cb White AllPieces) (m_bb cb Black AllPieces) in
  let bbAllOppTurns := calcAllOppTurns opp cb in
  let bbKingInCheck := Z.land (m_bb cb player King) bbAllOppTurns in
  let cb := setKingInCheck cb opp false in
  if bbKingInCheck =? m_bb cb player King then
    let cb := setKingInCheck cb player true in
    let bbUnCheckFields := calcUnCheckFields opp cb in
    let turnList := pieceTurns player cb bbAllOppTurns (Some bbUnCheckFields) in
    (turnList, match turnList with [] => setCheckmate cb player true | _ => cb end)
  else
    let cb := setKingInCheck cb player false in
    let turnList :=
      castleTurns player cb bbAllPieces bbAllOppTurns
      ++ pieceTurns player cb bbAllOppTurns None in
    (turnList, match turnList with [] => setStalemate cb true | _ => cb end).

End Generator.

End TurnGenerator.
Export TurnGenerator.

(** ** The standard starting position *)

Definition startBB (c : PlayerColor) (t : PieceType) : Z :=
  match c, t with
  | White, King => 0x10
  | White, Queen => 0x08
  | White, Bishop => 0x24
  | White, Knight => 0x42
  | White, Rook => 0x81
  | White, Pawn => 0xFF00
  | White, AllPieces => 0xFFFF
  | Black, King => 0x1000000000000000
  | Black, Queen => 0x0800000000000000
  | Black, Bishop => 0x2400000000000000
  | Black, Knight => 0x4200000000000000
  | Black, Rook => 0x8100000000000000
  | Black, Pawn => 0x00FF000000000000
  | Black, AllPieces => 0xFFFF000000000000
  | _, _ => 0
  end.

Definition noFlags : PlayerColor -> bool := fun _ => false.
Definition bothRights : PlayerColor -> bool :=
  fun c => match c with NoPlayer => false | _ => true end.

(** rnbqkbnr/pppppppp/8/8/8/8/PPPPPPPP/RNBQKBNR w KQkq - 0 1 *)
Definition startBoard : ChessBoard :=
  mkChessBoard startBB noFlags noFlags false bothRights bothRights ERR 0 1 White.

Definition x86Shift : UndefShift :=
  mkUndefShift (fun x n => Z.shiftl x (n mod 64)) (fun x n => Z.shiftr x (n mod 64)).


(** ** Incremental evaluator (IncrementalMaterialAndPSTEvaluator.cpp) *)

Module Evaluator.

Definition Score := Z.

(** Piece square tables, indexable by piece type then field from black's
    point of view. *)
Definition PIECE_SQUARE_TABLE : list (list Score) :=
  [ (* King *)
    [ -30; -40; -40; -50; -50; -40; -40; -30;
      -30; -40; -40; -50; -50; -40; -40; -30;
      -30; -40; -40; -50; -50; -40; -40; -30;
      -30; -40; -40; -50; -50; -40; -40; -30;
      -20; -30; -30; -40; -40; -30; -30; -20;
      -10; -20; -20; -20; -20; -20; -20; -10;
      20; 20; 0; 0; 0; 0; 20; 20;
      20; 30; 10; 0; 0; 10; 30; 20 ];
    (* Queen *)
    [ -20; -10; -10; -5; -5; -10; -10; -20;
      -10; 0; 0; 0; 0; 0; 0; -10;
      -10; 0; 5; 5; 5; 5; 0; -10;
      -5; 0; 5; 5; 5; 5; 0; -5;
      0; 0; 5; 5; 5; 5; 0; -5;
      -10; 5; 5; 5; 5; 5; 0; -10;
      -10; 0; 5; 0; 0; 0; 0; -10;
      -20; -10; -10; -5; -5; -10; -10; -20 ];
    (* Bishop *)
    [ -20; -10; -10; -10; -10; -10; -10; -20;
      -10; 0; 0; 0; 0; 0; 0; -10;
      -10; 0; 5; 10; 10; 5; 0; -10;
      -10; 5; 5; 10; 10; 5; 5; -10;
      -10; 0; 10; 10; 10; 10; 0; -10;
      -10; 10; 10; 10; 10; 10; 10; -10;
      -10; 5; 0; 0; 0; 0; 5; -10;
      -20; -10; -10; -10; -10; -10; -10; -20 ];
    (* Knight *)
    [ -50; -40; -30; -30; -30; -30; -40; -50;
      -40; -20; 0; 0; 0; 0; -20; -40;
      -30; 0; 10; 15; 15; 10; 0; -30;
      -30; 5; 15; 20; 20; 15; 5; -30;
      -30; 0; 15; 20; 20; 15; 0; -30;
      -30; 5; 10; 15; 15; 10; 5; -30;
      -40; -20; 0; 5; 5; 0; -20; -40;
      -50; -40; -30; -30; -30; -30; -40; -50 ];
    (* Rooks *)
    [ 0; 0; 0; 0; 0; 0; 0; 0;
      5; 10; 10; 10; 10; 10; 10; 5;
      -5; 0; 0; 0; 0; 0; 0; -5;
      -5; 0; 0; 0; 0; 0; 0; -5;
      -5; 0; 0; 0; 0; 0; 0; -5;
      -5; 0; 0; 0; 0; 0; 0; -5;
      -5; 0; 0; 0; 0; 0; 0; -5;
      0; 0; 0; 5; 5; 0; 0; 0 ];
    (* Pawn *)
    [ 0; 0; 0; 0; 0; 0; 0; 0;
      50; 50; 50; 50; 50; 50; 50; 50;
      10; 10; 20; 30; 30; 20; 10; 10;
      5; 5; 10; 25; 25; 10; 5; 5;
      0; 0; 0; 20; 20; 0; 0; 0;
      5; -5; -10; 0; 0; -10; -5; 5;
      5; 10; 10; -20; -20; 10; 10; 5;
      0; 0; 0; 0; 0; 0; 0; 0 ] ].

Definition PIECE_VALUES : list Score := [20000; 900; 330; 320; 500; 100].

(** [PIECE_SQUARE_TABLE[type][field]] and [PIECE_VALUES[type]]. *)
Definition pst (t : PieceType) (f : Field) : Score :=
  nth (Z.to_nat f) (nth (Z.to_nat (pieceTypeIndex t)) PIECE_SQUARE_TABLE []) 0.
Definition pieceValue (t : PieceType) : Score :=
  nth (Z.to_nat (pieceTypeIndex t)) PIECE_VALUES 0.

Definition PlayerColor_isBlack (c : PlayerColor) : bool := PlayerColor_eqb c Black.
Definition PlayerColor_isWhite (c : PlayerColor) : bool := PlayerColor_eqb c White.

(** One round of the loop of [estimateFullBoard]. *)
Definition estimateStep (acc : Score * Field) (piece : Piece) : Score * Field :=
  let '(score, position) := acc in
  let score :=
    if pieceTypeIndex (type piece) <=? pieceTypeIndex Pawn then
      let psqPosition :=
        if PlayerColor_isBlack (player piece) then position else flipHorizontal position in
      let pieceSquareScore := pst (type piece) psqPosition in
      let pieceOverallScore := pieceValue (type piece) + pieceSquareScore in
      if PlayerColor_isWhite (player piece) then score + pieceOverallScore
      else score - pieceOverallScore
    else score in
  (score, nextField position).

Definition estimateFullBoard (board : list Piece) : Score :=
  fst (fold_left estimateStep board (0, A1)).

Record IncrementalMaterialAndPSTEvaluator := mkEvaluator { m_estimatedScore : Score }.

Definition fromBoard (board : list Piece) : IncrementalMaterialAndPSTEvaluator :=
  mkEvaluator (estimateFullBoard board).

Definition moveIncrement (turn : Turn) (e : IncrementalMaterialAndPSTEvaluator)
    : IncrementalMaterialAndPSTEvaluator :=
  let s := m_estimatedScore e in
  if PlayerColor_isBlack (player (piece turn)) then
    let s := s + pst (type (piece turn)) (from turn) in
    let s := s - pst (type (piece turn)) (to turn) in
    mkEvaluator s
  else
    let s := s - pst (type (piece turn)) (flipHorizontal (from turn)) in
    let s := s + pst (type (piece turn)) (flipHorizontal (to turn)) in
    mkEvaluator s.

Definition captureIncrement (field : Field) (piece : Piece)
    (e : IncrementalMaterialAndPSTEvaluator) : IncrementalMaterialAndPSTEvaluator :=
  let s := m_estimatedScore e in
  if PlayerColor_isBlack (player piece) then
    let s := s + pst (type piece) field in
    let s := s + pieceValue (type piece) in
    mkEvaluator s
  else
    let s := s - pst (type piece) (flipHorizontal field) in
    let s := s - pieceValue (type piece) in
    mkEvaluator s.

Definition getScore (color : PlayerColor) (e : IncrementalMaterialAndPSTEvaluator) : Score :=
  if PlayerColor_isWhite color then m_estimatedScore e else - m_estimatedScore e.

(** The empty-square sentinel (NoPlayer, NoType). *)
Definition noPiece : Piece := mkPiece NoPlayer NoType.

Definition isNoPiece (p : Piece) : bool :=
  PlayerColor_eqb (player p) NoPlayer && PieceType_eqb (type p) NoType.

(** Modelled from the spec: ChessBoard::applyTurn is not part of the sources.
    For a *Move* it clears the piece at [from] and sets it at [to]; this is
    the board array after an ordinary move of [p] from [f1] to [f2]. *)
Definition boardAfterMove (board : list Piece) (p : Piece) (f1 f2 : Field) : list Piece :=
  <[Z.to_nat f2 := p]> (<[Z.to_nat f1 := noPiece]> board).

(** Modelled from the spec: ChessBoard::applyTurn is not part of the sources.
    The captured piece, if any, is fed to [captureIncrement], then the move
    to [moveIncrement]. *)
Definition evaluatorAfterMove (board : list Piece) (p : Piece) (f1 f2 : Field)
    (e : IncrementalMaterialAndPSTEvaluator) : IncrementalMaterialAndPSTEvaluator :=
  let victim := nth (Z.to_nat f2) board noPiece in
  let e := if isNoPiece victim then e else captureIncrement f2 victim e in
  moveIncrement (Turn_move p f1 f2) e.

(** *** Notions used to state the evaluator's properties *)

(** What a piece on [position] adds to the white-relative score. *)
Definition contribution (piece : Piece) (position : Field) : Score :=
  fst (estimateStep (0, position) piece).

Fixpoint boardSum (position : Field) (board : list Piece) : Score :=
  match board with
  | [] => 0
  | piece :: rest => contribution piece position + boardSum (nextField position) rest
  end.

(** A square holds the empty sentinel or a piece of White or Black. *)
Definition realPiece (p : Piece) : Prop :=
  (player p = White \/ player p = Black) /\ pieceTypeIndex (type p) <= pieceTypeIndex Pawn.

Definition wellFormedSquare (p : Piece) : Prop := p = noPiece \/ realPiece p.

(** A board with a white rook on A1 and a black pawn on A2. *)
Definition rookTakesPawnBoard : list Piece :=
  mkPiece White Rook :: replicate 7 noPiece ++ mkPiece Black Pawn :: replicate 55 noPiece.

End Evaluator.

(** ** Transposition table (ai/TranspositionTable.h) *)

Module TranspositionTable.

Inductive BoundType := EXACT | LOWER | UPPER.

Record TranspositionTableEntry := mkEntry {
  hash : Z;
  score : Z;
  turn : Turn;
  depth : nat;
  boundType : BoundType
}.

Definition isExactBound (e : TranspositionTableEntry) : bool :=
  match boundType e with EXACT => true | _ => false end.
Definition isLowerBound (e : TranspositionTableEntry) : bool :=
  match boundType e with LOWER => true | _ => false end.
Definition isUpperBound (e : TranspositionTableEntry) : bool :=
  match boundType e with UPPER => true | _ => false end.

(** Modelled from the spec: TranspositionTable.h is not part of the sources.
    A fixed-size direct-mapped table: [lookup(hash)] reads slot
    [hash mod size] and returns the entry only if the stored hash equals the
    query hash; the replacement policy is always replace. *)
Record TranspositionTable := mkTable {
  getTableSize : Z;
  slots : gmap Z TranspositionTableEntry
}.

Definition emptyTable (size : Z) : TranspositionTable := mkTable size ∅.

Definition lookup (t : TranspositionTable) (h : Z) : option TranspositionTableEntry :=
  match slots t !! (h mod getTableSize t) with
  | Some e => if hash e =? h then Some e else None
  | None => None
  end.

Definition maybeUpdate (t : TranspositionTable) (e : TranspositionTableEntry)
    : TranspositionTable :=
  mkTable (getTableSize t) (<[hash e mod getTableSize t := e]> (slots t)).

End TranspositionTable.

(** ** Negamax search (ai/Negamax.h) *)

Module Negamax.

Module TT := TranspositionTable.

(** The operations [Negamax] uses of its template parameter [TGameState]. *)
Class GameStateOps (TGameState : Type) := {
  isGameOver : TGameState -> bool;
  getScore : TGameState -> nat -> Z;
  getHash : TGameState -> Z;
  getTurnList : TGameState -> list Turn;
  applyTurn : TGameState -> Turn -> TGameState
}.

Record NegamaxResult := mkResult { score : Z; turn : option Turn }.

(** [operator-]: negates the score, keeps the turn. *)
Definition negResult (r : NegamaxResult) : NegamaxResult := mkResult (- score r) (turn r).

(** The three template toggles. *)
Record Toggles := mkToggles {
  AB_CUTOFF_ENABLED : bool;
  MOVE_ORDERING_ENABLED : bool;
  TRANSPOSITION_TABLES_ENABLED : bool
}.

(** What the sources leave open: the score bounds MIN_SCORE and MAX_SCORE of
    ChessTypes.h, the order [std::sort] gives to options of equal score, and
    the turn read through an empty optional (excluded by an assertion). *)
Record Environment := mkEnvironment {
  MIN_SCORE : Z;
  MAX_SCORE : Z;
  std_sort : forall A : Type, (A -> A -> bool) -> list A -> list A;
  undefTurn : Turn
}.

Record PerfCounters := mkCounters {
  nodes : Z;
  cutoffs : Z;
  updates : Z;
  transpositionTableHits : Z
}.

Definition noCounters : PerfCounters := mkCounters 0 0 0 0.
Definition incr64 (x : Z) : Z := wrap64 (x + 1).

(** The search object.  [pendingAbort] is not a member: it stands for the
    other thread, whose single [abort()] call lands after that many further
    reads of [m_abort] ([None]: no call is on its way). *)
Record Negamax := mkNegamax {
  m_transpositionTable : TT.TranspositionTable;
  m_abort : bool;
  m_counters : PerfCounters;
  pendingAbort : option nat
}.

Definition newNegamax (tableSize : Z) : Negamax :=
  mkNegamax (TT.emptyTable tableSize) false noCounters None.

Definition withTable (n : Negamax) (t : TT.TranspositionTable) : Negamax :=
  mkNegamax t (m_abort n) (m_counters n) (pendingAbort n).
Definition withAbort (n : Negamax) (a : bool) : Negamax :=
  mkNegamax (m_transpositionTable n) a (m_counters n) (pendingAbort n).
Definition withCounters (n : Negamax) (c : PerfCounters) : Negamax :=
  mkNegamax (m_transpositionTable n) (m_abort n) c (pendingAbort n).
Definition withPendingAbort (n : Negamax) (p : option nat) : Negamax :=
  mkNegamax (m_transpositionTable n) (m_abort n) (m_counters n) p.

Definition countNode (n : Negamax) : Negamax :=
  let c := m_counters n in
  withCounters n (mkCounters (incr64 (nodes c)) (cutoffs c) (updates c) (transpositionTableHits c)).
Definition countCutoff (n : Negamax) : Negamax :=
  let c := m_counters n in
  withCounters n (mkCounters (nodes c) (incr64 (cutoffs c)) (updates c) (transpositionTableHits c)).
Definition countUpdate (n : Negamax) : Negamax :=
  let c := m_counters n in
  withCounters n (mkCounters (nodes c) (cutoffs c) (incr64 (updates c)) (transpositionTableHits c)).
Definition countHit (n : Negamax) : Negamax :=
  let c := m_counters n in
  withCounters n (mkCounters (nodes c) (cutoffs c) (updates c) (incr64 (transpositionTableHits c))).

(** [abort()], called on the object. *)
Definition abort (n : Negamax) : Negamax := withAbort n true.

(** One read of the atomic [m_abort] by the searching thread. *)
Definition readAbort (n : Negamax) : bool * Negamax :=
  match pendingAbort n with
  | Some O => (true, withPendingAbort (abort n) None)
  | Some (S k) => (m_abort n, withPendingAbort n (Some k))
  | None => (m_abort n, n)
  end.

Section Search.

Context {TGameState : Type} `{GameStateOps TGameState}.
Variable env : Environment.
Variable tg : Toggles.

(** A move option of the move ordering: the state after the turn, the turn
    and the score estimate. *)
Record Option := mkOption {
  state : TGameState;
  optTurn : Turn;
  optScore : Z
}.

(** [Option::operator<], which makes the sort descending by score. *)
Definition Option_lt (a b : Option) : bool := optScore b <? optScore a.

Definition estimateScoreFor (n : Negamax) (st : TGameState) (depth : nat) : Z :=
  if TRANSPOSITION_TABLES_ENABLED tg then
    match TT.lookup (m_transpositionTable n) (getHash st) with
    | None => - getScore st depth
    | Some entry =>
        if TT.isUpperBound entry then - MIN_SCORE env
        else - TT.score entry
    end
  else - getScore st depth.

Definition sentinel : NegamaxResult := mkResult 0 None.

(** The transposition-table probe at the head of [search_recurse]: either the
    function returns ([inl]) or it goes on with the adjusted window ([inr]). *)
Definition probeTable (n : Negamax) (st : TGameState) (pliesLeft : nat) (alpha beta : Z)
    : (NegamaxResult + Z * Z) * Negamax :=
  if TRANSPOSITION_TABLES_ENABLED tg then
    match TT.lookup (m_transpositionTable n) (getHash st) with
    | Some tableEntry =>
        if (pliesLeft <=? TT.depth tableEntry)%nat then
          let n := countHit n in
          if TT.isExactBound tableEntry then
            (inl (mkResult (TT.score tableEntry) (Some (TT.turn tableEntry))), n)
          else
            let '(alpha, beta) :=
              if TT.isLowerBound tableEntry then (Z.max alpha (TT.score tableEntry), beta)
              else (alpha, Z.min beta (TT.score tableEntry)) in
            if AB_CUTOFF_ENABLED tg && (beta <=? alpha) then
              (inl (mkResult (TT.score tableEntry) (Some (TT.turn tableEntry))), countCutoff n)
            else (inr (alpha, beta), n)
        else (inr (alpha, beta), n)
    | None => (inr (alpha, beta), n)
    end
  else (inr (alpha, beta), n).

(** The options of a node, in the order of [getTurnList], sorted when move
    ordering is enabled. *)
Definition considerOptions (n : Negamax) (st : TGameState) (depth : nat) : list Option :=
  let possibleTurns := getTurnList st in
  let consideredOptions :=
    map (fun t => let st' := applyTurn st t in
                  mkOption st' t (estimateScoreFor n st' (depth + 1)))
        possibleTurns in
  if MOVE_ORDERING_ENABLED tg then std_sort env Option Option_lt consideredOptions
  else consideredOptions.

(** The loop over the options; [recurse] is [search_recurse] one ply deeper.
    [None] is the [return {0, boost::none}] inside the loop. *)
Fixpoint searchOptions
    (recurse : TGameState -> Z -> Z -> Negamax -> NegamaxResult * Negamax)
    (options : list Option) (bestResult : NegamaxResult) (alpha beta : Z) (n : Negamax)
    : option NegamaxResult * Negamax :=
  match options with
  | [] => (Some bestResult, n)
  | option :: rest =>
      let n := countNode n in
      let '(r, n) := recurse (state option) (- beta) (- alpha) n in
      let result := negResult r in
      let '(bestResult, n) :=
        if score bestResult <? score result
        then (mkResult (score result) (Some (optTurn option)), countUpdate n)
        else (bestResult, n) in
      let alpha := Z.max alpha (score result) in
      if AB_CUTOFF_ENABLED tg && (beta <=? alpha) then (Some bestResult, countCutoff n)
      else
        let '(aborted, n) := readAbort n in
        if aborted then (None, n)
        else searchOptions recurse rest bestResult alpha beta n
  end.

Definition classifyBound (bestScore initialAlpha beta : Z) : TT.BoundType :=
  if bestScore <=? initialAlpha then TT.UPPER
  else if beta <=? bestScore then TT.LOWER
  else TT.EXACT.

Definition derefTurn (t : option Turn) : Turn :=
  match t with Some t => t | None => undefTurn env end.

Definition storeResult (n : Negamax) (st : TGameState) (pliesLeft : nat)
    (bestResult : NegamaxResult) (initialAlpha beta : Z) : Negamax :=
  if TRANSPOSITION_TABLES_ENABLED tg then
    let entry := TT.mkEntry (getHash st) (score bestResult) (derefTurn (turn bestResult))
                   pliesLeft (classifyBound (score bestResult) initialAlpha beta) in
    withTable n (TT.maybeUpdate (m_transpositionTable n) entry)
  else n.

(** [search_recurse(state, depth, maxDepth, alpha, beta)] with
    [pliesLeft = maxDepth - depth]. *)
Fixpoint search_recurse (pliesLeft : nat) (st : TGameState) (depth : nat)
    (alpha beta : Z) (n : Negamax) : NegamaxResult * Negamax :=
  let '(aborted, n) := readAbort n in
  if aborted then (sentinel, n)
  else
    match pliesLeft with
    | O => (mkResult (getScore st depth) None, n)
    | S pliesLeft' =>
        if isGameOver st then (mkResult (getScore st depth) None, n)
        else
          let initialAlpha := alpha in
          match probeTable n st pliesLeft alpha beta with
          | (inl r, n) => (r, n)
          | (inr (alpha, beta), n) =>
              let bestResult := mkResult (MIN_SCORE env) None in
              let consideredOptions := considerOptions n st depth in
              match searchOptions
                      (fun st' a b n' => search_recurse pliesLeft' st' (depth + 1) a b n')
                      consideredOptions bestResult alpha beta n with
              | (None, n) => (sentinel, n)
              | (Some bestResult, n) =>
                  (bestResult, storeResult n st pliesLeft bestResult initialAlpha beta)
              end
          end
    end.

Definition search (n : Negamax) (st : TGameState) (maxDepth : nat) : NegamaxResult * Negamax :=
  let n := withAbort n false in
  let n := withCounters n noCounters in
  search_recurse maxDepth st 0 (MIN_SCORE env) (MAX_SCORE env) n.

End Search.

End Negamax.

(** ** Mock game states for concrete runs of the search

    [Negamax] takes its game state as a template parameter "so GameState is
    mockable".  A mock state is a node of a finite game graph: [moves]
    lists the successors of a node and [scores] the evaluation, which does
    not depend on the depth here.  A node without successors is game over;
    the turn from node [a] to node [b] is labelled by the two numbers. *)

Module Mock.

Import Negamax.

Record MockGame := mkMockGame {
  moves : Z -> list Z;
  scores : Z -> Z
}.

Definition mockTurn (a b : Z) : Turn := Turn_move (mkPiece White Pawn) a b.

#[local] Instance mockOps (g : MockGame) : GameStateOps Z := {|
  isGameOver := fun st => match moves g st with [] => true | _ => false end;
  getScore := fun st _ => scores g st;
  getHash := fun st => st;
  getTurnList := fun st => map (mockTurn st) (moves g st);
  applyTurn := fun _ t => to t
|}.

(** A stable insertion sort as one possible [std::sort]. *)
Fixpoint insertSorted {A : Type} (lt : A -> A -> bool) (x : A) (l : list A) : list A :=
  match l with
  | [] => [x]
  | y :: rest => if lt y x then y :: insertSorted lt x rest else x :: l
  end.

Definition insertionSort (A : Type) (lt : A -> A -> bool) (l : list A) : list A :=
  fold_right (insertSorted lt) [] l.

Definition mockEnv : Environment :=
  mkEnvironment (-1000000) 1000000 insertionSort (mockTurn 0 0).

Definition allOn : Toggles := mkToggles true true true.
Definition plain : Toggles := mkToggles false false false.
Definition tableOnly : Toggles := mkToggles false false true.

(** A position (node 1) reached after one ply and again after two plies:
    0 -> 1 -> 3 -> 4 and 0 -> 2 -> 1 -> 3. *)
Definition transpositionGame : MockGame :=
  mkMockGame
    (fun st => match st with
               | 0 => [1; 2] | 1 => [3] | 2 => [1] | 3 => [4] | _ => []
               end)
    (fun st => match st with 3 => 5 | 4 => 1 | _ => 0 end).

(** 0 -> 1 (game over), 0 -> 2 -> 3 -> 4 (game over). *)
Definition refutationGame : MockGame :=
  mkMockGame
    (fun st => match st with
               | 0 => [1; 2] | 2 => [3] | 3 => [4] | _ => []
               end)
    (fun st => match st with 1 => -5 | 4 => 3 | _ => 0 end).

(** Node 3 is reached along two paths, each time with one ply left when
    node 0 is searched three plies deep: 0 -> 1 -> 3 and 0 -> 2 -> 3. *)
Definition diamondGame : MockGame :=
  mkMockGame
    (fun st => match st with
               | 0 => [1; 2] | 1 => [3; 6] | 2 => [3; 7] | 3 => [4; 5] | _ => []
               end)
    (fun st => match st with 4 => 2 | 5 => 3 | 6 => -4 | _ => 0 end).

Definition tableSize : Z := 2 ^ 20.

(** The search object after [search(node 0, 3)] on the refutation game. *)
Definition afterFirstSearch : Negamax :=
  snd (search (H := mockOps refutationGame) mockEnv allOn (newNegamax tableSize) 0 3).

End Mock.

(** ** Notions used to state the properties of the search *)

Module SearchSpec.

Import Negamax.

(** No abort is set and none is on its way. *)
Definition quiet (n : Negamax) : Prop := m_abort n = false /\ pendingAbort n = None.

Section Reference.

Context {TGameState : Type} `{GameStateOps TGameState}.
Variable env : Environment.

(** The value of a turn for the player to move, given the value [below] of
    the positions one ply deeper. *)
Definition turnValue (below : TGameState -> nat -> Z) (st : TGameState) (depth : nat)
    (t : Turn) : Z :=
  - below (applyTurn st t) (depth + 1)%nat.

(** The plain negamax value of a position searched [pliesLeft] plies deep:
    the score at a leaf, else the best negated value over all turns, never
    below MIN_SCORE.  It follows the words of the specification, with no
    window, ordering or table. *)
Fixpoint negamaxValue (pliesLeft : nat) (st : TGameState) (depth : nat) : Z :=
  match pliesLeft with
  | O => getScore st depth
  | S pliesLeft' =>
      if isGameOver st then getScore st depth
      else fold_left (fun best t => Z.max best (turnValue (negamaxValue pliesLeft') st depth t))
                     (getTurnList st) (MIN_SCORE env)
  end.

(** [t] is the one best turn of a position that is searched [S pliesLeft']
    plies deep: it beats MIN_SCORE, and no other turn of the list is as good. *)
Definition uniqueBestTurn (pliesLeft' : nat) (st : TGameState) (t : Turn) : Prop :=
  isGameOver st = false /\
  In t (getTurnList st) /\
  MIN_SCORE env < turnValue (negamaxValue pliesLeft') st 0 t /\
  forall t', In t' (getTurnList st) ->
    turnValue (negamaxValue pliesLeft') st 0 t <= turnValue (negamaxValue pliesLeft') st 0 t' ->
    t' = t.

(** The value of an option for the player to move. *)
Definition optionValue (pliesLeft' : nat) (depth : nat) (o : Option) : Z :=
  - negamaxValue pliesLeft' (state o) (depth + 1)%nat.

(** The best of a list of values, starting from [init]. *)
Definition bestOf (values : list Z) (init : Z) : Z := fold_left Z.max values init.

(** What a fail-soft alpha-beta result [b] says about the value [v] of the
    position it was computed for with the window ([alpha], [beta]). *)
Definition failSoft (alpha beta b v : Z) : Prop :=
  (b <= alpha -> v <= b) /\ (beta <= b -> b <= v) /\ (alpha < b < beta -> b = v).

(** The turn kept with a best score [b] belongs to an option of [all] worth
    at least [b], and exactly [b] below [beta]. *)
Definition turnJustified (pliesLeft' : nat) (depth : nat) (all : list Option)
    (beta : Z) (b : NegamaxResult) : Prop :=
  exists o, In o all /\ turn b = Some (optTurn o) /\
            score b <= optionValue pliesLeft' depth o /\
            (score b < beta -> optionValue pliesLeft' depth o = score b).

(** The beta against which [search_recurse] classifies its result: the beta
    it was entered with, lowered to the score of an upper-bound table entry
    for the position that is deep enough. *)
Definition narrowedBeta (tg : Toggles) (n : Negamax) (st : TGameState) (pliesLeft : nat)
    (beta : Z) : Z :=
  if TRANSPOSITION_TABLES_ENABLED tg then
    match TT.lookup (m_transpositionTable n) (getHash st) with
    | Some e =>
        if (pliesLeft <=? TT.depth e)%nat && TT.isUpperBound e
        then Z.min beta (TT.score e) else beta
    | None => beta
    end
  else beta.

(** The positions of the tree searched [pliesLeft] plies deep from [st] for
    which [search_recurse] reads and writes the table (those that are not
    leaves), one for every path, each with its hash and its plain negamax
    value. *)
Fixpoint nodeValues (pliesLeft : nat) (st : TGameState) (depth : nat) : list (Z * Z) :=
  match pliesLeft with
  | O => []
  | S pliesLeft' =>
      if isGameOver st then []
      else (getHash st, negamaxValue (S pliesLeft') st depth) ::
           flat_map (fun t => nodeValues pliesLeft' (applyTurn st t) (depth + 1)%nat)
                    (getTurnList st)
  end.

(** Positions of the list that have the same hash have the same value. *)
Definition transpositionsAgree (hv : list (Z * Z)) : Prop :=
  forall h v v', In (h, v) hv -> In (h, v') hv -> v = v'.

(** The same, as a test. *)
Definition transpositionsAgreeb (hv : list (Z * Z)) : bool :=
  forallb (fun p => forallb (fun q => negb (fst p =? fst q) || (snd p =? snd q)) hv) hv.

(** A score [s] with bound type [bt] says something true about the value [v]. *)
Definition soundBound (v s : Z) (bt : TT.BoundType) : Prop :=
  match bt with
  | TT.EXACT => s = v
  | TT.LOWER => s <= v
  | TT.UPPER => v <= s
  end.

(** Every table entry for a position of [hv] is sound for its value. *)
Definition soundTable (hv : list (Z * Z)) (n : Negamax) : Prop :=
  forall h v e, In (h, v) hv -> TT.lookup (m_transpositionTable n) h = Some e ->
                soundBound v (TT.score e) (TT.boundType e).

(** What [search_recurse] owes for the window ([alpha], [beta]): the value
    itself without cutoffs, a fail-soft bound with them. *)
Definition resultFor (tg : Toggles) (alpha beta b v : Z) : Prop :=
  if AB_CUTOFF_ENABLED tg then failSoft alpha beta b v else b = v.

(** The table of [n] has no entry for any hash of [hs]. *)
Definition noEntries (n : Negamax) (hs : list Z) : Prop :=
  forall h, In h hs -> TT.lookup (m_transpositionTable n) h = None.

End Reference.

End SearchSpec.

(** ** Notions used to state the properties of the check evasion mask *)

Module CheckSpec.

(** The 64 squares and the bitboard of one square. *)
Definition squares : list Field := map Z.of_nat (seq 0 64).
Definition bit (f : Field) : Z := 2 ^ f.

(** Two squares on a common rank, file or diagonal. *)
Definition aligned (s k : Field) : bool :=
  (rankFor s =? rankFor k) || (fileFor s =? fileFor k)
  || (Z.abs (rankFor s - rankFor k) =? Z.abs (fileFor s - fileFor k)).

(** [m] lies on the segment from [s] to [k] and is neither of them. *)
Definition strictlyBetween (s k m : Field) : bool :=
  negb (m =? s) && negb (m =? k)
  && ((rankFor m - rankFor s) * (fileFor k - fileFor s)
      =? (fileFor m - fileFor s) * (rankFor k - rankFor s))
  && (Z.min (rankFor s) (rankFor k) <=? rankFor m)
  && (rankFor m <=? Z.max (rankFor s) (rankFor k))
  && (Z.min (fileFor s) (fileFor k) <=? fileFor m)
  && (fileFor m <=? Z.max (fileFor s) (fileFor k)).

(** The bitboard of the squares strictly between [s] and [k]. *)
Definition betweenBB (s k : Field) : Z :=
  fold_left (fun bb m => if strictlyBetween s k m then Z.lor bb (bit m) else bb) squares 0.

Definition isSliding (t : PieceType) : bool :=
  match t with Queen | Bishop | Rook => true | _ => false end.

(** The mask the specification asks for: the checker's square, and for a
    sliding checker also every square strictly between it and the king. *)
Definition evasionMask (t : PieceType) (s k : Field) : Z :=
  if isSliding t then Z.lor (bit s) (betweenBB s k) else bit s.

(** The piece of type [t] that [opp] has on [s] gives check to the king on
    [k]: its move set on the board contains the king's square. *)
Definition givesCheck (u : UndefShift) (cb : ChessBoard) (opp : PlayerColor)
    (t : PieceType) (s k : Field) : Prop :=
  Z.testbit (calcMoveTurns u (mkPiece opp t) (bit s) 0 cb) k = true.

(** Every bitboard of the board is a 64-bit value. *)
Definition bitboardsInRange (cb : ChessBoard) : Prop :=
  forall c t, 0 <= m_bb cb c t < 2 ^ 64.

(** White king e1, knight g3; black king a8, rook e8 giving check on the
    e-file; White to move. *)
Definition rookCheckBB (c : PlayerColor) (t : PieceType) : Z :=
  match c, t with
  | White, King => 0x10
  | White, Knight => 0x400000
  | White, AllPieces => 0x400010
  | Black, King => 0x0100000000000000
  | Black, Rook => 0x1000000000000000
  | Black, AllPieces => 0x1100000000000000
  | _, _ => 0
  end.

Definition rookCheckBoard : ChessBoard :=
  mkChessBoard rookCheckBB noFlags noFlags false noFlags noFlags ERR 0 1 White.

End CheckSpec.

(** ** Expected results and auxiliary notions used by the statements *)

(** The turns of the starting position in generation order: knights (G1
    before B1), then pawns from file H down to file A, two-step push first. *)
Definition startKnightTurns : list Turn :=
  [ Turn_move (mkPiece White Knight) 6 23; Turn_move (mkPiece White Knight) 6 21;
    Turn_move (mkPiece White Knight) 1 18; Turn_move (mkPiece White Knight) 1 16 ].

Definition startPawnTurns : list Turn :=
  flat_map (fun f => [ Turn_move (mkPiece White Pawn) f (f + 16);
                       Turn_move (mkPiece White Pawn) f (f + 8) ])
           [15; 14; 13; 12; 11; 10; 9; 8].

Definition startTurns : list Turn := startKnightTurns ++ startPawnTurns.

(** The bitboard constant shifted by [getBitsW]. *)
Definition westSeed : Z := 0xFE00000000000000.

(** Two shift behaviours agree when they differ at most in the value of
    [westSeed >> 64], and there only outside the first rank. *)
Definition agree (u u' : UndefShift) : Prop :=
  (forall x n, undef_shl u x n = undef_shl u' x n) /\
  (forall x n, (x =? westSeed) && (n =? 64) = false -> undef_shr u x n = undef_shr u' x n) /\
  Z.land (undef_shr u westSeed 64) 0xFF = Z.land (undef_shr u' westSeed 64) 0xFF.

(** [u] with the value of [westSeed >> 64] replaced by [j]. *)
Definition patch (u : UndefShift) (j : Z) : UndefShift :=
  mkUndefShift (undef_shl u)
    (fun x n => if (x =? westSeed) && (n =? 64) then j else undef_shr u x n).


(** ** Remaining bit macros and the variants of [getFirstOccupiedField]
    (ChessBoard.h) *)

Module BitScan.

Definition BIT_TOGGLE (u : UndefShift) (bb field : Z) : Z := Z.lxor bb (shl64 u 1 field).

(** [_BitScanReverse(&result, mask)] and [_BitScanReverse64]: the return
    value is zero when [mask] is zero, and [result] keeps what it held;
    otherwise [result] receives the index of the most significant set bit. *)
Definition BitScanReverse (result mask : Z) : bool * Z :=
  if mask =? 0 then (false, result) else (true, Z.log2 mask).

(** [__builtin_clzll]: the number of zero bits above the most significant
    set bit of a 64-bit word, counted from bit [n - 1] downwards. *)
Fixpoint clzFrom (n : nat) (bb : Z) : Z :=
  match n with
  | O => 0
  | S n' => if Z.testbit bb (Z.of_nat n') then 0 else 1 + clzFrom n' bb
  end.

Definition builtin_clzll (bb : Z) : Z := clzFrom 64 bb.

(** The GCC/clang variant. *)
Definition getFirstOccupiedField_gnu (bb : Z) : Field := 63 - builtin_clzll bb.

(** The _WIN64 variant; [result] is the uninitialised local. *)
Definition getFirstOccupiedField_win64 (result : Z) (bb : Z) : Field :=
  snd (BitScanReverse result bb).

(** The _WIN32 variant: the upper half first, then the lower half. *)
Definition getFirstOccupiedField_win32 (u : UndefShift) (result : Z) (bb : Z) : Field :=
  let '(found, result) := BitScanReverse result (shr64 u bb 32) in
  if negb found then
    let '(_, result) := BitScanReverse result (Z.land bb 0xFFFFFFFF) in
    result
  else result + 32.

End BitScan.

(** ** Material evaluator and promotions (Evaluators.cpp,
    IncrementalMaterialAndPSTEvaluator.cpp) *)

Module Material.

Import Evaluator.

(** One round of the loop of [MaterialEvaluator::getMaterialWorth]. *)
Definition materialStep (player : PlayerColor) (acc : Score * Field) (piece : Piece)
    : Score * Field :=
  let '(score, position) := acc in
  let score :=
    if pieceTypeIndex (type piece) <=? pieceTypeIndex Pawn then
      let psqPosition :=
        if PlayerColor_isBlack (ChessTypes.player piece) then position
        else flipHorizontal position in
      let pieceSquareScore := pst (type piece) psqPosition in
      let pieceOverallScore := pieceValue (type piece) + pieceSquareScore in
      if PlayerColor_eqb (ChessTypes.player piece) player then score + pieceOverallScore
      else score - pieceOverallScore
    else score in
  (score, nextField position).

Definition getMaterialWorth (player : PlayerColor) (board : list Piece) : Score :=
  fst (fold_left (materialStep player) board (0, A1)).

Definition promotionIncrement (turn : Turn) (targetType : PieceType)
    (e : IncrementalMaterialAndPSTEvaluator) : IncrementalMaterialAndPSTEvaluator :=
  let s := m_estimatedScore e in
  if PlayerColor_isBlack (player (piece turn)) then
    let s := s + pst Pawn (to turn) in
    let s := s + pieceValue Pawn in
    let s := s - pst targetType (to turn) in
    let s := s - pieceValue targetType in
    mkEvaluator s
  else
    let blackPromSquare := flipHorizontal (to turn) in
    let s := s - pst Pawn blackPromSquare in
    let s := s - pieceValue Pawn in
    let s := s + pst targetType blackPromSquare in
    let s := s + pieceValue targetType in
    mkEvaluator s.

(** The board seen from the other side: ranks mirrored, colours swapped. *)
Definition swapColor (p : Piece) : Piece :=
  mkPiece (match player p with White => Black | Black => White | NoPlayer => NoPlayer end)
          (type p).

Definition mirrorBoard (board : list Piece) : list Piece :=
  map (fun i => swapColor (nth (Z.to_nat (flipHorizontal (Z.of_nat i))) board noPiece))
      (seq 0 64).

(** The sum of a list of scores. *)
Definition sumScores (l : list Z) : Z := fold_right Z.add 0 l.

End Material.

(** ** Notions used to state the properties of the move sets *)

Module MoveSpec.

Import CheckSpec.

(** The square [k] steps from [s] in direction ([dr], [df]), if on the board. *)
Definition stepFrom (s : Field) (dr df k : Z) : option Field :=
  let r := rankFor s + k * dr in
  let f := fileFor s + k * df in
  if (0 <=? r) && (r <? 8) && (0 <=? f) && (f <? 8) then Some (r * 8 + f) else None.

Definition isSquare (o : option Field) (i : Field) : bool :=
  match o with Some j => j =? i | None => false end.

(** [i] lies on the ray from [s] in direction ([dr], [df]), [s] excluded. *)
Definition onRay (dr df : Z) (s i : Field) : bool :=
  existsb (fun k => isSquare (stepFrom s dr df k) i) [1; 2; 3; 4; 5; 6; 7].

(** The number of steps from [s] to [i] along ([dr], [df]). *)
Definition rayDistance (dr df : Z) (s i : Field) : option Z :=
  find (fun k => isSquare (stepFrom s dr df k) i) [1; 2; 3; 4; 5; 6; 7].

(** The squares passed on the way: steps 1 .. k-1. *)
Definition pathSquares (dr df : Z) (s : Field) (k : Z) : list Field :=
  map (fun j => (rankFor s + Z.of_nat j * dr) * 8 + (fileFor s + Z.of_nat j * df))
      (seq 1 (Z.to_nat (k - 1))).

(** A slider on [s] reaches [i] along ([dr], [df]): [i] is on the ray and
    every square passed is empty. *)
Definition slidesAlong (allPieces : Z) (s i : Field) (d : Z * Z) : bool :=
  match rayDistance (fst d) (snd d) s i with
  | Some k => forallb (fun j => negb (Z.testbit allPieces j)) (pathSquares (fst d) (snd d) s k)
  | None => false
  end.

Definition rookDirections : list (Z * Z) := [(0, 1); (0, -1); (1, 0); (-1, 0)].
Definition bishopDirections : list (Z * Z) := [(1, 1); (1, -1); (-1, 1); (-1, -1)].

(** The slider's moves: it slides to [i], and [i] is empty or holds an
    opposing piece. *)
Definition slides (dirs : list (Z * Z)) (allOppPieces allPieces : Z) (s i : Field) : bool :=
  existsb (slidesAlong allPieces s i) dirs
  && (Z.testbit allOppPieces i || negb (Z.testbit allPieces i)).

Definition knightJump (s i : Field) : bool :=
  let dr := Z.abs (rankFor i - rankFor s) in
  let df := Z.abs (fileFor i - fileFor s) in
  ((dr =? 1) && (df =? 2)) || ((dr =? 2) && (df =? 1)).

Definition kingStep (s i : Field) : bool :=
  Z.max (Z.abs (rankFor i - rankFor s)) (Z.abs (fileFor i - fileFor s)) =? 1.

(** The direction pawns of a colour move in, and their start rank. *)
Definition forward (c : PlayerColor) : Z :=
  match c with White => 1 | Black => -1 | NoPlayer => 0 end.
Definition startRank (c : PlayerColor) : Z :=
  match c with White => 1 | Black => 6 | NoPlayer => -1 end.

(** A pawn of [c] on [s] attacks [i]: one rank forward, one file aside. *)
Definition pawnAttacks (c : PlayerColor) (s i : Field) : bool :=
  negb (PlayerColor_eqb c NoPlayer)
  && (rankFor i =? rankFor s + forward c) && (Z.abs (fileFor i - fileFor s) =? 1).

(** A pawn of [c] on [s] may be pushed to [i]: one empty square forward, or
    two empty squares forward from the start rank. *)
Definition pawnPush (c : PlayerColor) (allPieces : Z) (s i : Field) : bool :=
  negb (PlayerColor_eqb c NoPlayer)
  && negb (Z.testbit allPieces i)
  && ((i =? s + 8 * forward c)
      || ((i =? s + 16 * forward c) && (rankFor s =? startRank c)
          && negb (Z.testbit allPieces (s + 8 * forward c)))).

(** Ranks and files as integers 0..7. *)
Definition lines : list Z := [0; 1; 2; 3; 4; 5; 6; 7].

(** The squares of a ray in front of [i] on which a piece screens [i]:
    those [i - k], [k] an offset of the smear, that lie on the ray. *)
Definition blockers (ray : Z) (offsets : list Z) (i : Field) : list Field :=
  List.filter (Z.testbit ray) (map (fun k => i - k) offsets).

Definition sameSquares (l1 l2 : list Field) : bool :=
  forallb (fun x => existsb (Z.eqb x) l2) l1 && forallb (fun x => existsb (Z.eqb x) l1) l2.

(** The ray bitboards [ray s] and the smear offsets fit the direction
    ([dr], [df]): checked for every pair of squares. *)
Definition rayCheck (ray : Field -> Z) (offsets : list Z) (dr df : Z) : bool :=
  forallb (fun s =>
    let r := ray s in
    forallb (fun i =>
      match rayDistance dr df s i with
      | Some k => Z.testbit r i && sameSquares (blockers r offsets i) (pathSquares dr df s k)
      | None => negb (Z.testbit r i)
      end) squares) squares.

(** A step generator as a list of (file mask, offset) terms fits the
    relation [jump]: checked for every pair of squares. *)
Definition stepCheck (jump : Field -> Field -> bool) (terms : list (Z * Z)) : bool :=
  forallb (fun s => forallb (fun i =>
    Bool.eqb (jump s i)
             (existsb (fun t => (s =? i + snd t) && Z.testbit (fst t) s) terms))
    squares) squares.

(** The bitboard of a list of fields, and "no field of the list is set". *)
Definition bitsOf (fields : list Field) : Z :=
  fold_right (fun f bb => Z.lor (bit f) bb) 0 fields.
Definition noneSet (bb : Z) (fields : list Field) : bool :=
  forallb (fun f => negb (Z.testbit bb f)) fields.

(** The first square of a colour's home rank: A1 for White, A8 otherwise. *)
Definition homeRow (c : PlayerColor) : Field :=
  match c with White => A1 | _ => A8 end.

(** A pawn arriving on the first or the last rank. *)
Definition isPromotion (p : Piece) (dest : Field) : bool :=
  ((rankFor dest =? rankEight) || (rankFor dest =? rankOne)) && PieceType_eqb (type p) Pawn.

Definition promotions : list TurnAction :=
  [PromotionQueen; PromotionBishop; PromotionRook; PromotionKnight].

(** The bitboards read for [player]'s turns fit together: 64-bit values,
    no square holds a piece of both colours, and the en passant square, if
    any, is on the board and holds no piece of [player]. *)
Definition consistentFor (cb : ChessBoard) (player : PlayerColor) : Prop :=
  bitboardsInRange cb /\
  Z.land (m_bb cb player AllPieces) (m_bb cb (togglePlayerColor player) AllPieces) = 0 /\
  (m_enPassantSquare cb = ERR \/
   (0 <= m_enPassantSquare cb < 64 /\
    Z.testbit (m_bb cb player AllPieces) (m_enPassantSquare cb) = false)).

(** The squares [calcAllOppTurns] lists for [opp], square by square: the
    king's target squares of the castlings [opp] has the right to, as far as
    the squares between king and rook are empty; the squares next to his
    king; the squares a knight's jump from his knights; the squares his
    pawns attack, occupied or not; and the squares his queens, bishops and
    rooks slide to, where the other player's king counts as absent and
    squares holding pieces of [opp] himself are left out. *)
Definition attackedBy (cb : ChessBoard) (opp : PlayerColor) (i : Field) : bool :=
  let player := togglePlayerColor opp in
  let all := Z.lor (m_bb cb White AllPieces) (m_bb cb Black AllPieces) in
  let targets := Z.lxor (m_bb cb player AllPieces) (m_bb cb player King) in
  let occupied := Z.lxor all (m_bb cb player King) in
  let h := homeRow opp in
  (m_shortCastleRight cb opp && noneSet all [h + 6; h + 5] && (h + 6 =? i))
  || (m_longCastleRight cb opp && noneSet all [h + 3; h + 2; h + 1] && (h + 2 =? i))
  || existsb (fun s => Z.testbit (m_bb cb opp King) s && kingStep s i) squares
  || existsb (fun s => Z.testbit (m_bb cb opp Queen) s
                       && slides (rookDirections ++ bishopDirections) targets occupied s i)
             squares
  || existsb (fun s => Z.testbit (m_bb cb opp Bishop) s
                       && slides bishopDirections targets occupied s i) squares
  || existsb (fun s => Z.testbit (m_bb cb opp Knight) s && knightJump s i) squares
  || existsb (fun s => Z.testbit (m_bb cb opp Rook) s
                       && slides rookDirections targets occupied s i) squares
  || existsb (fun s => Z.testbit (m_bb cb opp Pawn) s && pawnAttacks opp s i) squares.

(** A test position without a white king: white rook h1, black king e8. *)
Definition kinglessBB (c : PlayerColor) (t : PieceType) : Z :=
  match c, t with
  | White, Rook => 0x80
  | White, AllPieces => 0x80
  | Black, King => 0x1000000000000000
  | Black, AllPieces => 0x1000000000000000
  | _, _ => 0
  end.

Definition kinglessBoard : ChessBoard :=
  mkChessBoard kinglessBB noFlags noFlags false noFlags noFlags ERR 0 1 White.

(** The out-of-range shift of [getBitsW] for a piece on A1 leaves no bit
    on the first rank (as a shift by 64 mod 64 = 0 does). *)
Definition westClean (u : UndefShift) : Prop :=
  Z.land (undef_shr u westSeed 64) 0xFF = 0.

End MoveSpec.
(** ** Properties of the bitboard kernel *)

Section KernelFacts.

Lemma wrap64_range x : 0 <= wrap64 x < 2 ^ 64.
Proof.
  unfold wrap64. change mask64 with (Z.ones 64).
  rewrite Z.land_ones by lia. apply Z.mod_pos_bound. lia.
Qed.

Lemma wrap64_small x : 0 <= x < 2 ^ 64 -> wrap64 x = x.
Proof.
  intros Hx. unfold wrap64. change mask64 with (Z.ones 64).
  rewrite Z.land_ones by lia. apply Z.mod_small. exact Hx.
Qed.

Lemma shl64_in_range u x n : 0 <= n < 64 -> shl64 u x n = wrap64 (Z.shiftl x n).
Proof.
  intros Hn. unfold shl64, shiftInRange.
  replace (0 <=? n) with true by (symmetry; apply Z.leb_le; lia).
  replace (n <? 64) with true by (symmetry; apply Z.ltb_lt; lia).
  reflexivity.
Qed.

Lemma shr64_in_range u x n : 0 <= n < 64 -> shr64 u x n = Z.shiftr x n.
Proof.
  intros Hn. unfold shr64, shiftInRange.
  replace (0 <=? n) with true by (symmetry; apply Z.leb_le; lia).
  replace (n <? 64) with true by (symmetry; apply Z.ltb_lt; lia).
  reflexivity.
Qed.

Lemma BB_SCAN_nonneg bb : 0 <= BB_SCAN bb.
Proof. apply Z.log2_nonneg. Qed.

Lemma land_wrap64_low g : Z.land (wrap64 g) 0xFF = Z.land g 0xFF.
Proof. unfold wrap64. rewrite <- Z.land_assoc. reflexivity. Qed.

Lemma land_low_range g : 0 <= Z.land g 0xFF < 256.
Proof.
  change 0xFF with (Z.ones 8). rewrite Z.land_ones by lia.
  apply Z.mod_pos_bound. lia.
Qed.

Lemma land_low_idem g : Z.land (Z.land g 0xFF) 0xFF = Z.land g 0xFF.
Proof. rewrite <- Z.land_assoc. reflexivity. Qed.

End KernelFacts.

(** ** The generator does not depend on the open shift value beyond [agree] *)

Section Agreement.

Variables u u' : UndefShift.
Hypothesis Hagree : agree u u'.

Lemma shl64_agree x n : shl64 u x n = shl64 u' x n.
Proof.
  unfold shl64. destruct (shiftInRange n); [reflexivity|].
  destruct Hagree as [Hl _]. rewrite Hl. reflexivity.
Qed.

Lemma shr64_agree x n : (x =? westSeed) && (n =? 64) = false -> shr64 u x n = shr64 u' x n.
Proof.
  intros Hxn. unfold shr64. destruct (shiftInRange n); [reflexivity|].
  destruct Hagree as (_ & Hr & _). rewrite Hr by exact Hxn. reflexivity.
Qed.

Lemma shr64_agree_count x n : n <> 64 -> shr64 u x n = shr64 u' x n.
Proof.
  intros Hn. apply shr64_agree. apply andb_false_iff. right.
  apply Z.eqb_neq. exact Hn.
Qed.

Lemma BIT_SET_agree bb f : BIT_SET u bb f = BIT_SET u' bb f.
Proof. unfold BIT_SET. rewrite shl64_agree. reflexivity. Qed.

Lemma BIT_CLEAR_agree bb f : BIT_CLEAR u bb f = BIT_CLEAR u' bb f.
Proof. unfold BIT_CLEAR. rewrite shl64_agree. reflexivity. Qed.

Lemma BIT_ISSET_agree bb f : BIT_ISSET u bb f = BIT_ISSET u' bb f.
Proof. unfold BIT_ISSET. rewrite shl64_agree. reflexivity. Qed.

Lemma generateBitBoard_agree l : generateBitBoard u l = generateBitBoard u' l.
Proof.
  induction l as [|f l IH]; simpl; [reflexivity|].
  rewrite IH, BIT_SET_agree. reflexivity.
Qed.

Lemma scanFields_agree fuel bb : scanFields u fuel bb = scanFields u' fuel bb.
Proof.
  revert bb. induction fuel as [|fuel IH]; intros bb; simpl; [reflexivity|].
  rewrite BIT_CLEAR_agree, IH. reflexivity.
Qed.

Lemma fieldsOf_agree bb : fieldsOf u bb = fieldsOf u' bb.
Proof. apply scanFields_agree. Qed.

Lemma maskRank_agree r : maskRank u r = maskRank u' r.
Proof. apply shl64_agree. Qed.

Lemma maskFile_agree f : maskFile u f = maskFile u' f.
Proof. apply shl64_agree. Qed.

Lemma clearFile_agree f : clearFile u f = clearFile u' f.
Proof. unfold clearFile. rewrite maskFile_agree. reflexivity. Qed.

Lemma fold_left_agree {A B : Type} (f g : A -> B -> A) (l : list B) (a : A) :
  (forall x y, f x y = g x y) -> fold_left f l a = fold_left g l a.
Proof.
  intros Hfg. revert a. induction l as [|y l IH]; intros a; simpl; [reflexivity|].
  rewrite Hfg. apply IH.
Qed.

Lemma maskFiles_agree lo hi : maskFiles u lo hi = maskFiles u' lo hi.
Proof.
  unfold maskFiles. apply fold_left_agree. intros x y.
  rewrite maskFile_agree. reflexivity.
Qed.

Lemma getBitsNE_agree bb : getBitsNE u bb = getBitsNE u' bb.
Proof. unfold getBitsNE. rewrite shl64_agree, maskFiles_agree. reflexivity. Qed.

Lemma getBitsNW_agree bb : getBitsNW u bb = getBitsNW u' bb.
Proof.
  unfold getBitsNW. rewrite shl64_agree, maskFiles_agree.
  rewrite (shr64_agree 0x0102040810204000) by reflexivity. reflexivity.
Qed.

Lemma getBitsSE_agree bb : getBitsSE u bb = getBitsSE u' bb.
Proof.
  unfold getBitsSE. rewrite shl64_agree, maskFiles_agree.
  rewrite (shr64_agree 0x0002040810204080) by reflexivity. reflexivity.
Qed.

Lemma getBitsSW_agree bb : getBitsSW u bb = getBitsSW u' bb.
Proof.
  unfold getBitsSW. rewrite maskFiles_agree.
  rewrite (shr64_agree 0x0040201008040201) by reflexivity. reflexivity.
Qed.

Lemma getBitsE_agree bb : getBitsE u bb = getBitsE u' bb.
Proof.
  unfold getBitsE. rewrite shl64_agree, maskRank_agree.
  destruct (0 <? 56 - BB_SCAN bb) eqn:Hs; [|reflexivity].
  rewrite shr64_agree_count; [reflexivity|].
  unfold getBitsE_shift. rewrite Hs. pose proof (BB_SCAN_nonneg bb). lia.
Qed.

Lemma getBitsW_agree bb : getBitsW u bb = getBitsW u' bb.
Proof.
  unfold getBitsW, getBitsW_shift. rewrite maskRank_agree.
  destruct (Z.eq_dec (BB_SCAN bb) 0) as [H0|H0].
  - rewrite H0. change (maskRank u' (0 / 8)) with 0xFF.
    change (64 - 0) with 64. unfold shr64. change (shiftInRange 64) with false.
    cbv iota. rewrite !land_wrap64_low. destruct Hagree as (_ & _ & Hw). exact Hw.
  - rewrite shr64_agree_count; [reflexivity|]. lia.
Qed.

Lemma getBitsN_agree bb : getBitsN u bb = getBitsN u' bb.
Proof. apply shl64_agree. Qed.

Lemma getBitsS_agree bb : getBitsS u bb = getBitsS u' bb.
Proof. unfold getBitsS. apply shr64_agree. reflexivity. Qed.

Lemma calcBishopTurns_agree b o a : calcBishopTurns u b o a = calcBishopTurns u' b o a.
Proof.
  unfold calcBishopTurns.
  rewrite getBitsNE_agree, getBitsNW_agree, getBitsSE_agree, getBitsSW_agree.
  reflexivity.
Qed.

Lemma calcRookTurns_agree r o a : calcRookTurns u r o a = calcRookTurns u' r o a.
Proof.
  unfold calcRookTurns.
  rewrite getBitsE_agree, getBitsW_agree, getBitsN_agree, getBitsS_agree.
  reflexivity.
Qed.

Lemma calcQueenTurns_agree q o a : calcQueenTurns u q o a = calcQueenTurns u' q o a.
Proof.
  unfold calcQueenTurns. rewrite calcRookTurns_agree, calcBishopTurns_agree. reflexivity.
Qed.

Lemma calcPawnMoveTurns_agree p a c : calcPawnMoveTurns u p a c = calcPawnMoveTurns u' p a c.
Proof.
  unfold calcPawnMoveTurns. rewrite !maskRank_agree. destruct c; reflexivity.
Qed.

Lemma calcPawnAttackTurns_agree p o c e :
  calcPawnAttackTurns u p o c e = calcPawnAttackTurns u' p o c e.
Proof.
  unfold calcPawnAttackTurns. rewrite !clearFile_agree, BIT_SET_agree.
  destruct c; reflexivity.
Qed.

Lemma calcPawnTurns_agree p o a c e : calcPawnTurns u p o a c e = calcPawnTurns u' p o a c e.
Proof.
  unfold calcPawnTurns. rewrite calcPawnMoveTurns_agree, calcPawnAttackTurns_agree.
  reflexivity.
Qed.

Lemma calcKnightTurns_agree k o : calcKnightTurns u k o = calcKnightTurns u' k o.
Proof. unfold calcKnightTurns. rewrite !clearFile_agree. reflexivity. Qed.

Lemma calcKingTurns_agree k o a : calcKingTurns u k o a = calcKingTurns u' k o a.
Proof. unfold calcKingTurns. rewrite !clearFile_agree. reflexivity. Qed.

Lemma calcShortCastleTurns_agree c a o :
  calcShortCastleTurns u c a o = calcShortCastleTurns u' c a o.
Proof.
  unfold calcShortCastleTurns.
  rewrite !generateBitBoard_agree, !BIT_ISSET_agree, !BIT_SET_agree. reflexivity.
Qed.

Lemma calcLongCastleTurns_agree c a o :
  calcLongCastleTurns u c a o = calcLongCastleTurns u' c a o.
Proof.
  unfold calcLongCastleTurns.
  rewrite !generateBitBoard_agree, !BIT_ISSET_agree, !BIT_SET_agree. reflexivity.
Qed.

Lemma calcMoveTurns_agree p bb o cb : calcMoveTurns u p bb o cb = calcMoveTurns u' p bb o cb.
Proof.
  unfold calcMoveTurns.
  destruct (type p); auto using calcKingTurns_agree, calcQueenTurns_agree,
    calcBishopTurns_agree, calcKnightTurns_agree, calcRookTurns_agree, calcPawnTurns_agree.
Qed.

Lemma bitBoardToTurns_agree p f bb : bitBoardToTurns u p f bb = bitBoardToTurns u' p f bb.
Proof. unfold bitBoardToTurns. rewrite fieldsOf_agree. reflexivity. Qed.

Lemma setFieldsBetween_agree bb pr pf d rs fs :
  setFieldsBetween u bb pr pf d rs fs = setFieldsBetween u' bb pr pf d rs fs.
Proof.
  unfold setFieldsBetween. apply fold_left_agree. intros x y. apply BIT_SET_agree.
Qed.

Lemma unCheckFieldsSliding_agree k pos :
  unCheckFieldsSliding u k pos = unCheckFieldsSliding u' k pos.
Proof.
  unfold unCheckFieldsSliding.
  repeat match goal with |- context [if ?b then _ else _] => destruct b end;
    rewrite setFieldsBetween_agree, BIT_SET_agree; reflexivity.
Qed.

Lemma firstReturn_agree {A B : Type} (f g : A -> option B) (l : list A) :
  (forall x, f x = g x) -> firstReturn f l = firstReturn g l.
Proof.
  intros Hfg. induction l as [|x l IH]; simpl; [reflexivity|].
  rewrite Hfg, IH. reflexivity.
Qed.

Lemma unCheckFieldsOf_agree opp cb t pos :
  unCheckFieldsOf u opp cb t pos = unCheckFieldsOf u' opp cb t pos.
Proof.
  unfold unCheckFieldsOf.
  rewrite BIT_SET_agree, calcMoveTurns_agree, unCheckFieldsSliding_agree. reflexivity.
Qed.

Lemma calcUnCheckFields_agree opp cb : calcUnCheckFields u opp cb = calcUnCheckFields u' opp cb.
Proof.
  unfold calcUnCheckFields.
  rewrite (firstReturn_agree
             (fun t => firstReturn (unCheckFieldsOf u opp cb t) (fieldsOf u (m_bb cb opp t)))
             (fun t => firstReturn (unCheckFieldsOf u' opp cb t) (fieldsOf u' (m_bb cb opp t)))).
  - reflexivity.
  - intros t. rewrite fieldsOf_agree. apply firstReturn_agree.
    intros pos. apply unCheckFieldsOf_agree.
Qed.

Lemma calcAllOppTurns_agree opp cb : calcAllOppTurns u opp cb = calcAllOppTurns u' opp cb.
Proof.
  unfold calcAllOppTurns.
  rewrite calcShortCastleTurns_agree, calcLongCastleTurns_agree.
  apply fold_left_agree. intros acc t.
  rewrite calcPawnAttackTurns_agree, calcKingTurns_agree, calcKnightTurns_agree, fieldsOf_agree.
  destruct t; try reflexivity; apply fold_left_agree; intros acc' pos;
    rewrite BIT_SET_agree, ?calcQueenTurns_agree, ?calcBishopTurns_agree, ?calcRookTurns_agree;
    reflexivity.
Qed.

Lemma pieceTurns_agree c cb o m : pieceTurns u c cb o m = pieceTurns u' c cb o m.
Proof.
  unfold pieceTurns. apply flat_map_ext. intros t. rewrite fieldsOf_agree.
  apply flat_map_ext. intros pos.
  rewrite BIT_SET_agree, calcMoveTurns_agree. apply bitBoardToTurns_agree.
Qed.

Lemma castleTurns_agree c cb a o : castleTurns u c cb a o = castleTurns u' c cb a o.
Proof.
  unfold castleTurns. rewrite calcShortCastleTurns_agree, calcLongCastleTurns_agree.
  reflexivity.
Qed.

Lemma generateTurns_agree c cb : generateTurns u c cb = generateTurns u' c cb.
Proof.
  unfold generateTurns.
  rewrite calcAllOppTurns_agree, calcUnCheckFields_agree, castleTurns_agree.
  rewrite !pieceTurns_agree. reflexivity.
Qed.

End Agreement.

Lemma agree_patch u : agree u (patch u (Z.land (undef_shr u westSeed 64) 0xFF)).
Proof.
  unfold agree, patch. simpl. repeat split.
  - intros x n Hxn. rewrite Hxn. reflexivity.
  - symmetry. apply land_low_idem.
Qed.

(** ** The starting position *)

Lemma generateTurns_start_patch u (k : nat) :
  (k < 256)%nat ->
  fst (generateTurns (patch u (Z.of_nat k)) White startBoard) = startTurns /\
  m_stalemate (snd (generateTurns (patch u (Z.of_nat k)) White startBoard)) = false /\
  m_checkmate (snd (generateTurns (patch u (Z.of_nat k)) White startBoard)) = noFlags /\
  m_kingInCheck (snd (generateTurns (patch u (Z.of_nat k)) White startBoard)) White = false.
Proof.
  intros Hk.
  do 256 (destruct k as [|k]; [vm_compute; repeat split; reflexivity|]).
  lia.
Qed.

(** C1. From the standard starting position with White to move,
    [generateTurns] produces exactly the 20 turns [startTurns] (the four
    knight moves and the sixteen pawn pushes), and the pass sets neither a
    checkmate flag nor the stalemate flag.  This holds for every value the
    out-of-range shift of [getBitsW] on A1 may produce. *)
Theorem generateTurns_startBoard (u : UndefShift) :
  fst (generateTurns u White startBoard) = startTurns /\
  length (fst (generateTurns u White startBoard)) = 20%nat /\
  length (filter (fun t => PieceType_eqb (type (piece t)) Pawn)
                 (fst (generateTurns u White startBoard))) = 16%nat /\
  length (filter (fun t => PieceType_eqb (type (piece t)) Knight)
                 (fst (generateTurns u White startBoard))) = 4%nat /\
  m_stalemate (snd (generateTurns u White startBoard)) = false /\
  (forall c, m_checkmate (snd (generateTurns u White startBoard)) c = false).
Proof.
  rewrite (generateTurns_agree u _ (agree_patch u)).
  pose proof (land_low_range (undef_shr u westSeed 64)) as Hj.
  set (j := Z.land (undef_shr u westSeed 64) 0xFF) in *.
  rewrite <- (Z2Nat.id j) by lia.
  destruct (generateTurns_start_patch u (Z.to_nat j)) as (Ht & Hs & Hc & _); [lia|].
  rewrite Ht, Hs, Hc. repeat split.
Qed.

(** ** Shift counts of the ray helpers *)

(** Seven of the eight helpers, and [getBitsW] off the square A1, shift by a
    count in 0..63; so do the rank and file masks they build. *)
Lemma ray_shifts_in_range (field : Z) :
  0 <= field < 64 ->
  shiftInRange (getBitsN_shift field) = true /\
  shiftInRange (getBitsS_shift field) = true /\
  shiftInRange (getBitsE_shift field) = true /\
  shiftInRange (getBitsNE_shift field) = true /\
  shiftInRange (getBitsNW_shift field) = true /\
  shiftInRange (getBitsSE_shift field) = true /\
  shiftInRange (getBitsSW_shift field) = true /\
  shiftInRange (field / 8 * 8) = true /\
  (forall i, 0 <= i < 8 -> shiftInRange i = true) /\
  (0 < field -> shiftInRange (getBitsW_shift field) = true).
Proof.
  intros Hf.
  unfold getBitsN_shift, getBitsS_shift, getBitsE_shift, getBitsNE_shift,
    getBitsNW_shift, getBitsSE_shift, getBitsSW_shift, getBitsW_shift, shiftInRange.
  assert (0 <= field / 8 < 8) by (split; [apply Z.div_pos; lia | apply Z.div_lt_upper_bound; lia]).
  repeat match goal with |- context [if ?b then _ else _] => destruct b eqn:? end;
  repeat split; intros; apply andb_true_iff; split;
    first [apply Z.leb_le | apply Z.ltb_lt]; lia.
Qed.

Lemma getBitsW_A1 u : getBitsW u 1 = Z.land (undef_shr u westSeed 64) 0xFF.
Proof.
  unfold getBitsW.
  change (BB_SCAN 1) with 0. change (getBitsW_shift 0) with 64.
  change (maskRank u (0 / 8)) with 0xFF.
  unfold shr64. change (shiftInRange 64) with false. cbv iota.
  apply land_wrap64_low.
Qed.

(** C6. The claim that every shift of the ray helpers stays within 0..63
    fails for [getBitsW] with the piece on A1 (bitboard 1, field 0): the
    count is [64 - 0 = 64], and the value returned is whatever that shift
    produces, cut to the first rank. *)
Theorem getBitsW_shift_A1_out_of_range :
  BB_SCAN 1 = A1 /\
  getBitsW_shift (BB_SCAN 1) = 64 /\
  shiftInRange (getBitsW_shift (BB_SCAN 1)) = false /\
  (forall u, getBitsW u 1 = Z.land (undef_shr u westSeed 64) 0xFF).
Proof.
  repeat split. intros u. apply getBitsW_A1.
Qed.

(** ** Check flags written by a generation pass *)

Lemma generateTurns_kingInCheck u player cb c :
  m_kingInCheck (snd (generateTurns u player cb)) c =
  if PlayerColor_eqb c player
  then Z.land (m_bb cb player King) (calcAllOppTurns u (togglePlayerColor player) cb)
       =? m_bb cb player King
  else if PlayerColor_eqb c (togglePlayerColor player) then false
  else m_kingInCheck cb c.
Proof.
  unfold generateTurns. cbn [m_bb setKingInCheck].
  destruct (Z.land (m_bb cb player King) (calcAllOppTurns u (togglePlayerColor player) cb)
            =? m_bb cb player King).
  - match goal with |- context [match ?l with [] => _ | _ => _ end] => destruct l end;
      cbn; unfold setFlag; destruct (PlayerColor_eqb c player); reflexivity.
  - match goal with |- context [match ?l with [] => _ | _ => _ end] => destruct l end;
      cbn; unfold setFlag; destruct (PlayerColor_eqb c player); reflexivity.
Qed.

(** C9. A call [generateTurns(player, cb)] leaves the opponent's
    [kingInCheck] flag false whatever it was before; hence, for a player
    White or Black, after the pass no flag other than the moving player's
    can be true. *)
Theorem generateTurns_clears_opponent_check (u : UndefShift) (player : PlayerColor)
    (cb : ChessBoard) :
  m_kingInCheck (snd (generateTurns u player cb)) (togglePlayerColor player) = false /\
  (player <> NoPlayer ->
   forall c, c <> NoPlayer ->
     m_kingInCheck (snd (generateTurns u player cb)) c = true -> c = player).
Proof.
  split.
  - rewrite generateTurns_kingInCheck.
    destruct player; cbv [PlayerColor_eqb togglePlayerColor]; reflexivity.
  - intros Hp c Hc. rewrite generateTurns_kingInCheck.
    destruct player, c; cbv [PlayerColor_eqb togglePlayerColor]; congruence.
Qed.

(** A stale flag of the opponent is cleared: Black's flag is set before
    White's pass on the starting position and false after it. *)
Lemma generateTurns_clears_opponent_check_witness :
  m_kingInCheck (setKingInCheck startBoard Black true) Black = true /\
  m_kingInCheck (snd (generateTurns x86Shift White (setKingInCheck startBoard Black true)))
    Black = false /\
  (forall c, c <> NoPlayer ->
     m_kingInCheck (snd (generateTurns x86Shift White (setKingInCheck startBoard Black true))) c
       = true -> c = White).
Proof.
  split; [reflexivity|].
  split.
  - exact (proj1 (generateTurns_clears_opponent_check x86Shift White
                    (setKingInCheck startBoard Black true))).
  - apply (proj2 (generateTurns_clears_opponent_check x86Shift White
                    (setKingInCheck startBoard Black true))).
    discriminate.
Defined.

(** ** Incremental evaluation against evaluation from scratch *)

Module EvaluatorFacts.

Import Evaluator.

Lemma estimateStep_contribution score position piece :
  estimateStep (score, position) piece
  = (score + contribution piece position, nextField position).
Proof.
  unfold contribution, estimateStep.
  destruct (pieceTypeIndex (type piece) <=? pieceTypeIndex Pawn);
    destruct (PlayerColor_isWhite (player piece)); cbn [fst]; f_equal; lia.
Qed.

Lemma fold_estimateStep board score position :
  fst (fold_left estimateStep board (score, position)) = score + boardSum position board.
Proof.
  revert score position. induction board as [|piece rest IH]; intros score position.
  - cbn. lia.
  - cbn [fold_left boardSum]. rewrite estimateStep_contribution, IH. lia.
Qed.

Lemma estimateFullBoard_boardSum board : estimateFullBoard board = boardSum A1 board.
Proof. unfold estimateFullBoard. rewrite fold_estimateStep. lia. Qed.

Lemma boardSum_insert board (i : nat) position x :
  (i < length board)%nat ->
  boardSum position (<[i := x]> board)
  = boardSum position board
    - contribution (nth i board noPiece) (position + Z.of_nat i)
    + contribution x (position + Z.of_nat i).
Proof.
  revert i position. induction board as [|piece rest IH]; intros i position Hi.
  - cbn in Hi. lia.
  - destruct i as [|i].
    + cbn [boardSum nth]. change (<[0%nat := x]> (piece :: rest)) with (x :: rest).
      cbn [boardSum]. replace (position + Z.of_nat 0) with position by lia. lia.
    + change (<[S i := x]> (piece :: rest)) with (piece :: <[i := x]> rest).
      cbn [boardSum nth]. rewrite IH by (cbn in Hi; lia).
      unfold nextField. replace (position + 1 + Z.of_nat i) with (position + Z.of_nat (S i)) by lia.
      lia.
Qed.

Lemma nth_insert_other (board : list Piece) (i j : nat) x :
  i <> j -> nth j (<[i := x]> board) noPiece = nth j board noPiece.
Proof.
  intros Hij. rewrite !nth_lookup. rewrite list_lookup_insert_ne by exact Hij. reflexivity.
Qed.

Lemma contribution_noPiece position : contribution noPiece position = 0.
Proof. reflexivity. Qed.

Lemma contribution_real p position :
  realPiece p ->
  contribution p position =
  if PlayerColor_isBlack (player p)
  then - (pieceValue (type p) + pst (type p) position)
  else pieceValue (type p) + pst (type p) (flipHorizontal position).
Proof.
  intros [Hc Ht]. unfold contribution, estimateStep.
  replace (pieceTypeIndex (type p) <=? pieceTypeIndex Pawn) with true
    by (symmetry; apply Z.leb_le; exact Ht).
  destruct Hc as [Hc|Hc]; rewrite Hc; cbn [PlayerColor_isBlack PlayerColor_isWhite
    PlayerColor_eqb fst]; lia.
Qed.

Lemma isNoPiece_noPiece : isNoPiece noPiece = true.
Proof. reflexivity. Qed.

Lemma isNoPiece_real p : realPiece p -> isNoPiece p = false.
Proof.
  intros [Hc _]. unfold isNoPiece. destruct Hc as [Hc|Hc]; rewrite Hc; reflexivity.
Qed.

Lemma moveIncrement_score t e :
  m_estimatedScore (moveIncrement t e) =
  m_estimatedScore e +
  if PlayerColor_isBlack (player (piece t))
  then pst (type (piece t)) (from t) - pst (type (piece t)) (to t)
  else pst (type (piece t)) (flipHorizontal (to t))
       - pst (type (piece t)) (flipHorizontal (from t)).
Proof.
  unfold moveIncrement. destruct (PlayerColor_isBlack (player (piece t))); cbn; lia.
Qed.

Lemma captureIncrement_score f p e :
  realPiece p ->
  m_estimatedScore (captureIncrement f p e) = m_estimatedScore e - contribution p f.
Proof.
  intros Hp. rewrite contribution_real by exact Hp. unfold captureIncrement.
  destruct (PlayerColor_isBlack (player p)); cbn; lia.
Qed.

(** C8. On a 64-square board whose squares hold the empty sentinel or a piece
    of White or Black, an ordinary move of the piece [p] on [f1] to another
    square [f2], capturing whatever stands on [f2]: feeding the evaluator
    seeded from the board with [captureIncrement] (if [f2] was occupied) and
    [moveIncrement] gives exactly [estimateFullBoard] of the board after the
    move. *)
Theorem incremental_score_equals_full_evaluation
    (board : list Piece) (p : Piece) (f1 f2 : Field) :
  length board = 64%nat ->
  Forall wellFormedSquare board ->
  0 <= f1 < 64 -> 0 <= f2 < 64 -> f1 <> f2 ->
  nth (Z.to_nat f1) board noPiece = p ->
  realPiece p ->
  m_estimatedScore (evaluatorAfterMove board p f1 f2 (fromBoard board))
  = estimateFullBoard (boardAfterMove board p f1 f2).
Proof.
  intros Hlen Hwf Hf1 Hf2 Hne Hp Hreal.
  unfold evaluatorAfterMove, boardAfterMove, fromBoard.
  rewrite !estimateFullBoard_boardSum.
  rewrite boardSum_insert by (rewrite length_insert; lia).
  rewrite nth_insert_other by lia.
  rewrite boardSum_insert by lia.
  rewrite Hp, contribution_noPiece, !Z2Nat.id by lia.
  unfold A1. rewrite !Z.add_0_l.
  rewrite moveIncrement_score. cbn [piece from to Turn_move].
  rewrite !(contribution_real p) by exact Hreal.
  assert (Hv : wellFormedSquare (nth (Z.to_nat f2) board noPiece)).
  { apply Forall_nth; [exact Hwf | lia]. }
  destruct Hv as [Hv|Hv].
  - rewrite Hv, isNoPiece_noPiece, contribution_noPiece. cbn [m_estimatedScore].
    destruct (PlayerColor_isBlack (player p)); lia.
  - rewrite (isNoPiece_real _ Hv), (captureIncrement_score _ _ _ Hv). cbn [m_estimatedScore].
    destruct (PlayerColor_isBlack (player p)); lia.
Qed.

Lemma incremental_score_equals_full_evaluation_witness :
  m_estimatedScore (evaluatorAfterMove rookTakesPawnBoard (mkPiece White Rook) 0 8
                      (fromBoard rookTakesPawnBoard))
  = estimateFullBoard (boardAfterMove rookTakesPawnBoard (mkPiece White Rook) 0 8).
Proof.
  apply (incremental_score_equals_full_evaluation rookTakesPawnBoard (mkPiece White Rook) 0 8).
  - reflexivity.
  - unfold rookTakesPawnBoard. cbn [replicate app].
    repeat (constructor; [first [left; reflexivity
      | right; split; [first [left; reflexivity | right; reflexivity] | cbn; lia]] |]).
    constructor.
  - lia.
  - lia.
  - lia.
  - reflexivity.
  - split; [left; reflexivity | cbn; lia].
Defined.

End EvaluatorFacts.

(** ** The search: abort flag, table probe and stored entries *)

Module SearchFacts.

Import Negamax SearchSpec Mock.

Section Generic.

Context {TGameState : Type} `{GameStateOps TGameState}.
Variable env : Environment.
Variable tg : Toggles.

Lemma readAbort_quiet n : quiet n -> readAbort n = (false, n).
Proof. intros [Ha Hp]. unfold readAbort. rewrite Hp, Ha. reflexivity. Qed.

Lemma quiet_countNode n : quiet n -> quiet (countNode n).
Proof. intros Hq. exact Hq. Qed.

Lemma quiet_countCutoff n : quiet n -> quiet (countCutoff n).
Proof. intros Hq. exact Hq. Qed.

Lemma quiet_countUpdate n : quiet n -> quiet (countUpdate n).
Proof. intros Hq. exact Hq. Qed.

Lemma quiet_countHit n : quiet n -> quiet (countHit n).
Proof. intros Hq. exact Hq. Qed.

Lemma quiet_withTable n t : quiet n -> quiet (withTable n t).
Proof. intros Hq. exact Hq. Qed.

Lemma quiet_storeResult n st pl b a be : quiet n -> quiet (storeResult env tg n st pl b a be).
Proof. intros Hq. unfold storeResult. destruct (TRANSPOSITION_TABLES_ENABLED tg); exact Hq. Qed.

Lemma quiet_probeTable n st pl a b : quiet n -> quiet (snd (probeTable tg n st pl a b)).
Proof.
  intros Hq. unfold probeTable.
  repeat match goal with
         | |- context [if ?c then _ else _] => destruct c
         | |- context [match ?c with Some _ => _ | None => _ end] => destruct c
         end; exact Hq.
Qed.

(** The equation of [search_recurse] one ply above the horizon. *)
Lemma search_recurse_S pl st depth alpha beta n :
  search_recurse env tg (S pl) st depth alpha beta n =
  let '(aborted, n) := readAbort n in
  if aborted then (sentinel, n)
  else if isGameOver st then (mkResult (getScore st depth) None, n)
  else match probeTable tg n st (S pl) alpha beta with
       | (inl r, n) => (r, n)
       | (inr (alpha', beta'), n) =>
           match searchOptions tg
                   (fun st' a b n' => search_recurse env tg pl st' (depth + 1) a b n')
                   (considerOptions env tg n st depth)
                   (mkResult (MIN_SCORE env) None) alpha' beta' n with
           | (None, n) => (sentinel, n)
           | (Some bestResult, n) =>
               (bestResult, storeResult env tg n st (S pl) bestResult alpha beta')
           end
       end.
Proof. reflexivity. Qed.

(** Without an abort the loop over the options runs to its end or to a
    cutoff; it never takes the abort exit. *)
Lemma searchOptions_quiet
    (recurse : TGameState -> Z -> Z -> Negamax -> NegamaxResult * Negamax)
    (options : list (@Option TGameState)) best alpha beta n :
  (forall st' a b n0, quiet n0 -> quiet (snd (recurse st' a b n0))) ->
  quiet n ->
  exists b, fst (searchOptions tg recurse options best alpha beta n) = Some b /\
            quiet (snd (searchOptions tg recurse options best alpha beta n)).
Proof.
  intros Hrec. revert best alpha n.
  induction options as [|o rest IH]; intros best alpha n Hq.
  - exists best. split; [reflexivity | exact Hq].
  - cbn [searchOptions].
    pose proof (Hrec (state o) (- beta) (- alpha) (countNode n) (quiet_countNode n Hq)) as Hq1.
    destruct (recurse (state o) (- beta) (- alpha) (countNode n)) as [r n1].
    cbn [snd] in Hq1.
    destruct (score best <? score (negResult r)).
    + destruct (AB_CUTOFF_ENABLED tg && (beta <=? Z.max alpha (score (negResult r)))).
      * eexists. split; [reflexivity | exact Hq1].
      * rewrite (readAbort_quiet (countUpdate n1)) by exact Hq1. apply IH. exact Hq1.
    + destruct (AB_CUTOFF_ENABLED tg && (beta <=? Z.max alpha (score (negResult r)))).
      * eexists. split; [reflexivity | exact Hq1].
      * rewrite (readAbort_quiet n1) by exact Hq1. apply IH. exact Hq1.
Qed.

Lemma search_recurse_quiet pl st depth alpha beta n :
  quiet n -> quiet (snd (search_recurse env tg pl st depth alpha beta n)).
Proof.
  revert st depth alpha beta n.
  induction pl as [|pl IH]; intros st depth alpha beta n Hq.
  - cbn [search_recurse]. rewrite (readAbort_quiet n Hq). exact Hq.
  - rewrite search_recurse_S, (readAbort_quiet n Hq). cbv iota.
    destruct (isGameOver st); [exact Hq|].
    pose proof (quiet_probeTable n st (S pl) alpha beta Hq) as Hq1.
    destruct (probeTable tg n st (S pl) alpha beta) as [[r|[alpha' beta']] n1];
      cbn [snd] in Hq1; [exact Hq1|].
    destruct (searchOptions_quiet
                (fun st' a b n' => search_recurse env tg pl st' (depth + 1) a b n')
                (considerOptions env tg n1 st depth) (mkResult (MIN_SCORE env) None)
                alpha' beta' n1) as (b & Hb & Hq2); [|exact Hq1|].
    { intros st' a b' n0 Hq0. apply IH. exact Hq0. }
    destruct (searchOptions _ _ _ _ _ _ _) as [res n2]. cbn [fst snd] in Hb, Hq2.
    subst res. cbn [snd]. apply quiet_storeResult. exact Hq2.
Qed.

(** C5 (as amended). The ordering estimate is the negated current score of
    the child when the table is disabled or holds no entry for the child's
    hash, the negated stored score when the entry is an exact or lower
    bound, and [- MIN_SCORE] when the entry is an upper bound. *)
Theorem estimateScoreFor_cases (n : Negamax) (st : TGameState) (depth : nat) :
  (TRANSPOSITION_TABLES_ENABLED tg = false ->
   estimateScoreFor env tg n st depth = - getScore st depth) /\
  (TRANSPOSITION_TABLES_ENABLED tg = true ->
   TT.lookup (m_transpositionTable n) (getHash st) = None ->
   estimateScoreFor env tg n st depth = - getScore st depth) /\
  (forall e, TRANSPOSITION_TABLES_ENABLED tg = true ->
   TT.lookup (m_transpositionTable n) (getHash st) = Some e ->
   TT.boundType e <> TT.UPPER ->
   estimateScoreFor env tg n st depth = - TT.score e) /\
  (forall e, TRANSPOSITION_TABLES_ENABLED tg = true ->
   TT.lookup (m_transpositionTable n) (getHash st) = Some e ->
   TT.boundType e = TT.UPPER ->
   estimateScoreFor env tg n st depth = - MIN_SCORE env).
Proof.
  unfold estimateScoreFor. repeat split.
  - intros ->. reflexivity.
  - intros -> ->. reflexivity.
  - intros e -> -> Hb. unfold TT.isUpperBound. destruct (TT.boundType e); congruence.
  - intros e -> -> Hb. unfold TT.isUpperBound. rewrite Hb. reflexivity.
Qed.

(** What [lookup] finds after [maybeUpdate]: always replace. *)
Lemma lookup_maybeUpdate t e : TT.lookup (TT.maybeUpdate t e) (TT.hash e) = Some e.
Proof.
  unfold TT.lookup, TT.maybeUpdate. cbn [TT.slots TT.getTableSize].
  rewrite lookup_insert_eq. rewrite Z.eqb_refl. reflexivity.
Qed.

Lemma probeTable_continue n st pl alpha beta alpha' beta' n1 :
  probeTable tg n st pl alpha beta = (inr (alpha', beta'), n1) ->
  beta' = narrowedBeta tg n st pl beta.
Proof.
  unfold probeTable, narrowedBeta.
  destruct (TRANSPOSITION_TABLES_ENABLED tg); [|intros [= _ <- _]; reflexivity].
  destruct (TT.lookup (m_transpositionTable n) (getHash st)) as [e|];
    [|intros [= _ <- _]; reflexivity].
  destruct (pl <=? TT.depth e)%nat; cbn [andb]; [|intros [= _ <- _]; reflexivity].
  unfold TT.isExactBound, TT.isLowerBound, TT.isUpperBound.
  destruct (TT.boundType e); cbn [andb].
  - intros [=].
  - destruct (AB_CUTOFF_ENABLED tg && _); intros [= _ <- _]; reflexivity.
  - destruct (AB_CUTOFF_ENABLED tg && _); intros [= _ <- _]; reflexivity.
Qed.

(** C4 (as amended). A non-terminal invocation of [search_recurse] with the
    table enabled, no abort, and no early return from the table probe stores
    for its position an entry with the returned score, depth [pliesLeft],
    and bound UPPER when the score is at most the alpha it was entered with,
    else LOWER when the score reaches [narrowedBeta] (the entry beta lowered
    by an upper-bound table entry), else EXACT. *)
Theorem stored_entry_classification
    (pl : nat) (st : TGameState) (depth : nat) (alpha beta : Z) (n : Negamax)
    (alpha' beta' : Z) (n1 : Negamax) :
  TRANSPOSITION_TABLES_ENABLED tg = true ->
  quiet n ->
  isGameOver st = false ->
  probeTable tg n st (S pl) alpha beta = (inr (alpha', beta'), n1) ->
  exists e,
    TT.lookup (m_transpositionTable (snd (search_recurse env tg (S pl) st depth alpha beta n)))
              (getHash st) = Some e /\
    TT.score e = score (fst (search_recurse env tg (S pl) st depth alpha beta n)) /\
    TT.depth e = S pl /\
    TT.boundType e =
      (if TT.score e <=? alpha then TT.UPPER
       else if narrowedBeta tg n st (S pl) beta <=? TT.score e then TT.LOWER
       else TT.EXACT).
Proof.
  intros Htt Hq Hgo Hprobe.
  pose proof (probeTable_continue _ _ _ _ _ _ _ _ Hprobe) as Hbeta.
  pose proof (quiet_probeTable n st (S pl) alpha beta Hq) as Hq1.
  rewrite search_recurse_S, (readAbort_quiet n Hq). cbv iota.
  rewrite Hgo, Hprobe. rewrite Hprobe in Hq1. cbn [snd] in Hq1.
  destruct (searchOptions_quiet
              (fun st' a b n' => search_recurse env tg pl st' (depth + 1) a b n')
              (considerOptions env tg n1 st depth) (mkResult (MIN_SCORE env) None)
              alpha' beta' n1) as (b & Hb & _); [|exact Hq1|].
  { intros st' a b' n0 Hq0. apply search_recurse_quiet. exact Hq0. }
  destruct (searchOptions _ _ _ _ _ _ _) as [res n2]. cbn [fst] in Hb. subst res.
  cbn [fst snd]. unfold storeResult. rewrite Htt. cbn [m_transpositionTable withTable].
  eexists. split.
  - apply (lookup_maybeUpdate (m_transpositionTable n2)
             (TT.mkEntry (getHash st) (score b) (derefTurn env (turn b)) (S pl)
                (classifyBound (score b) alpha beta'))).
  - cbn [TT.score TT.depth TT.boundType]. rewrite <- Hbeta. repeat split.
Qed.

(** [search] clears the abort flag before anything reads it. *)
Lemma search_after_abort n st maxDepth :
  search env tg (abort n) st maxDepth = search env tg n st maxDepth.
Proof. reflexivity. Qed.

(** C10. [search] resets the abort flag first: a search started on an object
    on which [abort()] was called before (by the user, or during an earlier
    search) is the search started on the untouched object, and if no further
    [abort()] arrives the flag is still clear when the search returns. *)
Theorem search_ignores_earlier_abort (n : Negamax) (st : TGameState) (maxDepth : nat) :
  search env tg (abort n) st maxDepth = search env tg n st maxDepth /\
  (m_abort n = true -> search env tg n st maxDepth = search env tg (withAbort n false) st maxDepth) /\
  (pendingAbort n = None -> m_abort (snd (search env tg (abort n) st maxDepth)) = false).
Proof.
  split; [reflexivity|]. split; [reflexivity|].
  intros Hp. rewrite search_after_abort. unfold search.
  apply search_recurse_quiet. split; [reflexivity | exact Hp].
Qed.

End Generic.

(** *** Alpha-beta cutoffs and move ordering do not change the result *)

Section BestOf.

Lemma bestOf_perm l l' : Permutation l l' -> forall a, bestOf l a = bestOf l' a.
Proof.
  unfold bestOf. induction 1 as [|x l l' _ IH|x y l|l l' l'' _ IH1 _ IH2]; intros a; cbn.
  - reflexivity.
  - apply IH.
  - f_equal. lia.
  - rewrite IH1. apply IH2.
Qed.

Lemma bestOf_ge_init l : forall a, a <= bestOf l a.
Proof.
  unfold bestOf. induction l as [|x l IH]; intros a; cbn; [lia|].
  specialize (IH (Z.max a x)). lia.
Qed.

Lemma bestOf_ge_elem l x : In x l -> forall a, x <= bestOf l a.
Proof.
  unfold bestOf. induction l as [|y l IH]; intros Hin a; cbn; [destruct Hin|].
  destruct Hin as [->|Hin].
  - pose proof (bestOf_ge_init l (Z.max a x)) as Hge. unfold bestOf in Hge. lia.
  - apply IH. exact Hin.
Qed.

Lemma bestOf_bounds l lo hi :
  (forall x, In x l -> lo <= x <= hi) -> forall a, lo <= a <= hi -> lo <= bestOf l a <= hi.
Proof.
  unfold bestOf. induction l as [|y l IH]; intros Hl a Ha; cbn; [exact Ha|].
  apply IH.
  - intros x Hx. apply Hl. right. exact Hx.
  - pose proof (Hl y (or_introl eq_refl)). lia.
Qed.

Lemma bestOf_le l hi :
  (forall x, In x l -> x <= hi) -> forall a, a <= hi -> bestOf l a <= hi.
Proof.
  unfold bestOf. induction l as [|y l IH]; intros Hl a Ha; cbn; [exact Ha|].
  apply IH.
  - intros x Hx. apply Hl. right. exact Hx.
  - pose proof (Hl y (or_introl eq_refl)). lia.
Qed.

Lemma bestOf_attained l x :
  In x l -> (forall y, In y l -> y <= x) -> forall a, a <= x -> bestOf l a = x.
Proof.
  intros Hin Hmax a Ha.
  pose proof (bestOf_ge_elem l x Hin a) as Hge.
  pose proof (bestOf_le l x Hmax a Ha) as Hle.
  lia.
Qed.

End BestOf.

Section WithoutTable.

Context {TGameState : Type} `{GameStateOps TGameState}.
Variable env : Environment.
Variable tg : Toggles.
Hypothesis Htable : TRANSPOSITION_TABLES_ENABLED tg = false.

Variables (pl depth : nat).
Variable recurse : TGameState -> Z -> Z -> Negamax -> NegamaxResult * Negamax.
Variable all : list (@Option TGameState).

Local Abbreviation X := (optionValue env pl depth).

(** The loop with cutoffs: a fail-soft result for the window it started
    with.  [W] is the best value among the options already searched. *)
Lemma searchOptions_failSoft (alpha0 beta : Z) :
  AB_CUTOFF_ENABLED tg = true ->
  (forall st' a b n0, quiet n0 -> a < b ->
     failSoft a b (score (fst (recurse st' a b n0))) (negamaxValue env pl st' (depth + 1)) /\
     quiet (snd (recurse st' a b n0))) ->
  forall options best alpha W n,
    incl options all -> quiet n -> alpha < beta -> alpha0 <= alpha ->
    alpha <= Z.max alpha0 (score best) ->
    W <= score best ->
    (alpha0 < score best -> score best = W) ->
    (MIN_SCORE env < score best -> alpha0 < score best ->
     turnJustified env pl depth all beta best) ->
    exists b n',
      searchOptions tg recurse options best alpha beta n = (Some b, n') /\ quiet n' /\
      failSoft alpha0 beta (score b) (bestOf (map X options) W) /\
      (MIN_SCORE env < score b -> alpha0 < score b -> turnJustified env pl depth all beta b).
Proof.
  intros Hab Hrec. induction options as [|o rest IH];
    intros best alpha W n Hincl Hq Hwin Ha0 Ha Hw Hexact Hturn.
  - exists best, n. split; [reflexivity|]. split; [exact Hq|].
    split; [unfold failSoft, bestOf; cbn [map fold_left]; lia | exact Hturn].
  - cbn [searchOptions]. rewrite Hab. cbn [andb].
    destruct (Hrec (state o) (- beta) (- alpha) (countNode n) Hq ltac:(lia)) as [Hfs Hq1].
    destruct (recurse (state o) (- beta) (- alpha) (countNode n)) as [c n1].
    cbn [fst snd] in Hfs, Hq1. unfold negResult. cbn [score].
    assert (Hx : X o = - negamaxValue env pl (state o) (depth + 1)) by reflexivity.
    destruct Hfs as (Hlow & Hhigh & Hmid).
    assert (Ho : In o all) by (apply Hincl; left; reflexivity).
    assert (Hincl' : incl rest all) by (intros o' Ho'; apply Hincl; right; exact Ho').
    cbn [map]. change (bestOf (X o :: map X rest) W) with (bestOf (map X rest) (Z.max W (X o))).
    destruct (score best <? - score c) eqn:Hupd;
      [apply Z.ltb_lt in Hupd | apply Z.ltb_ge in Hupd];
      destruct (beta <=? Z.max alpha (- score c)) eqn:Hcut;
      try (apply Z.leb_le in Hcut); try (apply Z.leb_gt in Hcut).
    + (* update and cutoff *)
      eexists _, _. split; [reflexivity|]. split; [exact Hq1|]. cbn [score turn].
      pose proof (bestOf_ge_init (map X rest) (Z.max W (X o))).
      split; [unfold failSoft; lia|].
      intros _ _. exists o. cbn [score turn]. repeat split; try assumption; lia.
    + (* update, no cutoff *)
      rewrite (readAbort_quiet (countUpdate n1)) by exact Hq1.
      apply IH; try assumption; cbn [score turn]; try lia.
      intros Hm Hr. exists o. cbn [score turn]. repeat split; try assumption; lia.
    + (* no update, cutoff *)
      eexists _, _. split; [reflexivity|]. split; [exact Hq1|].
      pose proof (bestOf_ge_init (map X rest) (Z.max W (X o))).
      split; [unfold failSoft; lia|]. exact Hturn.
    + (* no update, no cutoff *)
      rewrite (readAbort_quiet n1) by exact Hq1.
      apply IH; try assumption; try lia.
Qed.

(** The loop without cutoffs searches every option: the exact best value. *)
Lemma searchOptions_exact (beta : Z) :
  AB_CUTOFF_ENABLED tg = false ->
  (forall st' a b n0, quiet n0 ->
     score (fst (recurse st' a b n0)) = negamaxValue env pl st' (depth + 1) /\
     quiet (snd (recurse st' a b n0))) ->
  forall options best alpha n,
    incl options all -> quiet n ->
    (MIN_SCORE env < score best -> turnJustified env pl depth all beta best) ->
    exists b n',
      searchOptions tg recurse options best alpha beta n = (Some b, n') /\ quiet n' /\
      score b = bestOf (map X options) (score best) /\
      (MIN_SCORE env < score b -> turnJustified env pl depth all beta b).
Proof.
  intros Hab Hrec. induction options as [|o rest IH]; intros best alpha n Hincl Hq Hturn.
  - exists best, n. split; [reflexivity|]. split; [exact Hq|].
    split; [reflexivity | exact Hturn].
  - cbn [searchOptions]. rewrite Hab. cbn [andb].
    destruct (Hrec (state o) (- beta) (- alpha) (countNode n) Hq) as [Hval Hq1].
    destruct (recurse (state o) (- beta) (- alpha) (countNode n)) as [c n1].
    cbn [fst snd] in Hval, Hq1. unfold negResult. cbn [score].
    assert (Hx : X o = - score c) by (unfold optionValue; lia).
    assert (Ho : In o all) by (apply Hincl; left; reflexivity).
    assert (Hincl' : incl rest all) by (intros o' Ho'; apply Hincl; right; exact Ho').
    cbn [map]. change (bestOf (X o :: map X rest) (score best))
      with (bestOf (map X rest) (Z.max (score best) (X o))).
    destruct (score best <? - score c) eqn:Hupd;
      [apply Z.ltb_lt in Hupd | apply Z.ltb_ge in Hupd].
    + rewrite (readAbort_quiet (countUpdate n1)) by exact Hq1.
      replace (Z.max (score best) (X o)) with (score (mkResult (- score c) (Some (optTurn o))))
        by (cbn [score]; lia).
      apply IH; try assumption.
      intros _. exists o. cbn [score turn]. repeat split; try assumption; lia.
    + rewrite (readAbort_quiet n1) by exact Hq1.
      replace (Z.max (score best) (X o)) with (score best) by lia.
      apply IH; assumption.
Qed.

End WithoutTable.

Section Toggles.

Context {TGameState : Type} `{GameStateOps TGameState}.
Variable env : Environment.
Hypothesis Hsort :
  forall l : list (@Option TGameState), Permutation (std_sort env Option Option_lt l) l.
Hypothesis Hbounds : - MAX_SCORE env <= MIN_SCORE env < MAX_SCORE env.
Hypothesis Hscore : forall st depth, - MAX_SCORE env <= getScore st depth <= MAX_SCORE env.

Variable tg : Toggles.
Hypothesis Htable : TRANSPOSITION_TABLES_ENABLED tg = false.

Lemma probeTable_off n st pl alpha beta :
  probeTable tg n st pl alpha beta = (inr (alpha, beta), n).
Proof. unfold probeTable. rewrite Htable. reflexivity. Qed.

Lemma storeResult_off n st pl b alpha beta : storeResult env tg n st pl b alpha beta = n.
Proof. unfold storeResult. rewrite Htable. reflexivity. Qed.

Lemma search_recurse_node pl st depth alpha beta n :
  quiet n -> isGameOver st = false ->
  search_recurse env tg (S pl) st depth alpha beta n =
  match searchOptions tg (fun st' a b n' => search_recurse env tg pl st' (depth + 1) a b n')
          (considerOptions env tg n st depth) (mkResult (MIN_SCORE env) None) alpha beta n with
  | (None, n') => (sentinel, n')
  | (Some b, n') => (b, n')
  end.
Proof.
  intros Hq Hgo. rewrite search_recurse_S, (readAbort_quiet n Hq). cbv iota.
  rewrite Hgo, probeTable_off.
  destruct (searchOptions _ _ _ _ _ _ _) as [[b|] n']; [|reflexivity].
  rewrite storeResult_off. reflexivity.
Qed.

Lemma search_recurse_leaf pl st depth alpha beta n :
  quiet n -> pl = 0%nat \/ isGameOver st = true ->
  search_recurse env tg pl st depth alpha beta n = (mkResult (getScore st depth) None, n).
Proof.
  intros Hq Hleaf. destruct pl as [|pl].
  - cbn [search_recurse]. rewrite (readAbort_quiet n Hq). reflexivity.
  - destruct Hleaf as [Hpl|Hgo]; [discriminate|].
    rewrite search_recurse_S, (readAbort_quiet n Hq). cbv iota. rewrite Hgo. reflexivity.
Qed.

Lemma negamaxValue_leaf pl st depth :
  pl = 0%nat \/ isGameOver st = true -> negamaxValue env pl st depth = getScore st depth.
Proof.
  intros Hleaf. destruct pl as [|pl]; [reflexivity|].
  destruct Hleaf as [Hpl|Hgo]; [discriminate|]. cbn [negamaxValue]. rewrite Hgo. reflexivity.
Qed.

Lemma fold_left_max_map {A : Type} (f : A -> Z) (l : list A) (a : Z) :
  fold_left (fun best t => Z.max best (f t)) l a = bestOf (map f l) a.
Proof.
  unfold bestOf. revert a. induction l as [|x l IH]; intros a; cbn; [reflexivity|]. apply IH.
Qed.

Lemma negamaxValue_node pl st depth :
  isGameOver st = false ->
  negamaxValue env (S pl) st depth
  = bestOf (map (turnValue (negamaxValue env pl) st depth) (getTurnList st)) (MIN_SCORE env).
Proof.
  intros Hgo. cbn [negamaxValue]. rewrite Hgo. apply fold_left_max_map.
Qed.

Lemma negamaxValue_bounds pl :
  forall st depth, - MAX_SCORE env <= negamaxValue env pl st depth <= MAX_SCORE env.
Proof.
  induction pl as [|pl IH]; intros st depth; [apply Hscore|].
  destruct (isGameOver st) eqn:Hgo.
  - rewrite negamaxValue_leaf by (right; exact Hgo). apply Hscore.
  - rewrite negamaxValue_node by exact Hgo. apply bestOf_bounds; [|lia].
    intros x Hx. apply in_map_iff in Hx. destruct Hx as (t & <- & _).
    unfold turnValue. specialize (IH (applyTurn st t) (depth + 1)%nat). lia.
Qed.

(** The options of a node are its turns, in some order. *)
Lemma considerOptions_perm n st depth :
  Permutation (considerOptions env tg n st depth)
    (map (fun t => mkOption (applyTurn st t) t
                     (estimateScoreFor env tg n (applyTurn st t) (depth + 1)))
         (getTurnList st)).
Proof.
  unfold considerOptions. destruct (MOVE_ORDERING_ENABLED tg); [apply Hsort | reflexivity].
Qed.

Lemma considerOptions_In pl n st depth o :
  In o (considerOptions env tg n st depth) ->
  In (optTurn o) (getTurnList st) /\
  optionValue env pl depth o = turnValue (negamaxValue env pl) st depth (optTurn o).
Proof.
  intros Ho. apply (Permutation_in _ (considerOptions_perm n st depth)) in Ho.
  apply in_map_iff in Ho. destruct Ho as (t & <- & Ht). split; [exact Ht | reflexivity].
Qed.

Lemma considerOptions_value pl n st depth :
  isGameOver st = false ->
  bestOf (map (optionValue env pl depth) (considerOptions env tg n st depth)) (MIN_SCORE env)
  = negamaxValue env (S pl) st depth.
Proof.
  intros Hgo. rewrite negamaxValue_node by exact Hgo.
  rewrite (bestOf_perm _ _ (Permutation_map _ (considerOptions_perm n st depth))).
  rewrite map_map. reflexivity.
Qed.

Lemma search_recurse_exact :
  AB_CUTOFF_ENABLED tg = false ->
  forall pl st depth alpha beta n,
    quiet n ->
    score (fst (search_recurse env tg pl st depth alpha beta n)) = negamaxValue env pl st depth /\
    quiet (snd (search_recurse env tg pl st depth alpha beta n)) /\
    (forall pl', pl = S pl' -> isGameOver st = false ->
       MIN_SCORE env < score (fst (search_recurse env tg pl st depth alpha beta n)) ->
       exists t, In t (getTurnList st) /\
         turn (fst (search_recurse env tg pl st depth alpha beta n)) = Some t /\
         score (fst (search_recurse env tg pl st depth alpha beta n))
           <= turnValue (negamaxValue env pl') st depth t).
Proof.
  intros Hab. induction pl as [|pl IH]; intros st depth alpha beta n Hq.
  - rewrite search_recurse_leaf by (auto). cbn [fst snd score].
    split; [reflexivity|]. split; [exact Hq|]. intros pl' [=].
  - destruct (isGameOver st) eqn:Hgo.
    + rewrite search_recurse_leaf, negamaxValue_leaf by (auto). cbn [fst snd score].
      split; [reflexivity|]. split; [exact Hq|]. intros pl' _ [=].
    + rewrite search_recurse_node by assumption.
      destruct (searchOptions_exact env tg pl depth
                  (fun st' a b n' => search_recurse env tg pl st' (depth + 1) a b n')
                  (considerOptions env tg n st depth) beta Hab) with
        (options := considerOptions env tg n st depth)
        (best := mkResult (MIN_SCORE env) None) (alpha := alpha) (n := n)
        as (b & n' & Heq & Hq' & Hval & Hturn).
      * intros st' a b' n0 Hq0. destruct (IH st' (depth + 1)%nat a b' n0 Hq0) as (? & ? & _).
        split; assumption.
      * apply incl_refl.
      * exact Hq.
      * cbn [score]. lia.
      * rewrite Heq. cbn [fst snd]. cbn [score] in Hval.
        rewrite considerOptions_value in Hval by exact Hgo.
        split; [exact Hval|]. split; [exact Hq'|].
        intros pl' [= <-] _ Hmin. destruct (Hturn Hmin) as (o & Ho & Ht & Hle & _).
        destruct (considerOptions_In pl n st depth o Ho) as [Hin Hx].
        exists (optTurn o). rewrite <- Hx. repeat split; assumption.
Qed.

Lemma search_recurse_failSoft :
  AB_CUTOFF_ENABLED tg = true ->
  forall pl st depth alpha beta n,
    quiet n -> alpha < beta ->
    failSoft alpha beta (score (fst (search_recurse env tg pl st depth alpha beta n)))
      (negamaxValue env pl st depth) /\
    quiet (snd (search_recurse env tg pl st depth alpha beta n)) /\
    (forall pl', pl = S pl' -> isGameOver st = false ->
       MIN_SCORE env < score (fst (search_recurse env tg pl st depth alpha beta n)) ->
       alpha < score (fst (search_recurse env tg pl st depth alpha beta n)) ->
       exists t, In t (getTurnList st) /\
         turn (fst (search_recurse env tg pl st depth alpha beta n)) = Some t /\
         score (fst (search_recurse env tg pl st depth alpha beta n))
           <= turnValue (negamaxValue env pl') st depth t).
Proof.
  intros Hab. induction pl as [|pl IH]; intros st depth alpha beta n Hq Hwin.
  - rewrite search_recurse_leaf by (auto). cbn [fst snd score negamaxValue].
    split; [unfold failSoft; lia|]. split; [exact Hq|]. intros pl' [=].
  - destruct (isGameOver st) eqn:Hgo.
    + rewrite search_recurse_leaf, negamaxValue_leaf by (auto). cbn [fst snd score].
      split; [unfold failSoft; lia|]. split; [exact Hq|]. intros pl' _ [=].
    + rewrite search_recurse_node by assumption.
      destruct (searchOptions_failSoft env tg pl depth
                  (fun st' a b n' => search_recurse env tg pl st' (depth + 1) a b n')
                  (considerOptions env tg n st depth) alpha beta Hab) with
        (options := considerOptions env tg n st depth)
        (best := mkResult (MIN_SCORE env) None) (alpha := alpha) (W := MIN_SCORE env) (n := n)
        as (b & n' & Heq & Hq' & Hfs & Hturn); cbn [score]; try lia; try assumption.
      * intros st' a b' n0 Hq0 Hab'.
        destruct (IH st' (depth + 1)%nat a b' n0 Hq0 Hab') as (? & ? & _). split; assumption.
      * apply incl_refl.
      * rewrite Heq. cbn [fst snd].
        rewrite considerOptions_value in Hfs by exact Hgo.
        split; [exact Hfs|]. split; [exact Hq'|].
        intros pl' [= <-] _ Hmin Halpha. destruct (Hturn Hmin Halpha) as (o & Ho & Ht & Hle & _).
        destruct (considerOptions_In pl n st depth o Ho) as [Hin Hx].
        exists (optTurn o). rewrite <- Hx. repeat split; assumption.
Qed.

(** The result of [search] without the table, whatever the other two
    toggles: the plain negamax value, and the one best turn if there is one. *)
Lemma search_without_table n st maxDepth :
  pendingAbort n = None ->
  score (fst (search env tg n st maxDepth)) = negamaxValue env maxDepth st 0 /\
  (forall pl t, maxDepth = S pl -> uniqueBestTurn env pl st t ->
     turn (fst (search env tg n st maxDepth)) = Some t).
Proof.
  intros Hp. unfold search.
  set (n0 := withCounters (withAbort n false) noCounters).
  assert (Hq : quiet n0) by (split; [reflexivity | exact Hp]).
  assert (Hbest : forall pl t, maxDepth = S pl -> uniqueBestTurn env pl st t ->
            negamaxValue env maxDepth st 0 = turnValue (negamaxValue env pl) st 0 t).
  { intros pl t -> (Hgo & Hin & Hmin & Huniq). rewrite negamaxValue_node by exact Hgo.
    apply bestOf_attained; [apply in_map; exact Hin | | lia].
    intros y Hy. apply in_map_iff in Hy. destruct Hy as (t' & <- & Hin').
    destruct (Z_lt_ge_dec (turnValue (negamaxValue env pl) st 0 t')
                          (turnValue (negamaxValue env pl) st 0 t)) as [Hlt|Hge]; [lia|].
    rewrite (Huniq t' Hin') by lia. lia. }
  assert (Hturns : forall r : NegamaxResult,
            score r = negamaxValue env maxDepth st 0 ->
            (forall pl', maxDepth = S pl' -> isGameOver st = false -> MIN_SCORE env < score r ->
               exists t, In t (getTurnList st) /\ turn r = Some t /\
                         score r <= turnValue (negamaxValue env pl') st 0 t) ->
            forall pl t, maxDepth = S pl -> uniqueBestTurn env pl st t -> turn r = Some t).
  { intros r Hr Hjust pl t Hd Hu. pose proof (Hbest pl t Hd Hu) as Hv.
    destruct Hu as (Hgo & Hin & Hmin & Huniq).
    destruct (Hjust pl Hd Hgo) as (t' & Hin' & Ht' & Hle); [lia|].
    rewrite Ht'. f_equal. apply Huniq; [exact Hin' | lia]. }
  destruct (AB_CUTOFF_ENABLED tg) eqn:Hab.
  - destruct (search_recurse_failSoft Hab maxDepth st 0%nat (MIN_SCORE env) (MAX_SCORE env) n0 Hq)
      as ((Hlow & Hhigh & Hmid) & _ & Hjust); [lia|].
    set (r := fst (search_recurse env tg maxDepth st 0 (MIN_SCORE env) (MAX_SCORE env) n0)) in *.
    assert (Hr : score r = negamaxValue env maxDepth st 0).
    { pose proof (negamaxValue_bounds maxDepth st 0%nat) as Hvb.
      destruct (Z_le_gt_dec (score r) (MIN_SCORE env)) as [Hle|Hgt].
      - assert (Hleaf : (maxDepth = 0%nat \/ isGameOver st = true) \/
                        (exists pl, maxDepth = S pl /\ isGameOver st = false)).
        { destruct maxDepth as [|pl]; [left; left; reflexivity|].
          destruct (isGameOver st); [left; right; reflexivity | right; eauto]. }
        destruct Hleaf as [Hleaf|(pl & -> & Hgo)].
        + subst r. rewrite search_recurse_leaf, negamaxValue_leaf by assumption. reflexivity.
        + pose proof (bestOf_ge_init
                        (map (turnValue (negamaxValue env pl) st 0) (getTurnList st))
                        (MIN_SCORE env)) as Hge.
          rewrite <- negamaxValue_node in Hge by exact Hgo. specialize (Hlow Hle). lia.
      - destruct (Z_lt_ge_dec (score r) (MAX_SCORE env)) as [Hlt|Hge]; [apply Hmid; lia|].
        specialize (Hhigh ltac:(lia)). lia. }
    split; [exact Hr|]. apply Hturns; [exact Hr|].
    intros pl' Hd Hgo Hmin. apply (Hjust pl' Hd Hgo Hmin Hmin).
  - destruct (search_recurse_exact Hab maxDepth st 0%nat (MIN_SCORE env) (MAX_SCORE env) n0 Hq)
      as (Hr & _ & Hjust).
    split; [exact Hr|]. apply Hturns; [exact Hr | exact Hjust].
Qed.

End Toggles.

(** *** The transposition table does not change the result *)

Section TableSound.

Context {TGameState : Type} `{GameStateOps TGameState}.
Variable env : Environment.
Hypothesis Hsort :
  forall l : list (@Option TGameState), Permutation (std_sort env Option Option_lt l) l.
Variable tg : Toggles.
Hypothesis Htable : TRANSPOSITION_TABLES_ENABLED tg = true.

Variable hv : list (Z * Z).
Hypothesis Hagree : transpositionsAgree hv.

Lemma transpositionsAgreeb_spec l : transpositionsAgreeb l = true -> transpositionsAgree l.
Proof.
  unfold transpositionsAgreeb, transpositionsAgree. intros Hb h v v' Hv Hv'.
  rewrite forallb_forall in Hb. specialize (Hb _ Hv). rewrite forallb_forall in Hb.
  specialize (Hb _ Hv'). cbn [fst snd] in Hb. rewrite Z.eqb_refl in Hb. cbn in Hb.
  apply Z.eqb_eq. exact Hb.
Qed.

(** [n'] is [n] with other counters. *)
Local Abbreviation sameTable n n' :=
  (m_transpositionTable n' = m_transpositionTable n /\ (quiet n -> quiet n')).

Lemma soundTable_same n n' :
  m_transpositionTable n' = m_transpositionTable n -> soundTable hv n -> soundTable hv n'.
Proof. unfold soundTable. intros ->. auto. Qed.

Lemma resultFor_exact alpha beta v : resultFor tg alpha beta v v.
Proof. unfold resultFor, failSoft. destruct (AB_CUTOFF_ENABLED tg); [lia | reflexivity]. Qed.

(** The probe with a sound entry: an early return is a result for the
    window, and a narrowed window keeps results and their classification
    sound. *)
Lemma probeTable_sound n st pl alpha beta v :
  (forall e, TT.lookup (m_transpositionTable n) (getHash st) = Some e ->
             soundBound v (TT.score e) (TT.boundType e)) ->
  (AB_CUTOFF_ENABLED tg = true -> alpha < beta) ->
  match probeTable tg n st pl alpha beta with
  | (inl r, n') =>
      sameTable n n' /\ resultFor tg alpha beta (score r) v /\
      TT.lookup (m_transpositionTable n) (getHash st) <> None
  | (inr (alpha', beta'), n') =>
      sameTable n n' /\
      (AB_CUTOFF_ENABLED tg = true -> alpha' < beta') /\
      (TT.lookup (m_transpositionTable n) (getHash st) = None -> alpha' = alpha /\ beta' = beta) /\
      (forall b, resultFor tg alpha' beta' b v ->
         resultFor tg alpha beta b v /\ soundBound v b (classifyBound b alpha beta'))
  end.
Proof.
  intros Hsound Hwin. unfold probeTable. rewrite Htable.
  assert (Hplain : forall b, resultFor tg alpha beta b v ->
            resultFor tg alpha beta b v /\ soundBound v b (classifyBound b alpha beta)).
  { intros b Hb. split; [exact Hb|]. unfold resultFor, failSoft in Hb.
    unfold classifyBound, soundBound.
    destruct (AB_CUTOFF_ENABLED tg);
      destruct (Z.leb_spec b alpha); try lia; destruct (Z.leb_spec beta b); lia. }
  destruct (TT.lookup (m_transpositionTable n) (getHash st)) as [e|] eqn:Hlook.
  2: { cbv beta iota. split; [split; [reflexivity | auto]|]. split; [exact Hwin|].
       split; [auto | exact Hplain]. }
  specialize (Hsound e eq_refl).
  destruct (pl <=? TT.depth e)%nat.
  2: { cbv beta iota. split; [split; [reflexivity | auto]|]. split; [exact Hwin|].
       split; [discriminate | exact Hplain]. }
  unfold TT.isExactBound, TT.isLowerBound, TT.isUpperBound.
  unfold soundBound in Hsound. destruct (TT.boundType e) eqn:Hbt; cbv beta iota.
  - (* exact *)
    cbn [score]. split; [split; [reflexivity | auto]|]. split; [|discriminate].
    rewrite Hsound. apply resultFor_exact.
  - (* lower bound *)
    destruct (AB_CUTOFF_ENABLED tg) eqn:Hab; cbn [andb].
    + specialize (Hwin eq_refl).
      destruct (Z.leb_spec beta (Z.max alpha (TT.score e))) as [Hcut|Hcut]; cbv beta iota.
      * cbn [score]. split; [split; [reflexivity | auto]|]. split; [|discriminate].
        unfold resultFor, failSoft. rewrite Hab. lia.
      * split; [split; [reflexivity | auto]|]. split; [intros _; lia|].
        split; [discriminate|]. intros b. unfold resultFor, failSoft. rewrite Hab.
        intros Hb. unfold classifyBound, soundBound.
        destruct (Z.leb_spec b alpha); [split; lia|].
        destruct (Z.leb_spec beta b); split; lia.
    + split; [split; [reflexivity | auto]|]. split; [discriminate|].
      split; [discriminate|]. intros b. unfold resultFor. rewrite Hab. intros ->.
      split; [reflexivity|]. unfold classifyBound, soundBound.
      destruct (Z.leb_spec v alpha); [lia|]. destruct (Z.leb_spec beta v); lia.
  - (* upper bound *)
    destruct (AB_CUTOFF_ENABLED tg) eqn:Hab; cbn [andb].
    + specialize (Hwin eq_refl).
      destruct (Z.leb_spec (Z.min beta (TT.score e)) alpha) as [Hcut|Hcut]; cbv beta iota.
      * cbn [score]. split; [split; [reflexivity | auto]|]. split; [|discriminate].
        unfold resultFor, failSoft. rewrite Hab. lia.
      * split; [split; [reflexivity | auto]|]. split; [intros _; lia|].
        split; [discriminate|]. intros b. unfold resultFor, failSoft. rewrite Hab.
        intros Hb. unfold classifyBound, soundBound.
        destruct (Z.leb_spec b alpha); [split; lia|].
        destruct (Z.leb_spec (Z.min beta (TT.score e)) b); split; lia.
    + split; [split; [reflexivity | auto]|]. split; [discriminate|].
      split; [discriminate|]. intros b. unfold resultFor. rewrite Hab. intros ->.
      split; [reflexivity|]. unfold classifyBound, soundBound.
      destruct (Z.leb_spec v alpha); [lia|].
      destruct (Z.leb_spec (Z.min beta (TT.score e)) v); lia.
Qed.

(** Storing a sound entry keeps the table sound. *)
Lemma storeResult_sound n st pl b alpha beta v :
  In (getHash st, v) hv ->
  soundBound v (score b) (classifyBound (score b) alpha beta) ->
  soundTable hv n -> soundTable hv (storeResult env tg n st pl b alpha beta).
Proof.
  intros Hin Hb Hs h v' e Hv'. unfold storeResult. rewrite Htable.
  cbn [m_transpositionTable withTable].
  set (new := TT.mkEntry (getHash st) (score b) (derefTurn env (turn b)) pl
                (classifyBound (score b) alpha beta)).
  destruct (Z.eq_dec h (getHash st)) as [->|Hne].
  - pose proof (lookup_maybeUpdate (m_transpositionTable n) new) as Hl.
    change (TT.hash new) with (getHash st) in Hl. rewrite Hl. intros [= <-].
    cbn [TT.score TT.boundType]. rewrite (Hagree _ _ _ Hv' Hin). exact Hb.
  - subst new. unfold TT.lookup, TT.maybeUpdate. cbn [TT.slots TT.getTableSize TT.hash].
    destruct (Z.eq_dec (getHash st mod TT.getTableSize (m_transpositionTable n))
                       (h mod TT.getTableSize (m_transpositionTable n))) as [Heq|Hneq].
    + rewrite Heq, lookup_insert_eq. cbn [TT.hash].
      destruct (Z.eqb_spec (getHash st) h); [congruence | intros [=]].
    + rewrite lookup_insert_ne by exact Hneq. intros Hl. apply (Hs h v' e Hv').
      unfold TT.lookup. exact Hl.
Qed.

Variables (pl depth : nat).
Variable recurse : TGameState -> Z -> Z -> Negamax -> NegamaxResult * Negamax.
Variable all : list (@Option TGameState).

Local Abbreviation X := (optionValue env pl depth).

Hypothesis Hrec :
  forall o a b n0, In o all -> quiet n0 -> soundTable hv n0 ->
    (AB_CUTOFF_ENABLED tg = true -> a < b) ->
    resultFor tg a b (score (fst (recurse (state o) a b n0)))
      (negamaxValue env pl (state o) (depth + 1)) /\
    quiet (snd (recurse (state o) a b n0)) /\ soundTable hv (snd (recurse (state o) a b n0)).

(** The loop with cutoffs, over a sound table. *)
Lemma searchOptions_failSoft_table (alpha0 beta : Z) :
  AB_CUTOFF_ENABLED tg = true ->
  forall options best alpha W n,
    incl options all -> quiet n -> soundTable hv n -> alpha < beta -> alpha0 <= alpha ->
    alpha <= Z.max alpha0 (score best) ->
    W <= score best ->
    (alpha0 < score best -> score best = W) ->
    (MIN_SCORE env < score best -> alpha0 < score best ->
     turnJustified env pl depth all beta best) ->
    exists b n',
      searchOptions tg recurse options best alpha beta n = (Some b, n') /\
      quiet n' /\ soundTable hv n' /\
      failSoft alpha0 beta (score b) (bestOf (map X options) W) /\
      (MIN_SCORE env < score b -> alpha0 < score b -> turnJustified env pl depth all beta b).
Proof.
  intros Hab. induction options as [|o rest IH];
    intros best alpha W n Hincl Hq Hs Hwin Ha0 Ha Hw Hexact Hturn.
  - exists best, n. split; [reflexivity|]. split; [exact Hq|]. split; [exact Hs|].
    split; [unfold failSoft, bestOf; cbn [map fold_left]; lia | exact Hturn].
  - cbn [searchOptions]. rewrite Hab. cbn [andb].
    assert (Ho : In o all) by (apply Hincl; left; reflexivity).
    destruct (Hrec o (- beta) (- alpha) (countNode n) Ho Hq Hs ltac:(intros _; lia))
      as (Hfs & Hq1 & Hs1).
    unfold resultFor in Hfs. rewrite Hab in Hfs.
    destruct (recurse (state o) (- beta) (- alpha) (countNode n)) as [c n1].
    cbn [fst snd] in Hfs, Hq1, Hs1. unfold negResult. cbn [score].
    assert (Hx : X o = - negamaxValue env pl (state o) (depth + 1)) by reflexivity.
    destruct Hfs as (Hlow & Hhigh & Hmid).
    assert (Hincl' : incl rest all) by (intros o' Ho'; apply Hincl; right; exact Ho').
    cbn [map]. change (bestOf (X o :: map X rest) W) with (bestOf (map X rest) (Z.max W (X o))).
    destruct (score best <? - score c) eqn:Hupd;
      [apply Z.ltb_lt in Hupd | apply Z.ltb_ge in Hupd];
      destruct (beta <=? Z.max alpha (- score c)) eqn:Hcut;
      try (apply Z.leb_le in Hcut); try (apply Z.leb_gt in Hcut).
    + (* update and cutoff *)
      eexists _, _. split; [reflexivity|]. split; [exact Hq1|]. split; [exact Hs1|].
      cbn [score turn].
      pose proof (bestOf_ge_init (map X rest) (Z.max W (X o))).
      split; [unfold failSoft; lia|].
      intros _ _. exists o. cbn [score turn]. repeat split; try assumption; lia.
    + (* update, no cutoff *)
      rewrite (readAbort_quiet (countUpdate n1)) by exact Hq1.
      apply IH; try assumption; cbn [score turn]; try lia.
      intros Hm Hr. exists o. cbn [score turn]. repeat split; try assumption; lia.
    + (* no update, cutoff *)
      eexists _, _. split; [reflexivity|]. split; [exact Hq1|]. split; [exact Hs1|].
      pose proof (bestOf_ge_init (map X rest) (Z.max W (X o))).
      split; [unfold failSoft; lia|]. exact Hturn.
    + (* no update, no cutoff *)
      rewrite (readAbort_quiet n1) by exact Hq1.
      apply IH; try assumption; try lia.
Qed.

(** The loop without cutoffs, over a sound table. *)
Lemma searchOptions_exact_table (beta : Z) :
  AB_CUTOFF_ENABLED tg = false ->
  forall options best alpha n,
    incl options all -> quiet n -> soundTable hv n ->
    (MIN_SCORE env < score best -> turnJustified env pl depth all beta best) ->
    exists b n',
      searchOptions tg recurse options best alpha beta n = (Some b, n') /\
      quiet n' /\ soundTable hv n' /\
      score b = bestOf (map X options) (score best) /\
      (MIN_SCORE env < score b -> turnJustified env pl depth all beta b).
Proof.
  intros Hab. induction options as [|o rest IH]; intros best alpha n Hincl Hq Hs Hturn.
  - exists best, n. split; [reflexivity|]. split; [exact Hq|]. split; [exact Hs|].
    split; [reflexivity | exact Hturn].
  - cbn [searchOptions]. rewrite Hab. cbn [andb].
    assert (Ho : In o all) by (apply Hincl; left; reflexivity).
    destruct (Hrec o (- beta) (- alpha) (countNode n) Ho Hq Hs ltac:(congruence))
      as (Hval & Hq1 & Hs1).
    unfold resultFor in Hval. rewrite Hab in Hval.
    destruct (recurse (state o) (- beta) (- alpha) (countNode n)) as [c n1].
    cbn [fst snd] in Hval, Hq1, Hs1. unfold negResult. cbn [score].
    assert (Hx : X o = - score c) by (unfold optionValue; lia).
    assert (Hincl' : incl rest all) by (intros o' Ho'; apply Hincl; right; exact Ho').
    cbn [map]. change (bestOf (X o :: map X rest) (score best))
      with (bestOf (map X rest) (Z.max (score best) (X o))).
    destruct (score best <? - score c) eqn:Hupd;
      [apply Z.ltb_lt in Hupd | apply Z.ltb_ge in Hupd].
    + rewrite (readAbort_quiet (countUpdate n1)) by exact Hq1.
      replace (Z.max (score best) (X o)) with (score (mkResult (- score c) (Some (optTurn o))))
        by (cbn [score]; lia).
      apply IH; try assumption.
      intros _. exists o. cbn [score turn]. repeat split; try assumption; lia.
    + rewrite (readAbort_quiet n1) by exact Hq1.
      replace (Z.max (score best) (X o)) with (score best) by lia.
      apply IH; assumption.
Qed.

End TableSound.

Section TableResult.

Context {TGameState : Type} `{GameStateOps TGameState}.
Variable env : Environment.
Hypothesis Hsort :
  forall l : list (@Option TGameState), Permutation (std_sort env Option Option_lt l) l.
Variable tg : Toggles.
Hypothesis Htable : TRANSPOSITION_TABLES_ENABLED tg = true.

Variable hv : list (Z * Z).
Hypothesis Hagree : transpositionsAgree hv.

Lemma nodeValues_node pl st depth :
  isGameOver st = false ->
  nodeValues env (S pl) st depth
  = (getHash st, negamaxValue env (S pl) st depth) ::
    flat_map (fun t => nodeValues env pl (applyTurn st t) (depth + 1)) (getTurnList st).
Proof. intros Hgo. cbn [nodeValues]. rewrite Hgo. reflexivity. Qed.

Lemma nodeValues_option pl n st depth o :
  isGameOver st = false ->
  incl (nodeValues env (S pl) st depth) hv ->
  In o (considerOptions env tg n st depth) ->
  incl (nodeValues env pl (state o) (depth + 1)) hv.
Proof.
  intros Hgo Hincl Ho. rewrite nodeValues_node in Hincl by exact Hgo.
  apply (Permutation_in _ (considerOptions_perm env Hsort tg n st depth)) in Ho.
  apply in_map_iff in Ho. destruct Ho as (t & <- & Ht). cbn [state].
  intros p Hp. apply Hincl. right. apply in_flat_map. exists t. split; assumption.
Qed.

(** With a sound table and agreeing transpositions, [search_recurse] returns
    a result for its window and leaves a sound table; below a position
    without entry the turn it returns is justified. *)
Lemma search_recurse_sound :
  forall pl st depth alpha beta n,
    quiet n -> soundTable hv n -> incl (nodeValues env pl st depth) hv ->
    (AB_CUTOFF_ENABLED tg = true -> alpha < beta) ->
    resultFor tg alpha beta (score (fst (search_recurse env tg pl st depth alpha beta n)))
      (negamaxValue env pl st depth) /\
    quiet (snd (search_recurse env tg pl st depth alpha beta n)) /\
    soundTable hv (snd (search_recurse env tg pl st depth alpha beta n)) /\
    (forall pl', pl = S pl' -> isGameOver st = false ->
       TT.lookup (m_transpositionTable n) (getHash st) = None ->
       MIN_SCORE env < score (fst (search_recurse env tg pl st depth alpha beta n)) ->
       alpha < score (fst (search_recurse env tg pl st depth alpha beta n)) ->
       exists t, In t (getTurnList st) /\
         turn (fst (search_recurse env tg pl st depth alpha beta n)) = Some t /\
         score (fst (search_recurse env tg pl st depth alpha beta n))
           <= turnValue (negamaxValue env pl') st depth t).
Proof.
  induction pl as [|pl IH]; intros st depth alpha beta n Hq Hs Hincl Hwin.
  - rewrite search_recurse_leaf by (auto). cbn [fst snd score negamaxValue].
    split; [apply resultFor_exact|]. split; [exact Hq|]. split; [exact Hs|]. intros pl' [=].
  - destruct (isGameOver st) eqn:Hgo.
    + rewrite search_recurse_leaf, negamaxValue_leaf by (auto). cbn [fst snd score].
      split; [apply resultFor_exact|]. split; [exact Hq|]. split; [exact Hs|].
      intros pl' _ [=].
    + set (v := negamaxValue env (S pl) st depth).
      assert (Hv : In (getHash st, v) hv).
      { apply Hincl. rewrite nodeValues_node by exact Hgo. left. reflexivity. }
      rewrite search_recurse_S, (readAbort_quiet n Hq). cbv iota. rewrite Hgo.
      pose proof (probeTable_sound tg Htable n st (S pl) alpha beta v
                    (fun e He => Hs _ _ e Hv He) Hwin) as Hprobe.
      destruct (probeTable tg n st (S pl) alpha beta) as [[r|[alpha' beta']] n1].
      * destruct Hprobe as ((Htbl & Hq1) & Hres & Hhit). cbn [fst snd].
        split; [exact Hres|]. split; [exact (Hq1 Hq)|].
        split; [exact (soundTable_same hv n n1 Htbl Hs)|].
        intros pl' _ _ Hmiss. contradiction.
      * destruct Hprobe as ((Htbl & Hq1) & Hwin' & Hmiss & Hback).
        specialize (Hq1 Hq). pose proof (soundTable_same hv n n1 Htbl Hs) as Hs1.
        assert (Hrec : forall o a b n0,
                  In o (considerOptions env tg n1 st depth) -> quiet n0 -> soundTable hv n0 ->
                  (AB_CUTOFF_ENABLED tg = true -> a < b) ->
                  resultFor tg a b (score (fst (search_recurse env tg pl (state o) (depth + 1) a b n0)))
                    (negamaxValue env pl (state o) (depth + 1)) /\
                  quiet (snd (search_recurse env tg pl (state o) (depth + 1) a b n0)) /\
                  soundTable hv (snd (search_recurse env tg pl (state o) (depth + 1) a b n0))).
        { intros o a b n0 Ho Hq0 Hs0 Hab0.
          destruct (IH (state o) (depth + 1)%nat a b n0 Hq0 Hs0
                      (nodeValues_option pl n1 st depth o Hgo Hincl Ho) Hab0)
            as (Hr0 & Hq0' & Hs0' & _).
          split; [exact Hr0 | split; [exact Hq0' | exact Hs0']]. }
        assert (Hfin : forall b n2,
                  quiet n2 -> soundTable hv n2 ->
                  resultFor tg alpha' beta' (score b) v ->
                  (MIN_SCORE env < score b -> alpha' < score b ->
                   turnJustified env pl depth (considerOptions env tg n1 st depth) beta' b) ->
                  resultFor tg alpha beta (score b) v /\
                  quiet (storeResult env tg n2 st (S pl) b alpha beta') /\
                  soundTable hv (storeResult env tg n2 st (S pl) b alpha beta') /\
                  (forall pl', S pl = S pl' -> false = false ->
                     TT.lookup (m_transpositionTable n) (getHash st) = None ->
                     MIN_SCORE env < score b -> alpha < score b ->
                     exists t, In t (getTurnList st) /\ turn b = Some t /\
                               score b <= turnValue (negamaxValue env pl') st depth t)).
        { intros b n2 Hq2 Hs2 Hres Hturn. destruct (Hback _ Hres) as [Hres' Hbound].
          split; [exact Hres'|]. split; [apply quiet_storeResult; exact Hq2|].
          split; [apply (storeResult_sound env tg Htable hv Hagree n2 st (S pl) b alpha beta' v
                           Hv Hbound Hs2)|].
          intros pl' [= <-] _ Hnone Hmin Halpha. destruct (Hmiss Hnone) as [-> ->].
          destruct (Hturn Hmin Halpha) as (o & Ho & Ht & Hle & _).
          destruct (considerOptions_In env Hsort tg pl n1 st depth o Ho) as [Hin Hx].
          exists (optTurn o). rewrite <- Hx. repeat split; assumption. }
        destruct (AB_CUTOFF_ENABLED tg) eqn:Hab.
        -- destruct (searchOptions_failSoft_table env tg hv pl depth
                       (fun st' a b n' => search_recurse env tg pl st' (depth + 1) a b n')
                       (considerOptions env tg n1 st depth)) with
             (alpha0 := alpha') (beta := beta')
             (options := considerOptions env tg n1 st depth)
             (best := mkResult (MIN_SCORE env) None) (alpha := alpha') (W := MIN_SCORE env)
             (n := n1)
             as (b & n2 & Heq & Hq2 & Hs2 & Hfs & Hturn); cbn [score]; try lia;
             try assumption.
           ++ intros o a b n0 Ho Hq0 Hs0 Hab0. apply Hrec; try assumption.
              intros Ht. apply Hab0. congruence.
           ++ apply incl_refl.
           ++ rewrite Heq. cbn [fst snd].
              rewrite considerOptions_value in Hfs by assumption.
              apply Hfin; try assumption. unfold resultFor. rewrite Hab. exact Hfs.
        -- destruct (searchOptions_exact_table env tg hv pl depth
                       (fun st' a b n' => search_recurse env tg pl st' (depth + 1) a b n')
                       (considerOptions env tg n1 st depth)) with
             (beta := beta')
             (options := considerOptions env tg n1 st depth)
             (best := mkResult (MIN_SCORE env) None) (alpha := alpha') (n := n1)
             as (b & n2 & Heq & Hq2 & Hs2 & Hval & Hturn); cbn [score]; try lia;
             try assumption.
           ++ intros o a b n0 Ho Hq0 Hs0 Hab0. apply Hrec; try assumption.
              intros Ht. apply Hab0. congruence.
           ++ apply incl_refl.
           ++ rewrite Heq. cbn [fst snd]. cbn [score] in Hval.
              rewrite considerOptions_value in Hval by assumption.
              apply Hfin; try assumption.
              ** unfold resultFor. rewrite Hab. exact Hval.
              ** intros Hmin _. apply Hturn. exact Hmin.
Qed.

End TableResult.

Section AnyToggles.

Context {TGameState : Type} `{GameStateOps TGameState}.
Variable env : Environment.
Hypothesis Hsort :
  forall l : list (@Option TGameState), Permutation (std_sort env Option Option_lt l) l.
Hypothesis Hbounds : - MAX_SCORE env <= MIN_SCORE env < MAX_SCORE env.
Hypothesis Hscore : forall st depth, - MAX_SCORE env <= getScore st depth <= MAX_SCORE env.

(** The result of [search] with the table, whatever the other two toggles. *)
Lemma search_with_table tg n st maxDepth :
  TRANSPOSITION_TABLES_ENABLED tg = true ->
  pendingAbort n = None ->
  transpositionsAgree (nodeValues env maxDepth st 0) ->
  noEntries n (map fst (nodeValues env maxDepth st 0)) ->
  score (fst (search env tg n st maxDepth)) = negamaxValue env maxDepth st 0 /\
  (forall pl t, maxDepth = S pl -> uniqueBestTurn env pl st t ->
     turn (fst (search env tg n st maxDepth)) = Some t).
Proof.
  intros Htable Hp Hagree Hno. unfold search.
  set (n0 := withCounters (withAbort n false) noCounters).
  set (hv := nodeValues env maxDepth st 0) in *.
  assert (Hq : quiet n0) by (split; [reflexivity | exact Hp]).
  assert (Hs : soundTable hv n0).
  { intros h v e Hin Hl. change (m_transpositionTable n0) with (m_transpositionTable n) in Hl.
    rewrite (Hno h) in Hl; [discriminate|]. apply in_map_iff. exists (h, v). split; [reflexivity | exact Hin]. }
  destruct (search_recurse_sound env Hsort tg Htable hv Hagree maxDepth st 0%nat
              (MIN_SCORE env) (MAX_SCORE env) n0 Hq Hs (incl_refl _) ltac:(intros _; lia))
    as (Hres & _ & _ & Hjust).
  set (r := fst (search_recurse env tg maxDepth st 0 (MIN_SCORE env) (MAX_SCORE env) n0)) in *.
  assert (Hleaf : (maxDepth = 0%nat \/ isGameOver st = true) \/
                  (exists pl, maxDepth = S pl /\ isGameOver st = false)).
  { destruct maxDepth as [|pl]; [left; left; reflexivity|].
    destruct (isGameOver st); [left; right; reflexivity | right; eauto]. }
  assert (Hr : score r = negamaxValue env maxDepth st 0).
  { destruct Hleaf as [Hleaf|(pl & Hd & Hgo)].
    - subst r. rewrite search_recurse_leaf, negamaxValue_leaf by assumption. reflexivity.
    - unfold resultFor in Hres. destruct (AB_CUTOFF_ENABLED tg); [|exact Hres].
      destruct Hres as (Hlow & Hhigh & Hmid).
      pose proof (negamaxValue_bounds env Hbounds Hscore maxDepth st 0%nat) as Hvb.
      pose proof (bestOf_ge_init
                    (map (turnValue (negamaxValue env pl) st 0) (getTurnList st))
                    (MIN_SCORE env)) as Hge.
      rewrite <- negamaxValue_node in Hge by exact Hgo. rewrite <- Hd in Hge.
      destruct (Z_le_gt_dec (score r) (MIN_SCORE env)) as [Hle|Hgt];
        [specialize (Hlow Hle); lia|].
      destruct (Z_lt_ge_dec (score r) (MAX_SCORE env)) as [Hlt|Hge'];
        [apply Hmid; lia|].
      specialize (Hhigh ltac:(lia)). lia. }
  split; [exact Hr|].
  intros pl t Hd (Hgo & Hin & Hmin & Huniq).
  assert (Hv : negamaxValue env maxDepth st 0 = turnValue (negamaxValue env pl) st 0 t).
  { rewrite Hd, negamaxValue_node by exact Hgo.
    apply bestOf_attained; [apply in_map; exact Hin | | lia].
    intros y Hy. apply in_map_iff in Hy. destruct Hy as (t' & <- & Hin').
    destruct (Z_lt_ge_dec (turnValue (negamaxValue env pl) st 0 t')
                          (turnValue (negamaxValue env pl) st 0 t)) as [Hlt|Hge]; [lia|].
    rewrite (Huniq t' Hin') by lia. lia. }
  destruct (Hjust pl Hd Hgo) as (t' & Hin' & Ht' & Hle); try lia.
  - apply (Hno (getHash st)). apply in_map_iff.
    exists (getHash st, negamaxValue env maxDepth st 0). split; [reflexivity|].
    subst hv. rewrite Hd, nodeValues_node by exact Hgo. left. reflexivity.
  - rewrite Ht'. f_equal. apply Huniq; [exact Hin' | lia].
Qed.

Lemma search_any_toggles tg n st maxDepth :
  pendingAbort n = None ->
  (TRANSPOSITION_TABLES_ENABLED tg = true ->
   transpositionsAgree (nodeValues env maxDepth st 0) /\
   noEntries n (map fst (nodeValues env maxDepth st 0))) ->
  score (fst (search env tg n st maxDepth)) = negamaxValue env maxDepth st 0 /\
  (forall pl t, maxDepth = S pl -> uniqueBestTurn env pl st t ->
     turn (fst (search env tg n st maxDepth)) = Some t).
Proof.
  intros Hp Hfresh. destruct (TRANSPOSITION_TABLES_ENABLED tg) eqn:Htable.
  - destruct (Hfresh eq_refl) as [Hag Hno].
    apply (search_with_table tg n st maxDepth Htable Hp Hag Hno).
  - apply (search_without_table env Hsort Hbounds Hscore tg Htable n st maxDepth Hp).
Qed.

End AnyToggles.

(** C3 (as amended). With scores within [-MAX_SCORE, MAX_SCORE],
    [-MAX_SCORE <= MIN_SCORE < MAX_SCORE], a [std::sort] that permutes its
    input and no abort, the score returned by [search] is the plain negamax
    value for every setting of the three toggles, hence the same for all
    eight, provided each run with the transposition table enabled starts
    from a table without entries for the positions it searches, and
    positions of the searched tree that have the same hash have the same
    negamax value for their remaining plies (as a position reached along
    several paths with the same number of plies left has); and when the
    position has one best turn, every run returns that turn. *)
Theorem search_result_independent_of_toggles
    {TGameState : Type} `{GameStateOps TGameState} (env : Environment)
    (tg tg' : Toggles) (n n' : Negamax) (st : TGameState) (maxDepth : nat) :
  (forall l : list (@Option TGameState), Permutation (std_sort env Option Option_lt l) l) ->
  - MAX_SCORE env <= MIN_SCORE env < MAX_SCORE env ->
  (forall st depth, - MAX_SCORE env <= getScore st depth <= MAX_SCORE env) ->
  pendingAbort n = None -> pendingAbort n' = None ->
  (TRANSPOSITION_TABLES_ENABLED tg = true ->
   transpositionsAgree (nodeValues env maxDepth st 0) /\
   noEntries n (map fst (nodeValues env maxDepth st 0))) ->
  (TRANSPOSITION_TABLES_ENABLED tg' = true ->
   transpositionsAgree (nodeValues env maxDepth st 0) /\
   noEntries n' (map fst (nodeValues env maxDepth st 0))) ->
  score (fst (search env tg n st maxDepth)) = negamaxValue env maxDepth st 0 /\
  score (fst (search env tg n st maxDepth)) = score (fst (search env tg' n' st maxDepth)) /\
  (forall pl t, maxDepth = S pl -> uniqueBestTurn env pl st t ->
     turn (fst (search env tg n st maxDepth)) = Some t /\
     turn (fst (search env tg' n' st maxDepth)) = Some t).
Proof.
  intros Hsort Hbounds Hscore Hn Hn' Hfresh Hfresh'.
  destruct (search_any_toggles env Hsort Hbounds Hscore tg n st maxDepth Hn Hfresh) as [Hs Ht].
  destruct (search_any_toggles env Hsort Hbounds Hscore tg' n' st maxDepth Hn' Hfresh')
    as [Hs' Ht'].
  split; [exact Hs|]. split; [congruence|].
  intros pl t Hd Hu. split; [apply (Ht pl t Hd Hu) | apply (Ht' pl t Hd Hu)].
Qed.

(** *** Concrete runs *)

Lemma insertSorted_perm {A : Type} (lt : A -> A -> bool) (x : A) (l : list A) :
  Permutation (insertSorted lt x l) (x :: l).
Proof.
  induction l as [|y l IH]; cbn; [reflexivity|].
  destruct (lt y x); [|reflexivity].
  rewrite IH. apply perm_swap.
Qed.

Lemma insertionSort_perm (A : Type) (lt : A -> A -> bool) (l : list A) :
  Permutation (insertionSort A lt l) l.
Proof.
  unfold insertionSort. induction l as [|x l IH]; cbn; [reflexivity|].
  rewrite insertSorted_perm, IH. reflexivity.
Qed.

Lemma mockEnv_bounds : - MAX_SCORE mockEnv <= MIN_SCORE mockEnv < MAX_SCORE mockEnv.
Proof. cbn. lia. Qed.

Lemma diamondGame_scores (st : Z) (depth : nat) :
  - MAX_SCORE mockEnv <= getScore (GameStateOps := mockOps diamondGame) st depth
    <= MAX_SCORE mockEnv.
Proof.
  cbn. repeat match goal with |- context [match ?x with _ => _ end] => destruct x end; lia.
Qed.

Lemma diamondGame_best :
  uniqueBestTurn (H := mockOps diamondGame) mockEnv 2 0 (mockTurn 0 2).
Proof.
  split; [reflexivity|]. split; [right; left; reflexivity|]. split; [vm_compute; reflexivity|].
  intros t' [<-|[<-|[]]] Hle; [|reflexivity]. exfalso. vm_compute in Hle. apply Hle. reflexivity.
Qed.

(** Node 3 occurs twice in the tree of the diamond game, both times with
    the same value. *)
Lemma diamondGame_fresh :
  In (3, -2) (nodeValues (H := mockOps diamondGame) mockEnv 3 0 0) /\
  transpositionsAgree (nodeValues (H := mockOps diamondGame) mockEnv 3 0 0) /\
  noEntries (newNegamax tableSize) (map fst (nodeValues (H := mockOps diamondGame) mockEnv 3 0 0)).
Proof.
  split; [vm_compute; auto 10|]. split.
  - apply transpositionsAgreeb_spec. vm_compute. reflexivity.
  - intros h _. unfold TT.lookup. cbn [m_transpositionTable newNegamax TT.emptyTable TT.slots].
    rewrite lookup_empty. reflexivity.
Qed.

(** In the transposition game node 1 has the value 1 two plies from the
    horizon and -5 one ply from it. *)
Lemma transpositionGame_disagrees :
  ~ transpositionsAgree (nodeValues (H := mockOps transpositionGame) mockEnv 3 0 0).
Proof.
  intros Hag. assert (Heq : 1 = -5); [|discriminate].
  apply (Hag 1); vm_compute; auto 10.
Qed.

(** On the diamond game, where node 3 is met twice with one ply left, the
    search with all three toggles on and the plain search agree on score and
    turn, and the run with the table takes its entry for node 3 from the
    table once. *)
Lemma search_result_independent_of_toggles_witness :
  score (fst (search (H := mockOps diamondGame) mockEnv allOn
                (newNegamax tableSize) 0 3%nat))
    = negamaxValue (H := mockOps diamondGame) mockEnv 3 0 0 /\
  score (fst (search (H := mockOps diamondGame) mockEnv allOn
                (newNegamax tableSize) 0 3%nat))
    = score (fst (search (H := mockOps diamondGame) mockEnv plain
                    (newNegamax tableSize) 0 3%nat)) /\
  turn (fst (search (H := mockOps diamondGame) mockEnv allOn
               (newNegamax tableSize) 0 3%nat)) = Some (mockTurn 0 2) /\
  turn (fst (search (H := mockOps diamondGame) mockEnv plain
               (newNegamax tableSize) 0 3%nat)) = Some (mockTurn 0 2) /\
  transpositionTableHits
    (m_counters (snd (search (H := mockOps diamondGame) mockEnv allOn
                        (newNegamax tableSize) 0 3%nat))) = 1.
Proof.
  destruct (search_result_independent_of_toggles (H := mockOps diamondGame) mockEnv
              allOn plain (newNegamax tableSize) (newNegamax tableSize)
              0 3%nat) as (Hv & Hs & Ht).
  - intros l. apply insertionSort_perm.
  - exact mockEnv_bounds.
  - exact diamondGame_scores.
  - reflexivity.
  - reflexivity.
  - intros _. exact (proj2 diamondGame_fresh).
  - intros [=].
  - split; [exact Hv|]. split; [exact Hs|].
    destruct (Ht 2%nat (mockTurn 0 2) eq_refl diamondGame_best) as [Ht1 Ht2].
    split; [exact Ht1|]. split; [exact Ht2|]. vm_compute. reflexivity.
Defined.

(** C3, counterexample.  The transposition game searched three plies deep
    from node 0, each run on a fresh table and without abort: with all three
    toggles off the score is -1, with only the transposition table on it is
    1, because node 1 is stored two plies from the horizon and reused one ply
    from it. *)
Lemma toggles_change_score_counterexample :
  score (fst (search (H := mockOps transpositionGame) mockEnv plain
                (newNegamax tableSize) 0 3%nat)) = -1 /\
  score (fst (search (H := mockOps transpositionGame) mockEnv tableOnly
                (newNegamax tableSize) 0 3%nat)) = 1 /\
  score (fst (search (H := mockOps transpositionGame) mockEnv plain
                (newNegamax tableSize) 0 3%nat))
  <> score (fst (search (H := mockOps transpositionGame) mockEnv tableOnly
                   (newNegamax tableSize) 0 3%nat)).
Proof. vm_compute. repeat split; discriminate. Qed.

(** C5, counterexample.  After the first search on the refutation game the
    table holds an upper-bound entry with score -3 for node 3, and the
    estimate for node 3 is [- MIN_SCORE = 1000000], not 3. *)
Lemma estimateScoreFor_upper_bound_counterexample :
  TT.lookup (m_transpositionTable afterFirstSearch) (getHash (GameStateOps := mockOps refutationGame) 3)
    = Some (TT.mkEntry 3 (-3) (mockTurn 3 4) 1 TT.UPPER) /\
  estimateScoreFor (H := mockOps refutationGame) mockEnv allOn afterFirstSearch 3 2 = 1000000 /\
  estimateScoreFor (H := mockOps refutationGame) mockEnv allOn afterFirstSearch 3 2
  <> - TT.score (TT.mkEntry 3 (-3) (mockTurn 3 4) 1 TT.UPPER).
Proof. vm_compute. repeat split; discriminate. Qed.

Lemma estimateScoreFor_cases_witness :
  estimateScoreFor (H := mockOps refutationGame) mockEnv allOn afterFirstSearch 3 2
  = - MIN_SCORE mockEnv.
Proof.
  apply (proj2 (proj2 (proj2 (estimateScoreFor_cases (H := mockOps refutationGame)
                                mockEnv allOn afterFirstSearch 3 2%nat)))
           (TT.mkEntry 3 (-3) (mockTurn 3 4) 1 TT.UPPER)).
  - reflexivity.
  - vm_compute. reflexivity.
  - reflexivity.
Defined.

(** C4, counterexample.  The second search, of node 3 one ply deep, enters the
    root with the window (MIN_SCORE, MAX_SCORE); the upper-bound entry lowers
    beta to -3, the result -3 lies strictly inside the entry window, and the
    entry stored is a LOWER bound, not EXACT. *)
Lemma stored_entry_entry_window_counterexample :
  score (fst (search (H := mockOps refutationGame) mockEnv allOn afterFirstSearch 3 1%nat)) = -3 /\
  MIN_SCORE mockEnv < -3 < MAX_SCORE mockEnv /\
  classifyBound (-3) (MIN_SCORE mockEnv) (MAX_SCORE mockEnv) = TT.EXACT /\
  TT.lookup (m_transpositionTable
               (snd (search (H := mockOps refutationGame) mockEnv allOn afterFirstSearch 3 1%nat)))
            3
    = Some (TT.mkEntry 3 (-3) (mockTurn 3 4) 1 TT.LOWER).
Proof. vm_compute. repeat split; reflexivity. Qed.

Lemma stored_entry_classification_witness :
  exists e,
    TT.lookup (m_transpositionTable
                 (snd (search_recurse (H := mockOps refutationGame) mockEnv allOn 1 3 0
                         (MIN_SCORE mockEnv) (MAX_SCORE mockEnv) afterFirstSearch)))
              (getHash (GameStateOps := mockOps refutationGame) 3) = Some e /\
    TT.score e = score (fst (search_recurse (H := mockOps refutationGame) mockEnv allOn 1 3 0
                               (MIN_SCORE mockEnv) (MAX_SCORE mockEnv) afterFirstSearch)) /\
    TT.depth e = 1%nat /\
    TT.boundType e =
      (if TT.score e <=? MIN_SCORE mockEnv then TT.UPPER
       else if narrowedBeta (H := mockOps refutationGame) allOn afterFirstSearch 3 1
                 (MAX_SCORE mockEnv) <=? TT.score e
            then TT.LOWER else TT.EXACT).
Proof.
  apply (stored_entry_classification (H := mockOps refutationGame) mockEnv allOn 0 3 0%nat
           (MIN_SCORE mockEnv) (MAX_SCORE mockEnv) afterFirstSearch
           (MIN_SCORE mockEnv) (-3) (countHit afterFirstSearch)).
  - reflexivity.
  - split; vm_compute; reflexivity.
  - reflexivity.
  - vm_compute. reflexivity.
Defined.

(** C7.  The second search on the same object, of node 3 one ply deep, with
    [abort()] landing before the second read of the flag: the child frame
    sees the flag and returns the sentinel, the root takes its 0 as a score,
    cuts off against the beta lowered by the table and returns (0, turn 3->4)
    with the flag set, not the sentinel (0, none). *)
Theorem search_abort_then_cutoff_keeps_turn :
  fst (search (H := mockOps refutationGame) mockEnv allOn
         (withPendingAbort afterFirstSearch (Some 1%nat)) 3 1%nat)
    = mkResult 0 (Some (mockTurn 3 4)) /\
  m_abort (snd (search (H := mockOps refutationGame) mockEnv allOn
                  (withPendingAbort afterFirstSearch (Some 1%nat)) 3 1%nat)) = true /\
  fst (search (H := mockOps refutationGame) mockEnv allOn
         (withPendingAbort afterFirstSearch (Some 1%nat)) 3 1%nat)
    <> sentinel.
Proof. vm_compute. repeat split; discriminate. Qed.

(** An [abort()] before the search leaves no trace after it. *)
Lemma search_ignores_earlier_abort_witness :
  m_abort (abort (newNegamax tableSize)) = true /\
  m_abort (snd (search (H := mockOps refutationGame) mockEnv allOn
                  (abort (newNegamax tableSize)) 0 3%nat)) = false.
Proof.
  split; [reflexivity|].
  apply (proj2 (proj2 (search_ignores_earlier_abort (H := mockOps refutationGame)
                         mockEnv allOn (newNegamax tableSize) 0 3%nat))).
  reflexivity.
Defined.

End SearchFacts.

(** ** The check evasion mask *)

Module CheckFacts.

Import CheckSpec.

(** *** Bits of 64-bit values *)

Lemma testbit_wrap64 x i : 0 <= i -> Z.testbit (wrap64 x) i = Z.testbit x i && (i <? 64).
Proof.
  intros Hi. unfold wrap64. change mask64 with (Z.ones 64).
  rewrite Z.land_spec, Z.testbit_ones_nonneg by lia. reflexivity.
Qed.

Lemma in_range_of_bits x : (forall i, 64 <= i -> Z.testbit x i = false) -> 0 <= x < 2 ^ 64.
Proof.
  intros Hhigh. assert (Hx : x = wrap64 x); [|rewrite Hx; apply wrap64_range].
  apply Z.bits_inj'. intros i Hi. rewrite testbit_wrap64 by exact Hi.
  destruct (i <? 64) eqn:Hlt; [rewrite andb_true_r; reflexivity|].
  rewrite andb_false_r. apply Hhigh. apply Z.ltb_ge in Hlt. exact Hlt.
Qed.

Lemma bits_of_in_range x i : 0 <= x < 2 ^ 64 -> 64 <= i -> Z.testbit x i = false.
Proof.
  intros Hx Hi. rewrite <- (wrap64_small x Hx), testbit_wrap64 by lia.
  replace (i <? 64) with false by (symmetry; apply Z.ltb_ge; lia). apply andb_false_r.
Qed.

Lemma testbit_true_range x i : 0 <= x < 2 ^ 64 -> Z.testbit x i = true -> 0 <= i < 64.
Proof.
  intros Hx Hb. destruct (Z_lt_ge_dec i 0) as [Hneg|Hnn].
  - rewrite Z.testbit_neg_r in Hb by exact Hneg. discriminate.
  - destruct (Z_lt_ge_dec i 64) as [Hlt|Hge]; [lia|].
    rewrite (bits_of_in_range x i Hx) in Hb by lia. discriminate.
Qed.

Lemma land_in_range a b : 0 <= b < 2 ^ 64 -> 0 <= Z.land a b < 2 ^ 64.
Proof.
  intros Hb. apply in_range_of_bits. intros i Hi.
  rewrite Z.land_spec, (bits_of_in_range b i Hb Hi). apply andb_false_r.
Qed.

Lemma lor_in_range a b : 0 <= a < 2 ^ 64 -> 0 <= b < 2 ^ 64 -> 0 <= Z.lor a b < 2 ^ 64.
Proof.
  intros Ha Hb. apply in_range_of_bits. intros i Hi.
  rewrite Z.lor_spec, (bits_of_in_range a i Ha Hi), (bits_of_in_range b i Hb Hi). reflexivity.
Qed.

Lemma lxor_in_range a b : 0 <= a < 2 ^ 64 -> 0 <= b < 2 ^ 64 -> 0 <= Z.lxor a b < 2 ^ 64.
Proof.
  intros Ha Hb. apply in_range_of_bits. intros i Hi.
  rewrite Z.lxor_spec, (bits_of_in_range a i Ha Hi), (bits_of_in_range b i Hb Hi). reflexivity.
Qed.

Lemma not64_range x : 0 <= not64 x < 2 ^ 64.
Proof. apply wrap64_range. Qed.

Lemma testbit_not64 x i : 0 <= i < 64 -> Z.testbit (not64 x) i = negb (Z.testbit x i).
Proof.
  intros Hi. unfold not64. rewrite testbit_wrap64, Z.lnot_spec by lia.
  replace (i <? 64) with true by (symmetry; apply Z.ltb_lt; lia). apply andb_true_r.
Qed.

Lemma bit_range s : 0 <= s < 64 -> 0 < bit s < 2 ^ 64.
Proof.
  intros Hs. unfold bit. split; [apply Z.pow_pos_nonneg; lia|].
  apply Z.pow_lt_mono_r; lia.
Qed.

Lemma testbit_bit s i : 0 <= s -> Z.testbit (bit s) i = (s =? i).
Proof. intros Hs. apply Z.pow2_bits_eqb. exact Hs. Qed.

Lemma BB_SCAN_bit s : 0 <= s -> BB_SCAN (bit s) = s.
Proof. intros Hs. apply Z.log2_pow2. exact Hs. Qed.

Lemma shl64_one u s : 0 <= s < 64 -> shl64 u 1 s = bit s.
Proof.
  intros Hs. rewrite shl64_in_range by exact Hs. rewrite Z.shiftl_1_l.
  apply wrap64_small. pose proof (bit_range s Hs). unfold bit in *. lia.
Qed.

Lemma BIT_SET_zero u s : 0 <= s < 64 -> BIT_SET u 0 s = bit s.
Proof. intros Hs. unfold BIT_SET. rewrite shl64_one by exact Hs. reflexivity. Qed.

Lemma BIT_SET_bits u bb s i :
  0 <= s < 64 -> Z.testbit (BIT_SET u bb s) i = Z.testbit bb i || (s =? i).
Proof.
  intros Hs. unfold BIT_SET. rewrite shl64_one, Z.lor_spec, testbit_bit by lia. reflexivity.
Qed.

Lemma land_bit_eqb k x : 0 <= k -> (Z.land (bit k) x =? bit k) = Z.testbit x k.
Proof.
  intros Hk. destruct (Z.testbit x k) eqn:Hb.
  - apply Z.eqb_eq. apply Z.bits_inj'. intros i Hi.
    rewrite Z.land_spec, testbit_bit by exact Hk.
    destruct (Z.eqb_spec k i) as [<-|Hne]; [rewrite Hb|]; reflexivity.
  - apply Z.eqb_neq. intros Heq.
    assert (Hk' : Z.testbit (Z.land (bit k) x) k = Z.testbit (bit k) k) by (rewrite Heq; reflexivity).
    rewrite Z.land_spec, Hb, testbit_bit, Z.eqb_refl in Hk' by exact Hk. discriminate.
Qed.

(** *** The scan loop visits exactly the set bits *)

Lemma BIT_CLEAR_nonneg u bb pos : 0 <= BIT_CLEAR u bb pos.
Proof. unfold BIT_CLEAR. apply land_in_range, not64_range. Qed.

Lemma BIT_CLEAR_bits u bb pos i :
  0 <= pos < 64 -> 0 <= i < 64 ->
  Z.testbit (BIT_CLEAR u bb pos) i = Z.testbit bb i && negb (pos =? i).
Proof.
  intros Hp Hi. unfold BIT_CLEAR.
  rewrite Z.land_spec, testbit_not64, shl64_one, testbit_bit by lia. reflexivity.
Qed.

Lemma BIT_CLEAR_subset u bb pos i :
  Z.testbit (BIT_CLEAR u bb pos) i = true -> Z.testbit bb i = true.
Proof.
  unfold BIT_CLEAR. rewrite Z.land_spec. intros Hb. apply andb_true_iff in Hb. apply Hb.
Qed.

Lemma scanFields_sound u fuel : forall bb pos,
  0 <= bb -> In pos (scanFields u fuel bb) -> Z.testbit bb pos = true.
Proof.
  induction fuel as [|fuel IH]; intros bb pos Hbb Hin; [destruct Hin|].
  cbn [scanFields] in Hin. destruct (Z.eqb_spec bb 0) as [Hz|Hnz]; [destruct Hin|].
  destruct Hin as [<-|Hin].
  - apply Z.bit_log2. lia.
  - apply (BIT_CLEAR_subset u bb (BB_SCAN bb)). apply IH; [apply BIT_CLEAR_nonneg | exact Hin].
Qed.

Lemma below_pow2_of_bits x p :
  0 <= p -> 0 <= x -> (forall i, p <= i -> Z.testbit x i = false) -> x < 2 ^ p.
Proof.
  intros Hp Hx Hhigh. destruct (Z.eq_dec x 0) as [->|Hnz]; [apply Z.pow_pos_nonneg; lia|].
  apply Z.log2_lt_pow2; [lia|].
  destruct (Z_lt_ge_dec (Z.log2 x) p) as [Hlt|Hge]; [exact Hlt|].
  specialize (Hhigh (Z.log2 x) ltac:(lia)). rewrite Z.bit_log2 in Hhigh by lia. discriminate.
Qed.

Lemma scanFields_complete u fuel : forall bb pos,
  (fuel <= 64)%nat -> 0 <= bb < 2 ^ Z.of_nat fuel ->
  Z.testbit bb pos = true -> In pos (scanFields u fuel bb).
Proof.
  induction fuel as [|fuel IH]; intros bb pos Hfuel Hbb Hb.
  - assert (bb = 0) by (cbn in Hbb; lia). subst bb. rewrite Z.bits_0 in Hb. discriminate.
  - cbn [scanFields]. destruct (Z.eqb_spec bb 0) as [Hz|Hnz].
    { subst bb. rewrite Z.bits_0 in Hb. discriminate. }
    assert (Hlog : 0 <= Z.log2 bb < Z.of_nat (S fuel)).
    { split; [apply Z.log2_nonneg|]. apply Z.log2_lt_pow2; lia. }
    destruct (Z.eq_dec pos (Z.log2 bb)) as [->|Hne]; [left; reflexivity|].
    right. unfold BB_SCAN.
    assert (Hpos : 0 <= pos < 64).
    { apply (testbit_true_range bb); [|exact Hb]. split; [lia|].
      apply Z.lt_le_trans with (2 ^ Z.of_nat (S fuel)); [lia|].
      apply Z.pow_le_mono_r; lia. }
    apply IH; [lia| |].
    + split; [apply BIT_CLEAR_nonneg|].
      apply Z.lt_le_trans with (2 ^ Z.log2 bb); [|apply Z.pow_le_mono_r; lia].
      apply below_pow2_of_bits; [lia | apply BIT_CLEAR_nonneg |].
      intros i Hi. destruct (Z_lt_ge_dec i 64) as [Hlt|Hge].
      * rewrite BIT_CLEAR_bits by lia.
        destruct (Z.eqb_spec (Z.log2 bb) i) as [Heq|Hneq]; [apply andb_false_r|].
        rewrite Z.bits_above_log2 by lia. reflexivity.
      * destruct (Z.testbit (BIT_CLEAR u bb (Z.log2 bb)) i) eqn:Hbit; [|reflexivity].
        apply BIT_CLEAR_subset in Hbit. rewrite Z.bits_above_log2 in Hbit by lia. discriminate.
    + rewrite BIT_CLEAR_bits by lia. rewrite Hb.
      destruct (Z.eqb_spec (Z.log2 bb) pos); [congruence | reflexivity].
Qed.

Lemma fieldsOf_spec u bb pos :
  0 <= bb < 2 ^ 64 -> (In pos (fieldsOf u bb) <-> Z.testbit bb pos = true).
Proof.
  intros Hbb. split.
  - apply scanFields_sound. lia.
  - apply scanFields_complete; [lia | exact Hbb].
Qed.

Lemma fieldsOf_range u bb pos : 0 <= bb < 2 ^ 64 -> In pos (fieldsOf u bb) -> 0 <= pos < 64.
Proof.
  intros Hbb Hin. apply (testbit_true_range bb pos Hbb).
  exact (proj1 (fieldsOf_spec u bb pos Hbb) Hin).
Qed.

(** *** Loops that return from their body *)

Lemma firstReturn_cases {A B : Type} (body : A -> option B) (l : list A) (r : B) :
  (forall x, In x l -> body x = None \/ body x = Some r) ->
  firstReturn body l = None \/ firstReturn body l = Some r.
Proof.
  induction l as [|x l IH]; intros Hall; cbn [firstReturn]; [left; reflexivity|].
  destruct (Hall x (or_introl eq_refl)) as [Hx|Hx]; rewrite Hx; [|right; reflexivity].
  apply IH. intros y Hy. apply Hall. right. exact Hy.
Qed.

Lemma firstReturn_found {A B : Type} (body : A -> option B) (l : list A) (r : B) :
  (forall x, In x l -> body x = None \/ body x = Some r) ->
  (exists x, In x l /\ body x = Some r) ->
  firstReturn body l = Some r.
Proof.
  induction l as [|x l IH]; intros Hall (x0 & Hin & Hx0); [destruct Hin|].
  cbn [firstReturn].
  destruct (Hall x (or_introl eq_refl)) as [Hx|Hx]; rewrite Hx; [|reflexivity].
  apply IH.
  - intros y Hy. apply Hall. right. exact Hy.
  - destruct Hin as [->|Hin]; [congruence|]. exists x0. split; assumption.
Qed.

(** *** The body of the loops of [calcUnCheckFields] *)

Lemma unCheckFieldsOf_spec u opp cb t pos k :
  0 <= pos < 64 -> 0 <= k ->
  m_bb cb (togglePlayerColor opp) King = bit k ->
  unCheckFieldsOf u opp cb t pos =
  if Z.testbit (calcMoveTurns u (mkPiece opp t) (bit pos) 0 cb) k
  then Some (match t with
             | Pawn | Knight | King => bit pos
             | _ => unCheckFieldsSliding u (bit k) pos
             end)
  else None.
Proof.
  intros Hpos Hk Hking. unfold unCheckFieldsOf.
  rewrite BIT_SET_zero by exact Hpos. rewrite Hking, land_bit_eqb by exact Hk.
  destruct (Z.testbit _ k); [|reflexivity]. destruct t; reflexivity.
Qed.

(** *** A sliding piece only reaches squares aligned with its own *)

Lemma forallb_squares (f : Z -> bool) :
  forallb f squares = true -> forall i, 0 <= i < 64 -> f i = true.
Proof.
  intros Hall i Hi. rewrite forallb_forall in Hall. apply Hall.
  unfold squares. apply in_map_iff. exists (Z.to_nat i).
  split; [apply Z2Nat.id; lia|]. apply in_seq. lia.
Qed.

Lemma rayMoves_subset ray smear o a i :
  Z.testbit (rayMoves ray smear o a) i = true -> Z.testbit ray i = true.
Proof.
  unfold rayMoves. rewrite Z.land_spec, Z.lxor_spec, Z.land_spec.
  destruct (Z.testbit ray i); [reflexivity|].
  rewrite andb_false_r. cbn. discriminate.
Qed.

Lemma calcRookTurns_subset u r o a i :
  Z.testbit (calcRookTurns u r o a) i = true ->
  Z.testbit (getBitsE u r) i || Z.testbit (getBitsW u r) i
  || Z.testbit (getBitsN u r) i || Z.testbit (getBitsS u r) i = true.
Proof.
  unfold calcRookTurns. rewrite !Z.lor_spec. intros Hb.
  repeat (apply orb_true_iff in Hb; destruct Hb as [Hb|Hb]);
    apply rayMoves_subset in Hb; rewrite Hb; rewrite ?orb_true_r; reflexivity.
Qed.

Lemma calcBishopTurns_subset u b o a i :
  Z.testbit (calcBishopTurns u b o a) i = true ->
  Z.testbit (getBitsNE u b) i || Z.testbit (getBitsNW u b) i
  || Z.testbit (getBitsSE u b) i || Z.testbit (getBitsSW u b) i = true.
Proof.
  unfold calcBishopTurns. rewrite !Z.lor_spec. intros Hb.
  repeat (apply orb_true_iff in Hb; destruct Hb as [Hb|Hb]);
    apply rayMoves_subset in Hb; rewrite Hb; rewrite ?orb_true_r; reflexivity.
Qed.

(** The rays from every square, checked square by square. *)
Lemma rays_aligned_table u :
  forallb (fun s => forallb (fun k =>
    implb (Z.testbit (getBitsE u (bit s)) k || Z.testbit (getBitsN u (bit s)) k
           || Z.testbit (getBitsS u (bit s)) k
           || Z.testbit (getBitsNE u (bit s)) k || Z.testbit (getBitsNW u (bit s)) k
           || Z.testbit (getBitsSE u (bit s)) k || Z.testbit (getBitsSW u (bit s)) k
           || (negb (s =? 0) && Z.testbit (getBitsW u (bit s)) k))
          (aligned s k)) squares) squares = true.
Proof. vm_compute. reflexivity. Qed.

Lemma getBitsW_A1_aligned u k :
  0 <= k < 64 -> Z.testbit (getBitsW u (bit 0)) k = true -> aligned 0 k = true.
Proof.
  intros Hk. change (bit 0) with 1. rewrite getBitsW_A1, Z.land_spec.
  intros Hb. apply andb_true_iff in Hb. destruct Hb as [_ Hb].
  assert (Hlow : 0 <= k < 8).
  { change 0xFF with (Z.ones 8) in Hb. rewrite Z.testbit_ones_nonneg in Hb by lia.
    apply Z.ltb_lt in Hb. lia. }
  unfold aligned, rankFor. rewrite (Z.div_small k 8) by lia. reflexivity.
Qed.

Lemma rays_aligned u s k :
  0 <= s < 64 -> 0 <= k < 64 ->
  Z.testbit (getBitsE u (bit s)) k || Z.testbit (getBitsW u (bit s)) k
  || Z.testbit (getBitsN u (bit s)) k || Z.testbit (getBitsS u (bit s)) k
  || Z.testbit (getBitsNE u (bit s)) k || Z.testbit (getBitsNW u (bit s)) k
  || Z.testbit (getBitsSE u (bit s)) k || Z.testbit (getBitsSW u (bit s)) k = true ->
  aligned s k = true.
Proof.
  intros Hs Hk Hb.
  pose proof (forallb_squares _ (forallb_squares _ (rays_aligned_table u) s Hs) k Hk) as Htab.
  cbv beta in Htab.
  destruct (aligned s k) eqn:Hal; [reflexivity|]. exfalso.
  rewrite implb_false_r in Htab. apply negb_true_iff in Htab.
  repeat (apply orb_false_iff in Htab; destruct Htab as [Htab ?]).
  destruct (Z.eqb_spec s 0) as [->|Hne].
  - destruct (Z.testbit (getBitsW u (bit 0)) k) eqn:Hw.
    + rewrite (getBitsW_A1_aligned u k Hk Hw) in Hal. discriminate.
    + repeat match goal with H : Z.testbit _ _ = false |- _ => rewrite H in Hb; clear H end.
      discriminate.
  - cbn [negb andb] in *.
    repeat match goal with H : Z.testbit _ _ = false |- _ => rewrite H in Hb; clear H end.
    discriminate.
Qed.

Lemma sliding_aligned u cb opp t s k :
  isSliding t = true -> 0 <= s < 64 -> 0 <= k < 64 ->
  givesCheck u cb opp t s k -> aligned s k = true.
Proof.
  intros Ht Hs Hk Hc. unfold givesCheck, calcMoveTurns in Hc. cbn [type player] in Hc.
  apply (rays_aligned u s k Hs Hk).
  destruct t; try discriminate; unfold calcQueenTurns in Hc; rewrite ?Z.lor_spec in Hc.
  - apply orb_true_iff in Hc. destruct Hc as [Hc|Hc];
      [apply calcRookTurns_subset in Hc | apply calcBishopTurns_subset in Hc];
      repeat (apply orb_true_iff in Hc; destruct Hc as [Hc|Hc]);
      rewrite Hc; rewrite ?orb_true_r; reflexivity.
  - apply calcBishopTurns_subset in Hc.
    repeat (apply orb_true_iff in Hc; destruct Hc as [Hc|Hc]);
      rewrite Hc; rewrite ?orb_true_r; reflexivity.
  - apply calcRookTurns_subset in Hc.
    repeat (apply orb_true_iff in Hc; destruct Hc as [Hc|Hc]);
      rewrite Hc; rewrite ?orb_true_r; reflexivity.
Qed.

(** The squares set by the sliding branch, checked for every aligned pair. *)
Lemma unCheckFieldsSliding_table u :
  forallb (fun s => forallb (fun k =>
    implb (aligned s k)
          (unCheckFieldsSliding u (bit k) s =? Z.lor (bit s) (betweenBB s k)))
    squares) squares = true.
Proof. vm_compute. reflexivity. Qed.

Lemma unCheckFieldsSliding_between u s k :
  0 <= s < 64 -> 0 <= k < 64 -> aligned s k = true ->
  unCheckFieldsSliding u (bit k) s = Z.lor (bit s) (betweenBB s k).
Proof.
  intros Hs Hk Hal.
  pose proof (forallb_squares _ (forallb_squares _ (unCheckFieldsSliding_table u) s Hs) k Hk)
    as Htab.
  cbv beta in Htab. rewrite Hal in Htab. apply Z.eqb_eq. exact Htab.
Qed.

(** *** The mask for a single checker *)

Section SingleChecker.

Variable u : UndefShift.
Variable cb : ChessBoard.
Variable opp : PlayerColor.
Variables (t : PieceType) (s k : Field).

Hypothesis Hrange : bitboardsInRange cb.
Hypothesis Hk : 0 <= k < 64.
Hypothesis Hking : m_bb cb (togglePlayerColor opp) King = bit k.
Hypothesis Ht : In t pieceTypes.
Hypothesis Hs : 0 <= s < 64.
Hypothesis Hpiece : Z.testbit (m_bb cb opp t) s = true.
Hypothesis Hcheck : givesCheck u cb opp t s k.
Hypothesis Hunique :
  forall t' s', In t' pieceTypes -> 0 <= s' < 64 -> Z.testbit (m_bb cb opp t') s' = true ->
    givesCheck u cb opp t' s' k -> t' = t /\ s' = s.

Lemma unCheckFieldsOf_checker : unCheckFieldsOf u opp cb t s = Some (evasionMask t s k).
Proof.
  rewrite (unCheckFieldsOf_spec u opp cb t s k Hs) by (lia || exact Hking).
  unfold givesCheck in Hcheck. rewrite Hcheck. f_equal. unfold evasionMask.
  destruct (isSliding t) eqn:Hsl.
  - rewrite <- (unCheckFieldsSliding_between u s k Hs Hk
                  (sliding_aligned u cb opp t s k Hsl Hs Hk Hcheck)).
    destruct t; try discriminate; reflexivity.
  - destruct t; try discriminate; try reflexivity; cbn in Ht; intuition discriminate.
Qed.

Lemma unCheckFieldsOf_other t' pos :
  In t' pieceTypes -> In pos (fieldsOf u (m_bb cb opp t')) ->
  unCheckFieldsOf u opp cb t' pos = None \/
  unCheckFieldsOf u opp cb t' pos = Some (evasionMask t s k).
Proof.
  intros Ht' Hpos.
  pose proof (fieldsOf_range u _ pos (Hrange opp t') Hpos) as Hpr.
  pose proof (proj1 (fieldsOf_spec u _ pos (Hrange opp t')) Hpos) as Hbit.
  rewrite (unCheckFieldsOf_spec u opp cb t' pos k Hpr) by (lia || exact Hking).
  destruct (Z.testbit (calcMoveTurns u (mkPiece opp t') (bit pos) 0 cb) k) eqn:Hc;
    [|left; reflexivity].
  right. destruct (Hunique t' pos Ht' Hpr Hbit Hc) as [-> ->].
  rewrite <- unCheckFieldsOf_checker.
  rewrite (unCheckFieldsOf_spec u opp cb t s k Hs) by (lia || exact Hking).
  rewrite Hc. reflexivity.
Qed.

Lemma calcUnCheckFields_checker : calcUnCheckFields u opp cb = evasionMask t s k.
Proof.
  unfold calcUnCheckFields.
  rewrite (firstReturn_found _ pieceTypes (evasionMask t s k)); [reflexivity| |].
  - intros t' Ht'. apply firstReturn_cases. intros pos Hpos.
    apply unCheckFieldsOf_other; assumption.
  - exists t. split; [exact Ht|]. apply firstReturn_found.
    + intros pos Hpos. apply unCheckFieldsOf_other; assumption.
    + exists s. split; [|exact unCheckFieldsOf_checker].
      apply (proj2 (fieldsOf_spec u _ s (Hrange opp t))). exact Hpiece.
Qed.

End SingleChecker.

(** *** Move sets are 64-bit values *)

Lemma rayMoves_range ray smear o a :
  0 <= o < 2 ^ 64 -> 0 <= rayMoves ray smear o a < 2 ^ 64.
Proof.
  intros Ho. unfold rayMoves. apply land_in_range, lor_in_range; [exact Ho | apply not64_range].
Qed.

Lemma calcRookTurns_range u r o a : 0 <= o < 2 ^ 64 -> 0 <= calcRookTurns u r o a < 2 ^ 64.
Proof.
  intros Ho. unfold calcRookTurns. repeat apply lor_in_range; apply rayMoves_range; exact Ho.
Qed.

Lemma calcBishopTurns_range u b o a : 0 <= o < 2 ^ 64 -> 0 <= calcBishopTurns u b o a < 2 ^ 64.
Proof.
  intros Ho. unfold calcBishopTurns. repeat apply lor_in_range; apply rayMoves_range; exact Ho.
Qed.

Lemma calcQueenTurns_range u q o a : 0 <= o < 2 ^ 64 -> 0 <= calcQueenTurns u q o a < 2 ^ 64.
Proof.
  intros Ho. unfold calcQueenTurns.
  apply lor_in_range; [apply calcRookTurns_range | apply calcBishopTurns_range]; exact Ho.
Qed.

Lemma calcKnightTurns_range u n o : 0 <= calcKnightTurns u n o < 2 ^ 64.
Proof. unfold calcKnightTurns. apply land_in_range, not64_range. Qed.

Lemma calcKingTurns_range u k o a : 0 <= calcKingTurns u k o a < 2 ^ 64.
Proof.
  unfold calcKingTurns. apply lxor_in_range.
  - apply land_in_range, not64_range.
  - apply land_in_range, land_in_range, not64_range.
Qed.

Lemma shl64_range u x n : 0 <= shl64 u x n < 2 ^ 64.
Proof. unfold shl64. destruct (shiftInRange n); apply wrap64_range. Qed.

Lemma calcPawnTurns_range u p o a c e :
  0 <= o < 2 ^ 64 -> 0 <= calcPawnTurns u p o a c e < 2 ^ 64.
Proof.
  intros Ho. unfold calcPawnTurns. apply lor_in_range.
  - unfold calcPawnMoveTurns. destruct c.
    + apply lor_in_range; apply land_in_range, not64_range.
    + apply lor_in_range; apply land_in_range, not64_range.
    + vm_compute. split; [discriminate | reflexivity].
  - unfold calcPawnAttackTurns.
    assert (Hopp : 0 <= (if negb (e =? ERR) then BIT_SET u o e else o) < 2 ^ 64).
    { destruct (negb (e =? ERR)); [|exact Ho].
      unfold BIT_SET. apply lor_in_range; [exact Ho | apply shl64_range]. }
    destruct c; apply land_in_range; exact Hopp.
Qed.

Lemma zero_in_range : 0 <= 0 < 2 ^ 64.
Proof. vm_compute. split; [discriminate | reflexivity]. Qed.

Lemma calcMoveTurns_range u p bb o cb :
  bitboardsInRange cb -> 0 <= calcMoveTurns u p bb o cb < 2 ^ 64.
Proof.
  intros Hr. unfold calcMoveTurns.
  destruct (type p);
    [ apply calcKingTurns_range | apply calcQueenTurns_range, Hr
    | apply calcBishopTurns_range, Hr | apply calcKnightTurns_range
    | apply calcRookTurns_range, Hr | apply calcPawnTurns_range, Hr
    | exact zero_in_range | exact zero_in_range ].
Qed.

(** *** The flags do not influence the move sets *)

Lemma calcMoveTurns_setKingInCheck u p bb o cb c v :
  calcMoveTurns u p bb o (setKingInCheck cb c v) = calcMoveTurns u p bb o cb.
Proof. unfold calcMoveTurns. cbn [m_bb m_enPassantSquare setKingInCheck]. reflexivity. Qed.

Lemma pieceTurns_setKingInCheck u c' cb o m c v :
  pieceTurns u c' (setKingInCheck cb c v) o m = pieceTurns u c' cb o m.
Proof.
  unfold pieceTurns. cbn [m_bb setKingInCheck].
  apply flat_map_ext. intros t. apply flat_map_ext. intros pos.
  rewrite calcMoveTurns_setKingInCheck. reflexivity.
Qed.

Lemma unCheckFieldsOf_setKingInCheck u opp cb c v t pos :
  unCheckFieldsOf u opp (setKingInCheck cb c v) t pos = unCheckFieldsOf u opp cb t pos.
Proof.
  unfold unCheckFieldsOf. rewrite calcMoveTurns_setKingInCheck.
  cbn [m_bb setKingInCheck]. reflexivity.
Qed.

Lemma calcUnCheckFields_setKingInCheck u opp cb c v :
  calcUnCheckFields u opp (setKingInCheck cb c v) = calcUnCheckFields u opp cb.
Proof.
  unfold calcUnCheckFields. cbn [m_bb setKingInCheck].
  rewrite (firstReturn_agree
    (fun t => firstReturn (unCheckFieldsOf u opp (setKingInCheck cb c v) t)
                (fieldsOf u (m_bb cb opp t)))
    (fun t => firstReturn (unCheckFieldsOf u opp cb t) (fieldsOf u (m_bb cb opp t)))).
  - reflexivity.
  - intros t. apply firstReturn_agree. intros pos. apply unCheckFieldsOf_setKingInCheck.
Qed.

(** *** Turns of the check branch *)

Lemma generateTurns_in_check u player cb k :
  0 <= k -> m_bb cb player King = bit k ->
  Z.testbit (calcAllOppTurns u (togglePlayerColor player) cb) k = true ->
  fst (generateTurns u player cb)
  = pieceTurns u player cb (calcAllOppTurns u (togglePlayerColor player) cb)
      (Some (calcUnCheckFields u (togglePlayerColor player) cb)).
Proof.
  intros Hk Hking Hcheck. unfold generateTurns. cbn [m_bb setKingInCheck].
  rewrite Hking, land_bit_eqb, Hcheck by exact Hk. cbn [fst].
  rewrite calcUnCheckFields_setKingInCheck, calcUnCheckFields_setKingInCheck.
  rewrite pieceTurns_setKingInCheck, pieceTurns_setKingInCheck. reflexivity.
Qed.

Lemma bitBoardToTurns_elim u p f bb turn :
  In turn (bitBoardToTurns u p f bb) ->
  piece turn = p /\ from turn = f /\ In (to turn) (fieldsOf u bb).
Proof.
  unfold bitBoardToTurns. intros Hin. apply in_flat_map in Hin.
  destruct Hin as (dest & Hdest & Hin).
  destruct (_ && _) in Hin; cbn in Hin;
    repeat (destruct Hin as [<-|Hin]; [repeat split; exact Hdest|]); destruct Hin.
Qed.

Lemma bitBoardToTurns_intro u p f bb dest :
  In dest (fieldsOf u bb) ->
  exists turn, In turn (bitBoardToTurns u p f bb) /\
               piece turn = p /\ from turn = f /\ to turn = dest.
Proof.
  intros Hdest. unfold bitBoardToTurns.
  destruct (((rankFor dest =? rankEight) || (rankFor dest =? rankOne))
            && PieceType_eqb (type p) Pawn) eqn:Hprom.
  - exists (Turn_promotionQueen p f dest). split; [|repeat split].
    apply in_flat_map. exists dest. split; [exact Hdest|]. rewrite Hprom. left. reflexivity.
  - exists (Turn_move p f dest). split; [|repeat split].
    apply in_flat_map. exists dest. split; [exact Hdest|]. rewrite Hprom. left. reflexivity.
Qed.

Lemma bitBoardToTurns_king u c f bb dest :
  In dest (fieldsOf u bb) ->
  In (Turn_move (mkPiece c King) f dest) (bitBoardToTurns u (mkPiece c King) f bb).
Proof.
  intros Hdest. unfold bitBoardToTurns. apply in_flat_map. exists dest.
  split; [exact Hdest|]. cbn [type]. change (PieceType_eqb King Pawn) with false.
  rewrite andb_false_r. left. reflexivity.
Qed.

Lemma PieceType_eqb_King t : In t pieceTypes -> t <> King -> PieceType_eqb t King = false.
Proof.
  intros _ Hne. destruct t; try reflexivity. congruence.
Qed.

Section CheckBranch.

Variable u : UndefShift.
Variable cb : ChessBoard.
Variable player : PlayerColor.
Variable k : Field.
Variable mask : Z.

Hypothesis Hrange : bitboardsInRange cb.
Hypothesis Hk : 0 <= k < 64.
Hypothesis Hking : m_bb cb player King = bit k.

Local Abbreviation attacked := (calcAllOppTurns u (togglePlayerColor player) cb).
Local Abbreviation turns := (pieceTurns u player cb attacked (Some mask)).

(** Every turn of a piece other than the king lands on the mask. *)
Lemma pieceTurns_masked turn :
  In turn turns -> type (piece turn) <> King -> Z.testbit mask (to turn) = true.
Proof.
  unfold pieceTurns. intros Hin Hne.
  apply in_flat_map in Hin. destruct Hin as (t' & Ht' & Hin).
  apply in_flat_map in Hin. destruct Hin as (pos & Hpos & Hin).
  apply bitBoardToTurns_elim in Hin. destruct Hin as (Hp & _ & Hto).
  rewrite Hp in Hne. cbn [type] in Hne.
  rewrite (PieceType_eqb_King t' Ht' Hne) in Hto. cbn [negb] in Hto.
  assert (Hbb : 0 <= Z.land (calcMoveTurns u (mkPiece player t') (BIT_SET u 0 pos) attacked cb)
                       mask < 2 ^ 64).
  { rewrite Z.land_comm. apply land_in_range. apply calcMoveTurns_range. exact Hrange. }
  apply (proj1 (fieldsOf_spec u _ (to turn) Hbb)) in Hto.
  rewrite Z.land_spec in Hto. apply andb_true_iff in Hto. apply Hto.
Qed.

(** Every masked move of a piece other than the king is generated. *)
Lemma pieceTurns_complete t' pos dest :
  In t' pieceTypes -> t' <> King ->
  Z.testbit (m_bb cb player t') pos = true ->
  Z.testbit (Z.land (calcMoveTurns u (mkPiece player t') (bit pos) attacked cb) mask) dest
    = true ->
  exists turn, In turn turns /\
    piece turn = mkPiece player t' /\ from turn = pos /\ to turn = dest.
Proof.
  intros Ht' Hne Hpos Hdest.
  pose proof (testbit_true_range _ pos (Hrange player t') Hpos) as Hpr.
  assert (Hbb : 0 <= Z.land (calcMoveTurns u (mkPiece player t') (bit pos) attacked cb) mask
                < 2 ^ 64).
  { rewrite Z.land_comm. apply land_in_range, calcMoveTurns_range, Hrange. }
  destruct (bitBoardToTurns_intro u (mkPiece player t') pos _ dest
              (proj2 (fieldsOf_spec u _ dest Hbb) Hdest)) as (turn & Hin & Hp & Hf & Hto).
  exists turn. split; [|repeat split; assumption].
  unfold pieceTurns. apply in_flat_map. exists t'. split; [exact Ht'|].
  apply in_flat_map. exists pos.
  split; [apply (proj2 (fieldsOf_spec u _ pos (Hrange player t'))); exact Hpos|].
  rewrite (PieceType_eqb_King t' Ht' Hne), BIT_SET_zero by exact Hpr. exact Hin.
Qed.

(** Every move of the king is generated, on the mask or not. *)
Lemma pieceTurns_king dest :
  Z.testbit (calcMoveTurns u (mkPiece player King) (bit k) attacked cb) dest = true ->
  In (Turn_move (mkPiece player King) k dest) turns.
Proof.
  intros Hdest. unfold pieceTurns. apply in_flat_map. exists King.
  split; [left; reflexivity|]. apply in_flat_map. exists k. split.
  - apply (proj2 (fieldsOf_spec u _ k (Hrange player King))).
    rewrite Hking, testbit_bit, Z.eqb_refl by lia. reflexivity.
  - change (PieceType_eqb King King) with true. cbn [negb].
    rewrite BIT_SET_zero by exact Hk. apply bitBoardToTurns_king.
    apply (proj2 (fieldsOf_spec u _ dest (calcMoveTurns_range u _ _ _ cb Hrange))).
    exact Hdest.
Qed.

End CheckBranch.

Lemma togglePlayerColor_involutive player :
  player = White \/ player = Black -> togglePlayerColor (togglePlayerColor player) = player.
Proof. intros [->| ->]; reflexivity. Qed.

(** C2. A board of 64-bit bitboards, the player to move (White or Black)
    with his king on [k], and exactly one piece of the opponent, of type [t]
    on [s], whose move set contains [k].  Then [calcUnCheckFields] returns
    the checker's square when [t] is a knight, pawn or king, and the
    checker's square together with every square strictly between [s] and [k]
    when [t] is a queen, rook or bishop.  If moreover [generateTurns] finds
    the king attacked, every generated turn of a piece other than the king
    lands on that mask, every move of such a piece onto the mask is
    generated, and every move of the king is generated whether on the mask
    or not. *)
Theorem calcUnCheckFields_single_checker
    (u : UndefShift) (cb : ChessBoard) (player : PlayerColor)
    (t : PieceType) (s k : Field) :
  player = White \/ player = Black ->
  bitboardsInRange cb ->
  0 <= k < 64 -> m_bb cb player King = bit k ->
  In t pieceTypes -> 0 <= s < 64 ->
  Z.testbit (m_bb cb (togglePlayerColor player) t) s = true ->
  givesCheck u cb (togglePlayerColor player) t s k ->
  (forall t' s', In t' pieceTypes -> 0 <= s' < 64 ->
     Z.testbit (m_bb cb (togglePlayerColor player) t') s' = true ->
     givesCheck u cb (togglePlayerColor player) t' s' k -> t' = t /\ s' = s) ->
  calcUnCheckFields u (togglePlayerColor player) cb = evasionMask t s k /\
  (Z.testbit (calcAllOppTurns u (togglePlayerColor player) cb) k = true ->
   (forall turn, In turn (fst (generateTurns u player cb)) ->
      type (piece turn) <> King -> Z.testbit (evasionMask t s k) (to turn) = true) /\
   (forall t' pos dest, In t' pieceTypes -> t' <> King ->
      Z.testbit (m_bb cb player t') pos = true ->
      Z.testbit (Z.land (calcMoveTurns u (mkPiece player t') (bit pos)
                           (calcAllOppTurns u (togglePlayerColor player) cb) cb)
                        (evasionMask t s k)) dest = true ->
      exists turn, In turn (fst (generateTurns u player cb)) /\
        piece turn = mkPiece player t' /\ from turn = pos /\ to turn = dest) /\
   (forall dest,
      Z.testbit (calcMoveTurns u (mkPiece player King) (bit k)
                   (calcAllOppTurns u (togglePlayerColor player) cb) cb) dest = true ->
      In (Turn_move (mkPiece player King) k dest) (fst (generateTurns u player cb)))).
Proof.
  intros Hplayer Hrange Hk Hking Ht Hs Hpiece Hcheck Hunique.
  assert (Hmask : calcUnCheckFields u (togglePlayerColor player) cb = evasionMask t s k).
  { apply calcUnCheckFields_checker; try assumption.
    rewrite togglePlayerColor_involutive by exact Hplayer. exact Hking. }
  split; [exact Hmask|]. intros Hin.
  rewrite (generateTurns_in_check u player cb k) by (lia || assumption).
  rewrite Hmask. split; [|split].
  - intros turn. apply pieceTurns_masked. exact Hrange.
  - intros t' pos dest. apply pieceTurns_complete. exact Hrange.
  - intros dest. apply pieceTurns_king; assumption.
Qed.

Lemma rookCheckBoard_in_range : bitboardsInRange rookCheckBoard.
Proof.
  intros c t. destruct c, t; vm_compute; split; first [discriminate | reflexivity].
Qed.

Lemma rookCheckBoard_unique t' s' :
  In t' pieceTypes -> 0 <= s' < 64 ->
  Z.testbit (m_bb rookCheckBoard (togglePlayerColor White) t') s' = true ->
  givesCheck x86Shift rookCheckBoard (togglePlayerColor White) t' s' 4 ->
  t' = Rook /\ s' = 60.
Proof.
  intros Ht' Hs' Hbit Hc. cbn [togglePlayerColor m_bb rookCheckBoard rookCheckBB] in *.
  destruct Ht' as [<-|[<-|[<-|[<-|[<-|[<-|[]]]]]]]; cbn [rookCheckBB] in Hbit;
    try (rewrite Z.bits_0 in Hbit; discriminate).
  - change 0x0100000000000000 with (bit 56) in Hbit.
    rewrite testbit_bit in Hbit by lia. apply Z.eqb_eq in Hbit. subst s'.
    vm_compute in Hc. discriminate.
  - change 0x1000000000000000 with (bit 60) in Hbit.
    rewrite testbit_bit in Hbit by lia. apply Z.eqb_eq in Hbit. subst s'.
    split; reflexivity.
Qed.

(** The rook on e8 checks the king on e1: the mask is the e-file from e2 to
    e8, the knight on g3 may only go to e2 or e4, the king moves freely. *)
Lemma calcUnCheckFields_single_checker_witness :
  calcUnCheckFields x86Shift Black rookCheckBoard = evasionMask Rook 60 4 /\
  evasionMask Rook 60 4 = 0x1010101010101000 /\
  (forall turn, In turn (fst (generateTurns x86Shift White rookCheckBoard)) ->
     type (piece turn) <> King -> Z.testbit (evasionMask Rook 60 4) (to turn) = true) /\
  In (Turn_move (mkPiece White King) 4 5) (fst (generateTurns x86Shift White rookCheckBoard)).
Proof.
  destruct (calcUnCheckFields_single_checker x86Shift rookCheckBoard White Rook 60 4)
    as (Hmask & Hturns).
  - left. reflexivity.
  - exact rookCheckBoard_in_range.
  - lia.
  - reflexivity.
  - cbn. tauto.
  - lia.
  - reflexivity.
  - vm_compute. reflexivity.
  - exact rookCheckBoard_unique.
  - destruct Hturns as (Hmasked & _ & Hking); [vm_compute; reflexivity|].
    split; [exact Hmask|]. split; [vm_compute; reflexivity|].
    split; [exact Hmasked|]. apply Hking. vm_compute. reflexivity.
Defined.

End CheckFacts.

(** ** Further properties of the bitboard kernel *)

Module BitFacts.

Import CheckSpec CheckFacts BitScan.

Lemma testbit_shl64 u x n i :
  0 <= n < 64 -> 0 <= i < 64 -> Z.testbit (shl64 u x n) i = Z.testbit x (i - n).
Proof.
  intros Hn Hi. rewrite shl64_in_range, testbit_wrap64, Z.shiftl_spec by lia.
  replace (i <? 64) with true by (symmetry; apply Z.ltb_lt; lia). apply andb_true_r.
Qed.

Lemma testbit_shr64 u x n i :
  0 <= n < 64 -> 0 <= i -> Z.testbit (shr64 u x n) i = Z.testbit x (i + n).
Proof. intros Hn Hi. rewrite shr64_in_range, Z.shiftr_spec by lia. reflexivity. Qed.

Lemma high_bits_false x i : 0 <= x < 2 ^ 64 -> 64 <= i -> Z.testbit x i = false.
Proof. apply bits_of_in_range. Qed.

(** *** The scan loop *)

Lemma scanFields_below u fuel : forall bb pos,
  0 <= bb -> In pos (scanFields u fuel bb) -> pos <= Z.log2 bb.
Proof.
  intros bb pos Hbb Hin. pose proof (scanFields_sound u fuel bb pos Hbb Hin) as Hb.
  destruct (Z_le_gt_dec pos (Z.log2 bb)) as [Hle|Hgt]; [exact Hle|].
  rewrite Z.bits_above_log2 in Hb by lia. discriminate.
Qed.

Lemma scanFields_descending u fuel : forall bb,
  0 <= bb < 2 ^ 64 -> StronglySorted Z.gt (scanFields u fuel bb).
Proof.
  induction fuel as [|fuel IH]; intros bb Hbb; [constructor|].
  cbn [scanFields]. destruct (Z.eqb_spec bb 0) as [Hz|Hnz]; [constructor|].
  assert (Hlog : 0 <= Z.log2 bb < 64).
  { split; [apply Z.log2_nonneg|]. apply Z.log2_lt_pow2; lia. }
  assert (Hclear : 0 <= BIT_CLEAR u bb (BB_SCAN bb) < 2 ^ 64).
  { unfold BIT_CLEAR. apply land_in_range, not64_range. }
  constructor; [apply IH; exact Hclear|].
  apply List.Forall_forall. intros pos Hin.
  pose proof (scanFields_sound u fuel _ pos (proj1 Hclear) Hin) as Hb.
  pose proof (testbit_true_range _ pos Hclear Hb) as Hpos.
  unfold BB_SCAN in Hb. rewrite BIT_CLEAR_bits in Hb by lia.
  apply andb_true_iff in Hb. destruct Hb as [Hb Hne].
  apply negb_true_iff, Z.eqb_neq in Hne. unfold BB_SCAN.
  destruct (Z_le_gt_dec pos (Z.log2 bb)) as [Hle|Hgt]; [lia|].
  rewrite Z.bits_above_log2 in Hb by lia. discriminate.
Qed.

(** X1. The loop [while (bb != 0) { pos = BB_SCAN(bb); BIT_CLEAR(bb, pos); .. }]
    visits the set bits of a 64-bit board and nothing else, each once, from
    the most significant down. *)
Theorem scan_loop_visits_set_bits (u : UndefShift) (bb : Z) :
  0 <= bb < 2 ^ 64 ->
  StronglySorted Z.gt (fieldsOf u bb) /\
  (forall pos, In pos (fieldsOf u bb) <-> 0 <= pos < 64 /\ Z.testbit bb pos = true).
Proof.
  intros Hbb. split; [apply scanFields_descending; exact Hbb|].
  intros pos. split.
  - intros Hin. split; [exact (fieldsOf_range u bb pos Hbb Hin)|].
    exact (proj1 (fieldsOf_spec u bb pos Hbb) Hin).
  - intros [_ Hb]. exact (proj2 (fieldsOf_spec u bb pos Hbb) Hb).
Qed.

Lemma scan_loop_visits_set_bits_witness :
  StronglySorted Z.gt (fieldsOf x86Shift 0x42) /\
  (forall pos, In pos (fieldsOf x86Shift 0x42) <-> 0 <= pos < 64 /\ Z.testbit 0x42 pos = true).
Proof. apply (scan_loop_visits_set_bits x86Shift 0x42). lia. Defined.

(** *** The single-bit macros *)

Lemma BIT_ISSET_testbit u bb f : 0 <= f < 64 -> BIT_ISSET u bb f = Z.testbit bb f.
Proof.
  intros Hf. unfold BIT_ISSET. rewrite shl64_one by exact Hf.
  destruct (Z.testbit bb f) eqn:Hb.
  - apply negb_true_iff, Z.eqb_neq. intros Hz.
    assert (Hbit : Z.testbit (Z.land bb (bit f)) f = false) by (rewrite Hz; apply Z.bits_0).
    rewrite Z.land_spec, Hb, testbit_bit, Z.eqb_refl in Hbit by lia. discriminate.
  - apply negb_false_iff, Z.eqb_eq. apply Z.bits_inj'. intros i Hi.
    rewrite Z.land_spec, testbit_bit, Z.bits_0 by lia.
    destruct (Z.eqb_spec f i) as [<-|Hne]; [rewrite Hb; reflexivity | apply andb_false_r].
Qed.

Lemma BIT_TOGGLE_bits u bb f i :
  0 <= f < 64 -> Z.testbit (BIT_TOGGLE u bb f) i = xorb (Z.testbit bb i) (f =? i).
Proof.
  intros Hf. unfold BIT_TOGGLE. rewrite shl64_one, Z.lxor_spec, testbit_bit by lia. reflexivity.
Qed.

(** X2. For a field in 0..63 the macros act on that one bit of a 64-bit
    board: BIT_ISSET reads it, BIT_SET sets it, BIT_CLEAR clears it,
    BIT_TOGGLE flips it, every other bit is kept, and toggling twice gives
    the board back. *)
Theorem bit_macros_single_bit (u : UndefShift) (bb f : Z) :
  0 <= bb < 2 ^ 64 -> 0 <= f < 64 ->
  BIT_ISSET u bb f = Z.testbit bb f /\
  (forall i, Z.testbit (BIT_SET u bb f) i = if f =? i then true else Z.testbit bb i) /\
  (forall i, Z.testbit (BIT_CLEAR u bb f) i = if f =? i then false else Z.testbit bb i) /\
  (forall i, Z.testbit (BIT_TOGGLE u bb f) i
             = if f =? i then negb (Z.testbit bb i) else Z.testbit bb i) /\
  BIT_TOGGLE u (BIT_TOGGLE u bb f) f = bb.
Proof.
  intros Hbb Hf. split; [apply BIT_ISSET_testbit; exact Hf|].
  split.
  { intros i. rewrite BIT_SET_bits by exact Hf.
    destruct (f =? i); [apply orb_true_r | apply orb_false_r]. }
  split.
  { intros i. destruct (Z_lt_ge_dec i 0) as [Hneg|Hnn].
    { rewrite !Z.testbit_neg_r by exact Hneg. destruct (f =? i); reflexivity. }
    destruct (Z_lt_ge_dec i 64) as [Hlt|Hge].
    - rewrite BIT_CLEAR_bits by lia. destruct (f =? i); [apply andb_false_r | apply andb_true_r].
    - assert (Hc : 0 <= BIT_CLEAR u bb f < 2 ^ 64)
        by (unfold BIT_CLEAR; apply land_in_range, not64_range).
      rewrite (bits_of_in_range _ i Hc), (bits_of_in_range bb i Hbb) by lia.
      destruct (f =? i); reflexivity. }
  split.
  { intros i. rewrite BIT_TOGGLE_bits by exact Hf.
    destruct (f =? i); [apply xorb_true_r | apply xorb_false_r]. }
  apply Z.bits_inj'. intros i _. rewrite !BIT_TOGGLE_bits by exact Hf.
  destruct (Z.testbit bb i), (f =? i); reflexivity.
Qed.

Lemma bit_macros_single_bit_witness :
  BIT_ISSET x86Shift 0x81 7 = Z.testbit 0x81 7 /\
  BIT_TOGGLE x86Shift (BIT_TOGGLE x86Shift 0x81 7) 7 = 0x81.
Proof.
  destruct (bit_macros_single_bit x86Shift 0x81 7) as (H1 & _ & _ & _ & H5); [lia | lia |].
  split; [exact H1 | exact H5].
Defined.

(** *** The implementations of [getFirstOccupiedField] *)

Lemma clzFrom_log2 n : forall bb,
  0 < bb < 2 ^ Z.of_nat n -> clzFrom n bb = Z.of_nat n - 1 - Z.log2 bb.
Proof.
  induction n as [|n IH]; intros bb Hbb; [cbn in Hbb; lia|].
  cbn [clzFrom]. destruct (Z.testbit bb (Z.of_nat n)) eqn:Hb.
  - assert (Hlog : Z.log2 bb = Z.of_nat n); [|lia].
    assert (Hlt : Z.log2 bb < Z.of_nat (S n)) by (apply Z.log2_lt_pow2; lia).
    destruct (Z_lt_ge_dec (Z.log2 bb) (Z.of_nat n)) as [Hless|Hge]; [|lia].
    rewrite Z.bits_above_log2 in Hb by lia. discriminate.
  - rewrite IH; [lia|]. split; [lia|].
    apply below_pow2_of_bits; [lia | lia |].
    intros i Hi. destruct (Z.eq_dec i (Z.of_nat n)) as [->|Hne]; [exact Hb|].
    apply Z.bits_above_log2; [lia|].
    assert (Hlt : Z.log2 bb < Z.of_nat (S n)) by (apply Z.log2_lt_pow2; lia). lia.
Qed.

(** X3. For every non-zero 64-bit board the GCC, Win64 and Win32 variants
    of [getFirstOccupiedField] return the same field: the index (0..63) of
    the most significant set bit. *)
Theorem getFirstOccupiedField_variants_agree (u : UndefShift) (result bb : Z) :
  0 < bb < 2 ^ 64 ->
  getFirstOccupiedField_gnu bb = BB_SCAN bb /\
  getFirstOccupiedField_win64 result bb = BB_SCAN bb /\
  getFirstOccupiedField_win32 u result bb = BB_SCAN bb /\
  0 <= BB_SCAN bb < 64 /\
  Z.testbit bb (BB_SCAN bb) = true /\
  (forall i, BB_SCAN bb < i -> Z.testbit bb i = false).
Proof.
  intros Hbb. unfold BB_SCAN.
  assert (Hlog : 0 <= Z.log2 bb < 64).
  { split; [apply Z.log2_nonneg|]. apply Z.log2_lt_pow2; lia. }
  split.
  { unfold getFirstOccupiedField_gnu, builtin_clzll.
    rewrite (clzFrom_log2 64 bb) by exact Hbb. lia. }
  split.
  { unfold getFirstOccupiedField_win64, BitScanReverse.
    destruct (Z.eqb_spec bb 0); [lia | reflexivity]. }
  split.
  { unfold getFirstOccupiedField_win32, BitScanReverse.
    rewrite shr64_in_range by lia.
    destruct (Z.eqb_spec (Z.shiftr bb 32) 0) as [Hhi|Hhi]; cbn [negb].
    - assert (Hsmall : bb < 2 ^ 32).
      { apply below_pow2_of_bits; [lia | lia |]. intros i Hi.
        replace i with ((i - 32) + 32) by lia. rewrite <- Z.shiftr_spec by lia.
        rewrite Hhi. apply Z.bits_0. }
      change 0xFFFFFFFF with (Z.ones 32). rewrite Z.land_ones, Z.mod_small by lia.
      destruct (Z.eqb_spec bb 0); [lia | reflexivity].
    - rewrite Z.log2_shiftr by lia.
      assert (Hpos : 0 < Z.shiftr bb 32).
      { pose proof (Z.shiftr_nonneg bb 32). lia. }
      assert (Hge : 32 <= Z.log2 bb).
      { destruct (Z_lt_ge_dec (Z.log2 bb) 32) as [Hlt|Hge']; [|lia].
        exfalso. apply Hhi. apply Z.shiftr_eq_0; lia. }
      lia. }
  split; [exact Hlog|].
  split; [apply Z.bit_log2; lia|].
  intros i Hi. apply Z.bits_above_log2; lia.
Qed.

Lemma getFirstOccupiedField_variants_agree_witness :
  getFirstOccupiedField_gnu 0x0000010000000001 = 40 /\
  getFirstOccupiedField_win32 x86Shift 0 0x0000010000000001 = 40.
Proof.
  destruct (getFirstOccupiedField_variants_agree x86Shift 0 0x0000010000000001)
    as (H1 & _ & H3 & _); [lia|].
  split; [rewrite H1 | rewrite H3]; reflexivity.
Defined.

End BitFacts.

(** ** Properties of the move sets of the pieces *)

Module MoveFacts.

Import CheckSpec CheckFacts BitFacts MoveSpec.

Lemma forallb_lines (f : Z -> bool) :
  forallb f lines = true -> forall c, 0 <= c < 8 -> f c = true.
Proof.
  intros Hall c Hc. rewrite forallb_forall in Hall. apply Hall.
  assert (Hcases : c = 0 \/ c = 1 \/ c = 2 \/ c = 3 \/ c = 4 \/ c = 5 \/ c = 6 \/ c = 7) by lia.
  unfold lines. cbn [In]. intuition auto.
Qed.

Lemma In_squares i : In i squares <-> 0 <= i < 64.
Proof.
  unfold squares. rewrite in_map_iff. split.
  - intros (n & <- & Hn). apply in_seq in Hn. lia.
  - intros Hi. exists (Z.to_nat i). split; [apply Z2Nat.id; lia|]. apply in_seq. lia.
Qed.

(** *** File and rank masks *)

Lemma masks_table u :
  forallb (fun c => forallb (fun i =>
    Bool.eqb (Z.testbit (maskFile u c) i) (fileFor i =? c)
    && Bool.eqb (Z.testbit (maskRank u c) i) (rankFor i =? c)) squares) lines = true.
Proof. vm_compute. reflexivity. Qed.

Lemma maskFile_bits u c i :
  0 <= c < 8 -> 0 <= i < 64 -> Z.testbit (maskFile u c) i = (fileFor i =? c).
Proof.
  intros Hc Hi.
  pose proof (forallb_squares _ (forallb_lines _ (masks_table u) c Hc) i Hi) as Htab.
  cbv beta in Htab. apply andb_true_iff in Htab. destruct Htab as [Hf _].
  apply Bool.eqb_prop in Hf. exact Hf.
Qed.

Lemma maskRank_bits u c i :
  0 <= c < 8 -> 0 <= i < 64 -> Z.testbit (maskRank u c) i = (rankFor i =? c).
Proof.
  intros Hc Hi.
  pose proof (forallb_squares _ (forallb_lines _ (masks_table u) c Hc) i Hi) as Htab.
  cbv beta in Htab. apply andb_true_iff in Htab. destruct Htab as [_ Hr].
  apply Bool.eqb_prop in Hr. exact Hr.
Qed.

(** X4. For a file or rank 0..7, [maskFile] and [maskRank] hold exactly the
    squares of that file or rank, and [clearFile] and [clearRank] exactly
    the other squares of the board. *)
Theorem file_and_rank_masks (u : UndefShift) (c i : Z) :
  0 <= c < 8 -> 0 <= i < 64 ->
  Z.testbit (maskFile u c) i = (fileFor i =? c) /\
  Z.testbit (maskRank u c) i = (rankFor i =? c) /\
  Z.testbit (clearFile u c) i = negb (fileFor i =? c) /\
  Z.testbit (clearRank u c) i = negb (rankFor i =? c).
Proof.
  intros Hc Hi. unfold clearFile, clearRank. rewrite !testbit_not64 by exact Hi.
  rewrite (maskFile_bits u c i Hc Hi), (maskRank_bits u c i Hc Hi). repeat split.
Qed.

Lemma file_and_rank_masks_witness :
  Z.testbit (maskFile x86Shift 7) 15 = (fileFor 15 =? 7) /\
  Z.testbit (clearRank x86Shift 1) 15 = negb (rankFor 15 =? 1).
Proof.
  destruct (file_and_rank_masks x86Shift 7 15) as (H1 & _); [lia | lia |].
  destruct (file_and_rank_masks x86Shift 1 15) as (_ & _ & _ & H4); [lia | lia |].
  split; [exact H1 | exact H4].
Defined.

(** *** The ray helpers *)

Lemma getBitsW_patch u s :
  0 <= s < 64 -> (s = 0 -> westClean u) ->
  getBitsW u (bit s) = getBitsW (patch u 0) (bit s).
Proof.
  intros Hs Hclean. destruct (Z.eq_dec s 0) as [->|Hne].
  - change (bit 0) with 1. rewrite !getBitsW_A1. rewrite (Hclean eq_refl). reflexivity.
  - unfold getBitsW. rewrite BB_SCAN_bit by lia. unfold getBitsW_shift, maskRank.
    rewrite !shr64_in_range by lia.
    assert (Hr : 0 <= s / 8 * 8 < 64).
    { pose proof (Z.div_pos s 8). pose proof (Z.div_lt_upper_bound s 8 8). lia. }
    rewrite !shl64_in_range by exact Hr. reflexivity.
Qed.

Lemma rays_table u :
  forallb (fun s => forallb (fun i =>
    Bool.eqb (Z.testbit (getBitsN u (bit s)) i) (onRay 1 0 s i)
    && Bool.eqb (Z.testbit (getBitsS u (bit s)) i) (onRay (-1) 0 s i)
    && Bool.eqb (Z.testbit (getBitsE u (bit s)) i) (onRay 0 1 s i)
    && Bool.eqb (Z.testbit (getBitsW (patch u 0) (bit s)) i) (onRay 0 (-1) s i)
    && Bool.eqb (Z.testbit (getBitsNE u (bit s)) i) (onRay 1 1 s i)
    && Bool.eqb (Z.testbit (getBitsNW u (bit s)) i) (onRay 1 (-1) s i)
    && Bool.eqb (Z.testbit (getBitsSE u (bit s)) i) (onRay (-1) 1 s i)
    && Bool.eqb (Z.testbit (getBitsSW u (bit s)) i) (onRay (-1) (-1) s i))
    squares) squares = true.
Proof. vm_compute. reflexivity. Qed.

(** X5. For a piece on square [s], each of the eight ray helpers returns
    the squares of the board that lie in its direction from [s], [s]
    excluded.  For [getBitsW] with the piece on A1 this needs the
    out-of-range shift to leave the first rank empty. *)
Theorem ray_helpers_geometry (u : UndefShift) (s i : Field) :
  0 <= s < 64 -> 0 <= i < 64 ->
  Z.testbit (getBitsN u (bit s)) i = onRay 1 0 s i /\
  Z.testbit (getBitsS u (bit s)) i = onRay (-1) 0 s i /\
  Z.testbit (getBitsE u (bit s)) i = onRay 0 1 s i /\
  ((s = 0 -> westClean u) -> Z.testbit (getBitsW u (bit s)) i = onRay 0 (-1) s i) /\
  Z.testbit (getBitsNE u (bit s)) i = onRay 1 1 s i /\
  Z.testbit (getBitsNW u (bit s)) i = onRay 1 (-1) s i /\
  Z.testbit (getBitsSE u (bit s)) i = onRay (-1) 1 s i /\
  Z.testbit (getBitsSW u (bit s)) i = onRay (-1) (-1) s i.
Proof.
  intros Hs Hi.
  pose proof (forallb_squares _ (forallb_squares _ (rays_table u) s Hs) i Hi) as Htab.
  cbv beta in Htab.
  repeat (apply andb_true_iff in Htab; destruct Htab as [Htab ?]).
  repeat match goal with H : Bool.eqb _ _ = true |- _ => apply Bool.eqb_prop in H end.
  repeat split; try assumption.
  intros Hclean. rewrite (getBitsW_patch u s Hs Hclean). assumption.
Qed.

Lemma ray_helpers_geometry_witness :
  Z.testbit (getBitsN x86Shift (bit 12)) 60 = onRay 1 0 12 60 /\
  Z.testbit (getBitsSW x86Shift (bit 12)) 3 = onRay (-1) (-1) 12 3.
Proof.
  destruct (ray_helpers_geometry x86Shift 12 60) as (H1 & _); [lia | lia |].
  destruct (ray_helpers_geometry x86Shift 12 3) as (_ & _ & _ & _ & _ & _ & _ & H8);
    [lia | lia |].
  split; [exact H1 | exact H8].
Defined.

End MoveFacts.

(** ** Knights, kings and pawns *)

Module StepFacts.

Import CheckSpec CheckFacts BitFacts MoveSpec MoveFacts.

Lemma testbit_shl_masked u x mask k i :
  0 <= k < 64 -> 0 <= i < 64 ->
  Z.testbit (shl64 u (Z.land x mask) k) i = Z.testbit x (i - k) && Z.testbit mask (i - k).
Proof. intros Hk Hi. rewrite testbit_shl64, Z.land_spec by lia. reflexivity. Qed.

Lemma testbit_shr_masked u x mask k i :
  0 <= k < 64 -> 0 <= i < 64 ->
  Z.testbit (shr64 u (Z.land x mask) k) i = Z.testbit x (i + k) && Z.testbit mask (i + k).
Proof. intros Hk Hi. rewrite testbit_shr64, Z.land_spec by lia. reflexivity. Qed.

Lemma testbit_mask64 x j : 0 <= x < 2 ^ 64 -> Z.testbit x j = Z.testbit x j && Z.testbit mask64 j.
Proof.
  intros Hx. destruct (Z_lt_ge_dec j 0) as [Hneg|Hnn].
  { rewrite !Z.testbit_neg_r by exact Hneg. reflexivity. }
  change mask64 with (Z.ones 64). rewrite Z.testbit_ones_nonneg by lia.
  destruct (Z.ltb_spec j 64) as [Hlt|Hge]; [symmetry; apply andb_true_r|].
  rewrite (bits_of_in_range x j Hx) by lia. reflexivity.
Qed.

(** A step generator given by (mask, offset) terms reaches [i] from the
    squares [s] of [x] with [jump s i]. *)
Lemma step_terms (jump : Field -> Field -> bool) (terms : list (Z * Z)) (x i : Z) :
  stepCheck jump terms = true ->
  (forall t, In t terms -> 0 <= fst t < 2 ^ 64) ->
  0 <= i < 64 ->
  existsb (fun t => Z.testbit x (i + snd t) && Z.testbit (fst t) (i + snd t)) terms
  = existsb (fun s => Z.testbit x s && jump s i) squares.
Proof.
  intros Hcheck Hmasks Hi. apply eq_true_iff_eq. rewrite !existsb_exists. split.
  - intros (t & Ht & Hb). apply andb_true_iff in Hb. destruct Hb as [Hx Hm].
    pose proof (testbit_true_range _ _ (Hmasks t Ht) Hm) as Hs.
    exists (i + snd t). split; [apply In_squares; exact Hs|].
    rewrite Hx. cbn [andb].
    pose proof (forallb_squares _ (forallb_squares _ Hcheck (i + snd t) Hs) i Hi) as Htab.
    cbv beta in Htab. apply Bool.eqb_prop in Htab. rewrite Htab.
    apply existsb_exists. exists t. split; [exact Ht|].
    rewrite Z.eqb_refl, Hm. reflexivity.
  - intros (s & Hs & Hb). apply andb_true_iff in Hb. destruct Hb as [Hx Hj].
    apply In_squares in Hs.
    pose proof (forallb_squares _ (forallb_squares _ Hcheck s Hs) i Hi) as Htab.
    cbv beta in Htab. apply Bool.eqb_prop in Htab. rewrite Htab in Hj.
    apply existsb_exists in Hj. destruct Hj as (t & Ht & Hb).
    apply andb_true_iff in Hb. destruct Hb as [Heq Hm]. apply Z.eqb_eq in Heq.
    exists t. split; [exact Ht|]. rewrite <- Heq, Hx, Hm. reflexivity.
Qed.

(** *** Knights *)

Lemma knight_terms_check u :
  stepCheck knightJump
    [ (Z.land (clearFile u fileA) (clearFile u fileB), -6); (clearFile u fileA, -15);
      (clearFile u fileH, -17); (Z.land (clearFile u fileH) (clearFile u fileG), -10);
      (Z.land (clearFile u fileH) (clearFile u fileG), 6); (clearFile u fileH, 15);
      (clearFile u fileA, 17); (Z.land (clearFile u fileA) (clearFile u fileB), 10) ] = true.
Proof. vm_compute. reflexivity. Qed.

Lemma clearFile_range u c : 0 <= clearFile u c < 2 ^ 64.
Proof. apply not64_range. Qed.

Lemma calcKnightTurns_bits (u : UndefShift) (knights allOwnPieces : Z) (i : Field) :
  0 <= i < 64 ->
  Z.testbit (calcKnightTurns u knights allOwnPieces) i
  = negb (Z.testbit allOwnPieces i)
    && existsb (fun s => Z.testbit knights s && knightJump s i) squares.
Proof.
  intros Hi. rewrite <- (step_terms knightJump _ knights i (knight_terms_check u)); [|..|exact Hi].
  - unfold calcKnightTurns, lor8. rewrite Z.land_spec, testbit_not64 by exact Hi.
    rewrite !Z.lor_spec.
    rewrite !testbit_shl_masked, !testbit_shr_masked by lia.
    cbn [existsb fst snd]. rewrite orb_false_r, !orb_assoc.
    replace (i - 6) with (i + -6) by lia. replace (i - 15) with (i + -15) by lia.
    replace (i - 17) with (i + -17) by lia. replace (i - 10) with (i + -10) by lia.
    apply andb_comm.
  - intros t Ht. cbn [In] in Ht.
    repeat (destruct Ht as [<-|Ht];
            [cbn [fst]; first [apply clearFile_range | apply land_in_range, clearFile_range]|]).
    destruct Ht.
Qed.

(** X6. [calcKnightTurns] for any set of knights: a square of the board is
    in the result exactly when it holds no own piece and is a knight's jump
    away from one of the knights. *)
Theorem calcKnightTurns_jumps (u : UndefShift) (knights allOwnPieces : Z) (i : Field) :
  0 <= i < 64 ->
  Z.testbit (calcKnightTurns u knights allOwnPieces) i
  = negb (Z.testbit allOwnPieces i)
    && existsb (fun s => Z.testbit knights s && knightJump s i) squares.
Proof. apply calcKnightTurns_bits. Qed.

Lemma calcKnightTurns_jumps_witness :
  Z.testbit (calcKnightTurns x86Shift 0x42 0xFFFF) 18
  = negb (Z.testbit 0xFFFF 18)
    && existsb (fun s => Z.testbit 0x42 s && knightJump s 18) squares.
Proof. apply (calcKnightTurns_jumps x86Shift 0x42 0xFFFF 18). lia. Defined.

(** *** Kings *)

Lemma king_terms_check u :
  stepCheck kingStep
    [ (clearFile u fileH, -9); (mask64, -8); (clearFile u fileA, -7); (clearFile u fileH, -1);
      (clearFile u fileA, 1); (clearFile u fileH, 7); (mask64, 8); (clearFile u fileA, 9) ]
  = true.
Proof. vm_compute. reflexivity. Qed.

Lemma mask64_range : 0 <= mask64 < 2 ^ 64.
Proof. vm_compute. split; [discriminate | reflexivity]. Qed.

Lemma calcKingTurns_bits (u : UndefShift) (king allOwnPieces allOppTurns : Z) (i : Field) :
  0 <= king < 2 ^ 64 -> 0 <= i < 64 ->
  Z.testbit (calcKingTurns u king allOwnPieces allOppTurns) i
  = negb (Z.testbit allOwnPieces i) && negb (Z.testbit allOppTurns i)
    && existsb (fun s => Z.testbit king s && kingStep s i) squares.
Proof.
  intros Hking Hi.
  rewrite <- (step_terms kingStep _ king i (king_terms_check u)); [|..|exact Hi].
  - unfold calcKingTurns, lor8.
    rewrite Z.lxor_spec, !Z.land_spec, testbit_not64 by exact Hi.
    rewrite !Z.lor_spec.
    rewrite !testbit_shl_masked, !testbit_shr_masked by lia.
    rewrite testbit_shl64, testbit_shr64 by lia.
    rewrite (testbit_mask64 king (i - 8) Hking), (testbit_mask64 king (i + 8) Hking).
    cbn [existsb fst snd]. rewrite orb_false_r, !orb_assoc.
    replace (i - 9) with (i + -9) by lia. replace (i - 8) with (i + -8) by lia.
    replace (i - 7) with (i + -7) by lia. replace (i - 1) with (i + -1) by lia.
    match goal with |- xorb (?k && ?o) (?t && (?k && ?o)) = _ =>
      destruct k, o, t; reflexivity end.
  - intros t Ht. cbn [In] in Ht.
    repeat (destruct Ht as [<-|Ht];
            [cbn [fst]; first [apply clearFile_range | exact mask64_range]|]).
    destruct Ht.
Qed.

(** X7. [calcKingTurns] for a 64-bit king board: a square of the board is
    in the result exactly when it holds no own piece, is not among the
    opponent's turns, and is one step away from a king. *)
Theorem calcKingTurns_steps (u : UndefShift) (king allOwnPieces allOppTurns : Z) (i : Field) :
  0 <= king < 2 ^ 64 -> 0 <= i < 64 ->
  Z.testbit (calcKingTurns u king allOwnPieces allOppTurns) i
  = negb (Z.testbit allOwnPieces i) && negb (Z.testbit allOppTurns i)
    && existsb (fun s => Z.testbit king s && kingStep s i) squares.
Proof. apply calcKingTurns_bits. Qed.

Lemma calcKingTurns_steps_witness :
  Z.testbit (calcKingTurns x86Shift 0x10 0x10 0x2000) 12
  = negb (Z.testbit 0x10 12) && negb (Z.testbit 0x2000 12)
    && existsb (fun s => Z.testbit 0x10 s && kingStep s 12) squares.
Proof. apply (calcKingTurns_steps x86Shift 0x10 0x10 0x2000 12); lia. Defined.

(** *** Pawn attacks *)

Lemma pawn_attack_terms_check u :
  stepCheck (pawnAttacks White) [ (clearFile u fileA, -7); (clearFile u fileH, -9) ] = true /\
  stepCheck (pawnAttacks Black) [ (clearFile u fileA, 9); (clearFile u fileH, 7) ] = true /\
  stepCheck (pawnAttacks NoPlayer) [] = true.
Proof. repeat split; vm_compute; reflexivity. Qed.

Lemma calcPawnAttackTurns_bits (u : UndefShift) (pawns allOppPieces : Z)
    (player : PlayerColor) (enPassantSquare i : Field) :
  0 <= i < 64 -> enPassantSquare = ERR \/ 0 <= enPassantSquare < 64 ->
  Z.testbit (calcPawnAttackTurns u pawns allOppPieces player enPassantSquare) i
  = existsb (fun s => Z.testbit pawns s && pawnAttacks player s i) squares
    && (Z.testbit allOppPieces i || (enPassantSquare =? i)).
Proof.
  intros Hi Hep. destruct (pawn_attack_terms_check u) as (Hw & Hb & Hn).
  unfold calcPawnAttackTurns.
  assert (Htarget : Z.testbit (if negb (enPassantSquare =? ERR)
                               then BIT_SET u allOppPieces enPassantSquare
                               else allOppPieces) i
                    = Z.testbit allOppPieces i || (enPassantSquare =? i)).
  { destruct Hep as [->|Hep].
    - change (negb (ERR =? ERR)) with false. cbv iota.
      replace (ERR =? i) with false by (symmetry; apply Z.eqb_neq; unfold ERR; lia).
      symmetry. apply orb_false_r.
    - replace (enPassantSquare =? ERR) with false
        by (symmetry; apply Z.eqb_neq; unfold ERR; lia).
      cbn [negb]. apply BIT_SET_bits. exact Hep. }
  destruct player.
  - rewrite Z.land_spec, Htarget, Z.lor_spec.
    rewrite <- (step_terms (pawnAttacks White) _ pawns i Hw); [|..|exact Hi].
    + rewrite !testbit_shl_masked by lia. cbn [existsb fst snd]. rewrite orb_false_r.
      replace (i - 7) with (i + -7) by lia. replace (i - 9) with (i + -9) by lia. reflexivity.
    + intros t Ht. cbn [In] in Ht.
      repeat (destruct Ht as [<-|Ht]; [cbn [fst]; apply clearFile_range|]). destruct Ht.
  - rewrite Z.land_spec, Htarget, Z.lor_spec.
    rewrite <- (step_terms (pawnAttacks Black) _ pawns i Hb); [|..|exact Hi].
    + rewrite !testbit_shr_masked by lia. cbn [existsb fst snd]. rewrite orb_false_r.
      reflexivity.
    + intros t Ht. cbn [In] in Ht.
      repeat (destruct Ht as [<-|Ht]; [cbn [fst]; apply clearFile_range|]). destruct Ht.
  - rewrite Z.land_spec, Htarget, Z.lor_spec.
    rewrite <- (step_terms (pawnAttacks NoPlayer) _ pawns i Hn); [|..|exact Hi].
    + cbn [existsb]. rewrite Z.bits_0. reflexivity.
    + intros t Ht. destruct Ht.
Qed.

(** X8. [calcPawnAttackTurns] for any set of pawns: a square of the board
    is in the result exactly when a pawn attacks it (one rank forward, one
    file aside) and it holds an opposing piece or is the en passant
    square. *)
Theorem calcPawnAttackTurns_attacks (u : UndefShift) (pawns allOppPieces : Z)
    (player : PlayerColor) (enPassantSquare i : Field) :
  0 <= i < 64 -> enPassantSquare = ERR \/ 0 <= enPassantSquare < 64 ->
  Z.testbit (calcPawnAttackTurns u pawns allOppPieces player enPassantSquare) i
  = existsb (fun s => Z.testbit pawns s && pawnAttacks player s i) squares
    && (Z.testbit allOppPieces i || (enPassantSquare =? i)).
Proof. apply calcPawnAttackTurns_bits. Qed.

Lemma calcPawnAttackTurns_attacks_witness :
  Z.testbit (calcPawnAttackTurns x86Shift 0x1000 0 White 21) 21
  = existsb (fun s => Z.testbit 0x1000 s && pawnAttacks White s 21) squares
    && (Z.testbit 0 21 || (21 =? 21)).
Proof.
  apply (calcPawnAttackTurns_attacks x86Shift 0x1000 0 White 21 21); [lia|].
  right. lia.
Defined.

(** *** Pawn pushes *)

Lemma existsb_squares_iff (f : Z -> bool) :
  existsb f squares = true <-> exists s, 0 <= s < 64 /\ f s = true.
Proof.
  rewrite existsb_exists. split; intros (s & Hs & Hf); exists s; split;
    try exact Hf; apply In_squares; exact Hs.
Qed.

Lemma rankFor_eqb j c : (rankFor j =? c) = true <-> 8 * c <= j < 8 * c + 8.
Proof.
  unfold rankFor. rewrite Z.eqb_eq. split; intros Hj.
  - subst c. pose proof (Z.mul_div_le j 8). pose proof (Z.mul_succ_div_gt j 8). lia.
  - symmetry. apply Z.div_unique with (j - 8 * c); lia.
Qed.

Lemma testbit_true_nonneg x j : Z.testbit x j = true -> 0 <= j.
Proof.
  intros Hb. destruct (Z_lt_ge_dec j 0) as [Hneg|Hnn]; [|lia].
  rewrite Z.testbit_neg_r in Hb by exact Hneg. discriminate.
Qed.

Lemma pawn_push_white u pawns allPieces i :
  0 <= pawns < 2 ^ 64 -> 0 <= i < 64 ->
  Z.testbit (calcPawnMoveTurns u pawns allPieces White) i
  = existsb (fun s => Z.testbit pawns s && pawnPush White allPieces s i) squares.
Proof.
  intros Hp Hi. unfold calcPawnMoveTurns. cbv beta iota zeta.
  rewrite Z.lor_spec, !Z.land_spec, testbit_not64 by exact Hi.
  rewrite testbit_shl_masked, testbit_shl64 by lia.
  apply eq_true_iff_eq. rewrite existsb_squares_iff. unfold pawnPush, forward, startRank.
  cbn [PlayerColor_eqb negb andb]. split.
  - intros Hb. apply orb_true_iff in Hb. destruct Hb as [Hb|Hb].
    + apply andb_true_iff in Hb. destruct Hb as [Hs Hfree].
      pose proof (testbit_true_nonneg _ _ Hs) as Hnn.
      exists (i - 8). split; [lia|]. rewrite Hs, Hfree. cbn [andb].
      replace (i =? i - 8 + 8 * 1) with true by (symmetry; apply Z.eqb_eq; lia). reflexivity.
    + apply andb_true_iff in Hb. destruct Hb as [Hb Hfree].
      apply andb_true_iff in Hb. destruct Hb as [Hone Hrank].
      pose proof (testbit_true_nonneg _ _ Hrank) as Hnn.
      rewrite maskRank_bits in Hrank by (unfold rankThree; lia).
      apply rankFor_eqb in Hrank. unfold rankThree in Hrank.
      rewrite Z.land_spec, testbit_not64, testbit_shl64 in Hone by lia.
      apply andb_true_iff in Hone. destruct Hone as [Hs Hmid].
      exists (i - 16). split; [lia|].
      replace (i - 8 - 8) with (i - 16) in Hs by lia. rewrite Hs, Hfree. cbn [andb].
      replace (i =? i - 16 + 16 * 1) with true by (symmetry; apply Z.eqb_eq; lia).
      replace (i - 16 + 8 * 1) with (i - 8) by lia. rewrite Hmid.
      replace (rankFor (i - 16) =? 1) with true
        by (symmetry; apply rankFor_eqb; lia).
      apply orb_true_r.
  - intros (s & Hs & Hb). apply andb_true_iff in Hb. destruct Hb as [Hpawn Hb].
    apply andb_true_iff in Hb. destruct Hb as [Hfree Hb]. rewrite Hfree.
    apply orb_true_iff in Hb. destruct Hb as [Hb|Hb].
    + apply Z.eqb_eq in Hb. subst i. replace (s + 8 * 1 - 8) with s by lia.
      rewrite Hpawn. reflexivity.
    + apply andb_true_iff in Hb. destruct Hb as [Hb Hmid].
      apply andb_true_iff in Hb. destruct Hb as [Hb Hrank].
      apply Z.eqb_eq in Hb. subst i. apply rankFor_eqb in Hrank.
      rewrite maskRank_bits by (unfold rankThree; lia).
      rewrite Z.land_spec, testbit_not64, testbit_shl64 by lia.
      replace (s + 16 * 1 - 8 - 8) with s by lia.
      replace (s + 16 * 1 - 8) with (s + 8 * 1) by lia.
      rewrite Hpawn, Hmid. cbn [andb].
      replace (rankFor (s + 8 * 1) =? rankThree) with true
        by (symmetry; apply rankFor_eqb; unfold rankThree; lia).
      apply orb_true_r.
Qed.

Lemma pawn_push_black u pawns allPieces i :
  0 <= pawns < 2 ^ 64 -> 0 <= i < 64 ->
  Z.testbit (calcPawnMoveTurns u pawns allPieces Black) i
  = existsb (fun s => Z.testbit pawns s && pawnPush Black allPieces s i) squares.
Proof.
  intros Hp Hi. unfold calcPawnMoveTurns. cbv beta iota zeta.
  rewrite Z.lor_spec, !Z.land_spec, testbit_not64 by exact Hi.
  rewrite testbit_shr_masked, testbit_shr64 by lia.
  apply eq_true_iff_eq. rewrite existsb_squares_iff. unfold pawnPush, forward, startRank.
  cbn [PlayerColor_eqb negb andb]. split.
  - intros Hb. apply orb_true_iff in Hb. destruct Hb as [Hb|Hb].
    + apply andb_true_iff in Hb. destruct Hb as [Hs Hfree].
      pose proof (testbit_true_range _ _ Hp Hs) as Hr.
      exists (i + 8). split; [lia|]. rewrite Hs, Hfree. cbn [andb].
      replace (i =? i + 8 + 8 * -1) with true by (symmetry; apply Z.eqb_eq; lia). reflexivity.
    + apply andb_true_iff in Hb. destruct Hb as [Hb Hfree].
      apply andb_true_iff in Hb. destruct Hb as [Hone Hrank].
      assert (Hr8 : 0 <= i + 8 < 64).
      { apply (testbit_true_range (maskRank u rankSix)); [apply shl64_range | exact Hrank]. }
      rewrite maskRank_bits in Hrank by (unfold rankSix; lia).
      apply rankFor_eqb in Hrank. unfold rankSix in Hrank.
      rewrite Z.land_spec, testbit_not64, testbit_shr64 in Hone by lia.
      apply andb_true_iff in Hone. destruct Hone as [Hs Hmid].
      exists (i + 16). split; [lia|].
      replace (i + 8 + 8) with (i + 16) in Hs by lia. rewrite Hs, Hfree. cbn [andb].
      replace (i =? i + 16 + 16 * -1) with true by (symmetry; apply Z.eqb_eq; lia).
      replace (i + 16 + 8 * -1) with (i + 8) by lia. rewrite Hmid.
      replace (rankFor (i + 16) =? 6) with true
        by (symmetry; apply rankFor_eqb; lia).
      apply orb_true_r.
  - intros (s & Hs & Hb). apply andb_true_iff in Hb. destruct Hb as [Hpawn Hb].
    apply andb_true_iff in Hb. destruct Hb as [Hfree Hb]. rewrite Hfree.
    apply orb_true_iff in Hb. destruct Hb as [Hb|Hb].
    + apply Z.eqb_eq in Hb. subst i. replace (s + 8 * -1 + 8) with s by lia.
      rewrite Hpawn. reflexivity.
    + apply andb_true_iff in Hb. destruct Hb as [Hb Hmid].
      apply andb_true_iff in Hb. destruct Hb as [Hb Hrank].
      apply Z.eqb_eq in Hb. subst i. apply rankFor_eqb in Hrank.
      rewrite maskRank_bits by (unfold rankSix; lia).
      rewrite Z.land_spec, testbit_not64, testbit_shr64 by lia.
      replace (s + 16 * -1 + 8 + 8) with s by lia.
      replace (s + 16 * -1 + 8) with (s + 8 * -1) by lia.
      rewrite Hpawn, Hmid. cbn [andb].
      replace (rankFor (s + 8 * -1) =? rankSix) with true
        by (symmetry; apply rankFor_eqb; unfold rankSix; lia).
      apply orb_true_r.
Qed.

(** X9. [calcPawnMoveTurns] for any 64-bit set of pawns: a square of the
    board is in the result exactly when it is empty and a pawn stands one
    rank behind it, or two ranks behind it on the pawn's start rank with
    the square between empty as well.  No pushes are produced for
    [NoPlayer]. *)
Theorem calcPawnMoveTurns_pushes (u : UndefShift) (pawns allPieces : Z)
    (player : PlayerColor) (i : Field) :
  0 <= pawns < 2 ^ 64 -> 0 <= i < 64 ->
  Z.testbit (calcPawnMoveTurns u pawns allPieces player) i
  = existsb (fun s => Z.testbit pawns s && pawnPush player allPieces s i) squares.
Proof.
  intros Hp Hi. destruct player.
  - apply pawn_push_white; assumption.
  - apply pawn_push_black; assumption.
  - unfold calcPawnMoveTurns. cbv beta iota zeta. change (Z.lor 0 0) with 0.
    rewrite Z.bits_0. symmetry. apply not_true_is_false. intros Hb.
    apply existsb_squares_iff in Hb. destruct Hb as (s & _ & Hb).
    unfold pawnPush in Hb. cbn [PlayerColor_eqb negb andb] in Hb.
    rewrite andb_false_r in Hb. discriminate.
Qed.

Lemma calcPawnMoveTurns_pushes_witness :
  Z.testbit (calcPawnMoveTurns x86Shift 0xFF00 0xFFFF White) 28
  = existsb (fun s => Z.testbit 0xFF00 s && pawnPush White 0xFFFF s 28) squares.
Proof. apply (calcPawnMoveTurns_pushes x86Shift 0xFF00 0xFFFF White 28); lia. Defined.

End StepFacts.

(** ** Rooks, bishops and queens *)

Module SlideFacts.

Import CheckSpec CheckFacts BitFacts MoveSpec MoveFacts.

Lemma testbit_rayMoves ray smear allOppPieces allPieces i :
  0 <= i < 64 ->
  Z.testbit (rayMoves ray smear allOppPieces allPieces) i
  = Z.testbit ray i && negb (Z.testbit (smear (Z.land ray allPieces)) i)
    && (Z.testbit allOppPieces i || negb (Z.testbit allPieces i)).
Proof.
  intros Hi. unfold rayMoves.
  rewrite Z.land_spec, Z.lxor_spec, Z.land_spec, Z.lor_spec, testbit_not64 by exact Hi.
  destruct (Z.testbit ray i), (Z.testbit (smear (Z.land ray allPieces)) i); reflexivity.
Qed.

Lemma testbit_smearL_from u steps m i : forall acc,
  (forall k, In k steps -> 0 <= k < 64) -> 0 <= i < 64 ->
  Z.testbit (fold_left (fun acc s => Z.lor acc (shl64 u m s)) steps acc) i
  = Z.testbit acc i || existsb (fun k => Z.testbit m (i - k)) steps.
Proof.
  induction steps as [|k steps IH]; intros acc Hsteps Hi; cbn [fold_left existsb].
  - symmetry. apply orb_false_r.
  - rewrite IH; [|intros k' Hk'; apply Hsteps; right; exact Hk' | exact Hi].
    rewrite Z.lor_spec, testbit_shl64 by (try exact Hi; apply Hsteps; left; reflexivity).
    symmetry. apply orb_assoc.
Qed.

Lemma testbit_smearL u steps m i :
  (forall k, In k steps -> 0 <= k < 64) -> 0 <= i < 64 ->
  Z.testbit (smearL u steps m) i = existsb (fun k => Z.testbit m (i - k)) steps.
Proof.
  intros Hsteps Hi. unfold smearL. rewrite testbit_smearL_from by assumption.
  rewrite Z.bits_0. reflexivity.
Qed.

Lemma testbit_smearR_from u steps m i : forall acc,
  (forall k, In k steps -> 0 <= k < 64) -> 0 <= i < 64 ->
  Z.testbit (fold_left (fun acc s => Z.lor acc (shr64 u m s)) steps acc) i
  = Z.testbit acc i || existsb (fun k => Z.testbit m (i - k)) (map Z.opp steps).
Proof.
  induction steps as [|k steps IH]; intros acc Hsteps Hi; cbn [fold_left existsb map].
  - symmetry. apply orb_false_r.
  - rewrite IH; [|intros k' Hk'; apply Hsteps; right; exact Hk' | exact Hi].
    rewrite Z.lor_spec, testbit_shr64 by (try lia; apply Hsteps; left; reflexivity).
    replace (i - - k) with (i + k) by lia. symmetry. apply orb_assoc.
Qed.

Lemma testbit_smearR u steps m i :
  (forall k, In k steps -> 0 <= k < 64) -> 0 <= i < 64 ->
  Z.testbit (smearR u steps m) i = existsb (fun k => Z.testbit m (i - k)) (map Z.opp steps).
Proof.
  intros Hsteps Hi. unfold smearR. rewrite testbit_smearR_from by assumption.
  rewrite Z.bits_0. reflexivity.
Qed.

Lemma existsb_blockers ray allPieces offsets i :
  existsb (fun k => Z.testbit (Z.land ray allPieces) (i - k)) offsets
  = existsb (Z.testbit allPieces) (blockers ray offsets i).
Proof.
  unfold blockers. induction offsets as [|k offsets IH]; [reflexivity|].
  cbn [existsb map List.filter]. rewrite IH, Z.land_spec.
  destruct (Z.testbit ray (i - k)); reflexivity.
Qed.

Lemma negb_existsb {A : Type} (f : A -> bool) (l : list A) :
  negb (existsb f l) = forallb (fun x => negb (f x)) l.
Proof.
  induction l as [|x l IH]; [reflexivity|]. cbn [existsb forallb].
  rewrite negb_orb, IH. reflexivity.
Qed.

Lemma sameSquares_forallb (f : Z -> bool) (l1 l2 : list Z) :
  sameSquares l1 l2 = true -> forallb f l1 = forallb f l2.
Proof.
  intros Hsame. apply andb_true_iff in Hsame. destruct Hsame as [H12 H21].
  rewrite forallb_forall in H12, H21.
  apply eq_true_iff_eq. rewrite !forallb_forall. split; intros Hall x Hx.
  - specialize (H21 x Hx). apply existsb_exists in H21. destruct H21 as (y & Hy & Heq).
    apply Z.eqb_eq in Heq. subst y. apply Hall. exact Hy.
  - specialize (H12 x Hx). apply existsb_exists in H12. destruct H12 as (y & Hy & Heq).
    apply Z.eqb_eq in Heq. subst y. apply Hall. exact Hy.
Qed.

(** One ray of a slider, from the check of its ray bitboards and smear. *)
Lemma rayMoves_along (ray : Field -> Z) (smear : Z -> Z) (offsets : list Z) (dr df : Z)
    (allOppPieces allPieces : Z) (s i : Field) :
  rayCheck ray offsets dr df = true ->
  (forall m, Z.testbit (smear m) i = existsb (fun k => Z.testbit m (i - k)) offsets) ->
  0 <= s < 64 -> 0 <= i < 64 ->
  Z.testbit (rayMoves (ray s) smear allOppPieces allPieces) i
  = slidesAlong allPieces s i (dr, df)
    && (Z.testbit allOppPieces i || negb (Z.testbit allPieces i)).
Proof.
  intros Hcheck Hsmear Hs Hi. rewrite testbit_rayMoves by exact Hi. f_equal.
  rewrite Hsmear, existsb_blockers, negb_existsb.
  pose proof (forallb_squares _ (forallb_squares _ Hcheck s Hs) i Hi) as Htab.
  cbv beta zeta in Htab. unfold slidesAlong. cbn [fst snd].
  destruct (rayDistance dr df s i) as [k|].
  - apply andb_true_iff in Htab. destruct Htab as [Hray Hsame].
    rewrite Hray. cbn [andb]. apply sameSquares_forallb. exact Hsame.
  - apply negb_true_iff in Htab. rewrite Htab. reflexivity.
Qed.

Lemma rook_rays_check u :
  rayCheck (fun s => getBitsE u (bit s)) [1; 2; 3; 4; 5; 6; 7] 0 1 = true /\
  rayCheck (fun s => getBitsW (patch u 0) (bit s)) (map Z.opp [1; 2; 3; 4; 5; 6; 7]) 0 (-1)
  = true /\
  rayCheck (fun s => getBitsN u (bit s)) [8; 16; 24; 32; 40; 48; 56] 1 0 = true /\
  rayCheck (fun s => getBitsS u (bit s)) (map Z.opp [8; 16; 24; 32; 40; 48; 56]) (-1) 0
  = true.
Proof. repeat split; vm_compute; reflexivity. Qed.

Lemma bishop_rays_check u :
  rayCheck (fun s => getBitsNE u (bit s)) [9; 18; 27; 36; 45; 54] 1 1 = true /\
  rayCheck (fun s => getBitsNW u (bit s)) [7; 14; 21; 28; 35; 42] 1 (-1) = true /\
  rayCheck (fun s => getBitsSE u (bit s)) (map Z.opp [7; 14; 21; 28; 35; 42]) (-1) 1 = true /\
  rayCheck (fun s => getBitsSW u (bit s)) (map Z.opp [9; 18; 27; 36; 45; 54]) (-1) (-1)
  = true.
Proof. repeat split; vm_compute; reflexivity. Qed.

Ltac steps_in_range :=
  let k := fresh "k" in let Hk := fresh "Hk" in
  intros k Hk; cbn [In] in Hk;
  repeat (destruct Hk as [<-|Hk]; [lia|]); destruct Hk.

Lemma calcRookTurns_slides u s allOppPieces allPieces i :
  0 <= s < 64 -> 0 <= i < 64 -> (s = 0 -> westClean u) ->
  Z.testbit (calcRookTurns u (bit s) allOppPieces allPieces) i
  = slides rookDirections allOppPieces allPieces s i.
Proof.
  intros Hs Hi Hclean. destruct (rook_rays_check u) as (He & Hw & Hn & Hso).
  unfold calcRookTurns. cbv zeta. rewrite !Z.lor_spec.
  rewrite (getBitsW_patch u s Hs Hclean).
  rewrite (rayMoves_along (fun s => getBitsE u (bit s)) _ _ 0 1 _ _ s i He);
    [|intros m; apply testbit_smearL; [steps_in_range | exact Hi] | exact Hs | exact Hi].
  rewrite (rayMoves_along (fun s => getBitsW (patch u 0) (bit s)) _ _ 0 (-1) _ _ s i Hw);
    [|intros m; apply testbit_smearR; [steps_in_range | exact Hi] | exact Hs | exact Hi].
  rewrite (rayMoves_along (fun s => getBitsN u (bit s)) _ _ 1 0 _ _ s i Hn);
    [|intros m; apply testbit_smearL; [steps_in_range | exact Hi] | exact Hs | exact Hi].
  rewrite (rayMoves_along (fun s => getBitsS u (bit s)) _ _ (-1) 0 _ _ s i Hso);
    [|intros m; apply testbit_smearR; [steps_in_range | exact Hi] | exact Hs | exact Hi].
  unfold slides, rookDirections. cbn [existsb].
  destruct (slidesAlong allPieces s i (0, 1)), (slidesAlong allPieces s i (0, -1)),
    (slidesAlong allPieces s i (1, 0)), (slidesAlong allPieces s i (-1, 0)),
    (Z.testbit allOppPieces i || negb (Z.testbit allPieces i)); reflexivity.
Qed.

Lemma calcBishopTurns_slides u s allOppPieces allPieces i :
  0 <= s < 64 -> 0 <= i < 64 ->
  Z.testbit (calcBishopTurns u (bit s) allOppPieces allPieces) i
  = slides bishopDirections allOppPieces allPieces s i.
Proof.
  intros Hs Hi. destruct (bishop_rays_check u) as (Hne & Hnw & Hse & Hsw).
  unfold calcBishopTurns. cbv zeta. rewrite !Z.lor_spec.
  rewrite (rayMoves_along (fun s => getBitsNE u (bit s)) _ _ 1 1 _ _ s i Hne);
    [|intros m; apply testbit_smearL; [steps_in_range | exact Hi] | exact Hs | exact Hi].
  rewrite (rayMoves_along (fun s => getBitsNW u (bit s)) _ _ 1 (-1) _ _ s i Hnw);
    [|intros m; apply testbit_smearL; [steps_in_range | exact Hi] | exact Hs | exact Hi].
  rewrite (rayMoves_along (fun s => getBitsSE u (bit s)) _ _ (-1) 1 _ _ s i Hse);
    [|intros m; apply testbit_smearR; [steps_in_range | exact Hi] | exact Hs | exact Hi].
  rewrite (rayMoves_along (fun s => getBitsSW u (bit s)) _ _ (-1) (-1) _ _ s i Hsw);
    [|intros m; apply testbit_smearR; [steps_in_range | exact Hi] | exact Hs | exact Hi].
  unfold slides, bishopDirections. cbn [existsb].
  destruct (slidesAlong allPieces s i (1, 1)), (slidesAlong allPieces s i (1, -1)),
    (slidesAlong allPieces s i (-1, 1)), (slidesAlong allPieces s i (-1, -1)),
    (Z.testbit allOppPieces i || negb (Z.testbit allPieces i)); reflexivity.
Qed.

(** X10. [calcRookTurns] for a rook on square [s] and any occupancy: a
    square of the board is in the result exactly when it lies on the rank
    or file of [s], every square between is empty, and it is empty or
    holds an opposing piece.  For a rook on A1 this needs the out-of-range
    shift of [getBitsW] to leave the first rank empty. *)
Theorem calcRookTurns_reaches (u : UndefShift) (s : Field) (allOppPieces allPieces : Z)
    (i : Field) :
  0 <= s < 64 -> 0 <= i < 64 -> (s = 0 -> westClean u) ->
  Z.testbit (calcRookTurns u (bit s) allOppPieces allPieces) i
  = slides rookDirections allOppPieces allPieces s i.
Proof. apply calcRookTurns_slides. Qed.

Lemma calcRookTurns_reaches_witness :
  Z.testbit (calcRookTurns x86Shift (bit 0) 0x0100 0x0103) 8
  = slides rookDirections 0x0100 0x0103 0 8.
Proof.
  apply (calcRookTurns_reaches x86Shift 0 0x0100 0x0103 8); [lia | lia |].
  intros _. reflexivity.
Defined.

(** X11. [calcBishopTurns] for a bishop on square [s] and any occupancy: a
    square of the board is in the result exactly when it lies on a diagonal
    of [s], every square between is empty, and it is empty or holds an
    opposing piece. *)
Theorem calcBishopTurns_reaches (u : UndefShift) (s : Field) (allOppPieces allPieces : Z)
    (i : Field) :
  0 <= s < 64 -> 0 <= i < 64 ->
  Z.testbit (calcBishopTurns u (bit s) allOppPieces allPieces) i
  = slides bishopDirections allOppPieces allPieces s i.
Proof. apply calcBishopTurns_slides. Qed.

Lemma calcBishopTurns_reaches_witness :
  Z.testbit (calcBishopTurns x86Shift (bit 2) 0x0800 0x0A04) 11
  = slides bishopDirections 0x0800 0x0A04 2 11.
Proof. apply (calcBishopTurns_reaches x86Shift 2 0x0800 0x0A04 11); lia. Defined.

Lemma calcQueenTurns_slides (u : UndefShift) (s : Field) (allOppPieces allPieces : Z)
    (i : Field) :
  0 <= s < 64 -> 0 <= i < 64 -> (s = 0 -> westClean u) ->
  Z.testbit (calcQueenTurns u (bit s) allOppPieces allPieces) i
  = slides (rookDirections ++ bishopDirections) allOppPieces allPieces s i.
Proof.
  intros Hs Hi Hclean. unfold calcQueenTurns.
  rewrite Z.lor_spec, calcRookTurns_slides, calcBishopTurns_slides by assumption.
  unfold slides. rewrite existsb_app.
  destruct (existsb _ rookDirections), (existsb _ bishopDirections),
    (Z.testbit allOppPieces i || negb (Z.testbit allPieces i)); reflexivity.
Qed.

(** X12. [calcQueenTurns] for a queen on square [s]: the squares a rook or
    a bishop on [s] reaches, that is the squares along the eight directions
    up to and including the first occupied one unless it holds an own
    piece. *)
Theorem calcQueenTurns_reaches (u : UndefShift) (s : Field) (allOppPieces allPieces : Z)
    (i : Field) :
  0 <= s < 64 -> 0 <= i < 64 -> (s = 0 -> westClean u) ->
  Z.testbit (calcQueenTurns u (bit s) allOppPieces allPieces) i
  = slides (rookDirections ++ bishopDirections) allOppPieces allPieces s i.
Proof. apply calcQueenTurns_slides. Qed.

Lemma calcQueenTurns_reaches_witness :
  Z.testbit (calcQueenTurns x86Shift (bit 3) 0x0800 0x0808) 11
  = slides (rookDirections ++ bishopDirections) 0x0800 0x0808 3 11.
Proof. apply (calcQueenTurns_reaches x86Shift 3 0x0800 0x0808 11); lia. Defined.

End SlideFacts.

(** ** Castling and turn lists *)

Module TurnListFacts.

Import CheckSpec CheckFacts BitFacts MoveSpec MoveFacts StepFacts SlideFacts.

(** *** Castling *)

Lemma land_bit_zero x f : 0 <= f -> (Z.land x (bit f) =? 0) = negb (Z.testbit x f).
Proof.
  intros Hf. destruct (Z.testbit x f) eqn:Hb; cbn [negb].
  - apply Z.eqb_neq. intros Hz.
    assert (Hbit : Z.testbit (Z.land x (bit f)) f = false) by (rewrite Hz; apply Z.bits_0).
    rewrite Z.land_spec, Hb, testbit_bit, Z.eqb_refl in Hbit by exact Hf. discriminate.
  - apply Z.eqb_eq. apply Z.bits_inj'. intros i Hi.
    rewrite Z.land_spec, testbit_bit, Z.bits_0 by exact Hf.
    destruct (Z.eqb_spec f i) as [<-|Hne]; [rewrite Hb; reflexivity | apply andb_false_r].
Qed.

Lemma land_bitsOf_zero x fields :
  (forall f, In f fields -> 0 <= f) ->
  (Z.land x (bitsOf fields) =? 0) = noneSet x fields.
Proof.
  induction fields as [|f fields IH]; intros Hnn; cbn [bitsOf fold_right noneSet forallb].
  - rewrite Z.land_0_r. reflexivity.
  - fold (bitsOf fields). fold (noneSet x fields).
    rewrite Z.land_lor_distr_r.
    rewrite <- IH by (intros g Hg; apply Hnn; right; exact Hg).
    rewrite <- land_bit_zero by (apply Hnn; left; reflexivity).
    apply eq_true_iff_eq. rewrite andb_true_iff, !Z.eqb_eq. apply Z.lor_eq_0_iff.
Qed.

Lemma calcCastleTurns_cases (u : UndefShift) (player : PlayerColor)
    (bbAllPieces bbAllOppTurns : Z) :
  let h := homeRow player in
  calcShortCastleTurns u player bbAllPieces bbAllOppTurns
  = (if noneSet bbAllOppTurns [h + 4; h + 5; h + 6] && noneSet bbAllPieces [h + 6; h + 5]
     then bit (h + 6) else 0) /\
  calcLongCastleTurns u player bbAllPieces bbAllOppTurns
  = (if noneSet bbAllOppTurns [h + 4; h + 3; h + 2]
        && noneSet bbAllPieces [h + 3; h + 2; h + 1]
     then bit (h + 2) else 0).
Proof.
  assert (Hwhite :
    calcShortCastleTurns u White bbAllPieces bbAllOppTurns
    = (if noneSet bbAllOppTurns [4; 5; 6] && noneSet bbAllPieces [6; 5] then bit 6 else 0) /\
    calcLongCastleTurns u White bbAllPieces bbAllOppTurns
    = (if noneSet bbAllOppTurns [4; 3; 2] && noneSet bbAllPieces [3; 2; 1]
       then bit 2 else 0)).
  { unfold calcShortCastleTurns, calcLongCastleTurns.
    change (generateBitBoard u [E1; F1; G1; ERR]) with (bitsOf [4; 5; 6]).
    change (generateBitBoard u [E1; D1; C1; ERR]) with (bitsOf [4; 3; 2]).
    rewrite !land_bitsOf_zero
      by (intros f Hf; cbn [In] in Hf; repeat (destruct Hf as [<-|Hf]; [lia|]); destruct Hf).
    unfold G1, F1, D1, C1, B1.
    rewrite !BIT_ISSET_testbit, !BIT_SET_zero by lia.
    cbn [noneSet forallb]. rewrite !andb_true_r, !andb_assoc. split; reflexivity. }
  assert (Hblack :
    calcShortCastleTurns u Black bbAllPieces bbAllOppTurns
    = (if noneSet bbAllOppTurns [60; 61; 62] && noneSet bbAllPieces [62; 61]
       then bit 62 else 0) /\
    calcLongCastleTurns u Black bbAllPieces bbAllOppTurns
    = (if noneSet bbAllOppTurns [60; 59; 58] && noneSet bbAllPieces [59; 58; 57]
       then bit 58 else 0)).
  { unfold calcShortCastleTurns, calcLongCastleTurns.
    change (generateBitBoard u [E8; F8; G8; ERR]) with (bitsOf [60; 61; 62]).
    change (generateBitBoard u [E8; D8; C8; ERR]) with (bitsOf [60; 59; 58]).
    rewrite !land_bitsOf_zero
      by (intros f Hf; cbn [In] in Hf; repeat (destruct Hf as [<-|Hf]; [lia|]); destruct Hf).
    unfold G8, F8, D8, C8, B8.
    rewrite !BIT_ISSET_testbit, !BIT_SET_zero by lia.
    cbn [noneSet forallb]. rewrite !andb_true_r, !andb_assoc. split; reflexivity. }
  destruct player; [exact Hwhite | exact Hblack | exact Hblack].
Qed.

(** X13. Castling is offered (the king's target square is returned) exactly
    when none of the three squares the king stands on, passes and reaches is
    among the opponent's turns and the squares between king and rook are
    empty; otherwise the result is the empty board.  Any player other than
    White is treated as Black. *)
Theorem castling_conditions (u : UndefShift) (player : PlayerColor)
    (bbAllPieces bbAllOppTurns : Z) :
  let h := homeRow player in
  calcShortCastleTurns u player bbAllPieces bbAllOppTurns
  = (if noneSet bbAllOppTurns [h + 4; h + 5; h + 6] && noneSet bbAllPieces [h + 6; h + 5]
     then bit (h + 6) else 0) /\
  calcLongCastleTurns u player bbAllPieces bbAllOppTurns
  = (if noneSet bbAllOppTurns [h + 4; h + 3; h + 2]
        && noneSet bbAllPieces [h + 3; h + 2; h + 1]
     then bit (h + 2) else 0).
Proof. apply calcCastleTurns_cases. Qed.


(** *** From bitboards to turns *)

Lemma bitBoardToTurns_iff u p f bb t :
  0 <= bb < 2 ^ 64 ->
  In t (bitBoardToTurns u p f bb) <->
  piece t = p /\ from t = f /\ Z.testbit bb (to t) = true /\
  (if isPromotion p (to t) then In (action t) promotions else action t = Move).
Proof.
  intros Hbb. unfold bitBoardToTurns. rewrite in_flat_map. split.
  - intros (dest & Hdest & Hin).
    apply (proj1 (fieldsOf_spec u bb dest Hbb)) in Hdest.
    fold (isPromotion p dest) in Hin. destruct (isPromotion p dest) eqn:Hprom.
    + unfold Turn_promotionQueen, Turn_promotionBishop, Turn_promotionRook,
        Turn_promotionKnight in Hin. cbn [In] in Hin.
      repeat (destruct Hin as [<-|Hin];
              [cbn [piece from to action]; rewrite Hprom; unfold promotions; cbn [In];
               repeat split; tauto|]).
      destruct Hin.
    + unfold Turn_move in Hin. destruct Hin as [<-|[]].
      cbn [piece from to action]. rewrite Hprom. repeat split.
      exact Hdest.
  - intros (Hp & Hf & Hb & Hact). exists (to t).
    split; [apply (proj2 (fieldsOf_spec u bb (to t) Hbb)); exact Hb|].
    fold (isPromotion p (to t)). destruct t as [p' f' dest act].
    cbn [piece from to action] in *. subst p' f'. destruct (isPromotion p dest).
    + unfold promotions in Hact. cbn [In] in Hact |- *.
      unfold Turn_promotionQueen, Turn_promotionBishop, Turn_promotionRook,
        Turn_promotionKnight.
      destruct Hact as [<-|[<-|[<-|[<-|[]]]]]; tauto.
    + subst act. left. reflexivity.
Qed.

(** X14. [bitBoardToTurns] lists, for every set bit of a 64-bit board, one
    Move turn of the given piece from the given field, or the four
    promotion turns (queen, bishop, rook, knight) and no Move when the
    piece is a pawn and the target lies on the first or the last rank; it
    lists nothing else. *)
Theorem bitBoardToTurns_lists_targets (u : UndefShift) (p : Piece) (f : Field) (bb : Z)
    (t : Turn) :
  0 <= bb < 2 ^ 64 ->
  In t (bitBoardToTurns u p f bb) <->
  piece t = p /\ from t = f /\ Z.testbit bb (to t) = true /\
  (if isPromotion p (to t) then In (action t) promotions else action t = Move).
Proof. apply bitBoardToTurns_iff. Qed.

Lemma bitBoardToTurns_lists_targets_witness :
  In (Turn_promotionRook (mkPiece White Pawn) 52 60)
     (bitBoardToTurns x86Shift (mkPiece White Pawn) 52 (bit 60)).
Proof.
  apply (bitBoardToTurns_lists_targets x86Shift (mkPiece White Pawn) 52 (bit 60)
           (Turn_promotionRook (mkPiece White Pawn) 52 60)).
  - vm_compute. split; [discriminate | reflexivity].
  - cbn [piece from to action Turn_promotionRook]. repeat split.
    vm_compute. tauto.
Defined.

End TurnListFacts.

(** ** The generation pass *)

Module GeneratorFacts.

Import CheckSpec CheckFacts BitFacts MoveSpec MoveFacts StepFacts SlideFacts TurnListFacts.

(** *** The turn list of a generation pass *)

Lemma castleTurns_setKingInCheck u player cb c v a o :
  castleTurns u player (setKingInCheck cb c v) a o = castleTurns u player cb a o.
Proof. reflexivity. Qed.

Lemma generateTurns_fst u player cb :
  fst (generateTurns u player cb)
  = if Z.land (m_bb cb player King) (calcAllOppTurns u (togglePlayerColor player) cb)
       =? m_bb cb player King
    then pieceTurns u player cb (calcAllOppTurns u (togglePlayerColor player) cb)
           (Some (calcUnCheckFields u (togglePlayerColor player) cb))
    else castleTurns u player cb (Z.lor (m_bb cb White AllPieces) (m_bb cb Black AllPieces))
           (calcAllOppTurns u (togglePlayerColor player) cb)
         ++ pieceTurns u player cb (calcAllOppTurns u (togglePlayerColor player) cb) None.
Proof.
  unfold generateTurns. cbn [m_bb setKingInCheck].
  destruct (Z.land (m_bb cb player King) (calcAllOppTurns u (togglePlayerColor player) cb)
            =? m_bb cb player King); cbn [fst].
  - rewrite !calcUnCheckFields_setKingInCheck, !pieceTurns_setKingInCheck. reflexivity.
  - rewrite !castleTurns_setKingInCheck, !pieceTurns_setKingInCheck. reflexivity.
Qed.

Lemma bitBoardToTurns_sub u p f bb bb' t :
  0 <= bb' < 2 ^ 64 ->
  (forall i, Z.testbit bb' i = true -> Z.testbit bb i = true) ->
  In t (bitBoardToTurns u p f bb') ->
  piece t = p /\ from t = f /\ 0 <= to t < 64 /\ Z.testbit bb (to t) = true /\
  (if isPromotion p (to t) then In (action t) promotions else action t = Move).
Proof.
  intros Hbb' Himp Hin.
  destruct (proj1 (bitBoardToTurns_iff u p f bb' t Hbb') Hin) as (Hp & Hf & Hb & Hact).
  split; [exact Hp|]. split; [exact Hf|].
  split; [exact (testbit_true_range bb' (to t) Hbb' Hb)|].
  split; [exact (Himp _ Hb) | exact Hact].
Qed.

Lemma masked_sub (m : option Z) (b : bool) (bb : Z) :
  0 <= bb < 2 ^ 64 ->
  0 <= match m with
       | Some mask => if b then Z.land bb mask else bb
       | None => bb
       end < 2 ^ 64 /\
  (forall i, Z.testbit match m with
                       | Some mask => if b then Z.land bb mask else bb
                       | None => bb
                       end i = true -> Z.testbit bb i = true).
Proof.
  intros Hbb. destruct m as [mask|]; [destruct b|].
  - split; [rewrite Z.land_comm; apply land_in_range; exact Hbb|].
    intros i Hb. rewrite Z.land_spec in Hb. apply andb_true_iff in Hb. apply Hb.
  - split; [exact Hbb | intros i Hb; exact Hb].
  - split; [exact Hbb | intros i Hb; exact Hb].
Qed.

Lemma pieceTurns_unfold u player cb o m :
  pieceTurns u player cb o m
  = flat_map (fun t' =>
      flat_map (fun pos =>
        bitBoardToTurns u (mkPiece player t') pos
          match m with
          | Some mask =>
              if negb (PieceType_eqb t' King)
              then Z.land (calcMoveTurns u (mkPiece player t') (BIT_SET u 0 pos) o cb) mask
              else calcMoveTurns u (mkPiece player t') (BIT_SET u 0 pos) o cb
          | None => calcMoveTurns u (mkPiece player t') (BIT_SET u 0 pos) o cb
          end)
      (fieldsOf u (m_bb cb player t')))
    pieceTypes.
Proof. reflexivity. Qed.

Lemma pieceTurns_elim u player cb o m t :
  bitboardsInRange cb ->
  In t (pieceTurns u player cb o m) ->
  exists t' pos,
    In t' pieceTypes /\ 0 <= pos < 64 /\ Z.testbit (m_bb cb player t') pos = true /\
    piece t = mkPiece player t' /\ from t = pos /\ 0 <= to t < 64 /\
    Z.testbit (calcMoveTurns u (mkPiece player t') (bit pos) o cb) (to t) = true /\
    (if isPromotion (mkPiece player t') (to t) then In (action t) promotions
     else action t = Move).
Proof.
  intros Hrange Hin. rewrite pieceTurns_unfold in Hin.
  apply in_flat_map in Hin. destruct Hin as (t' & Ht' & Hin).
  apply in_flat_map in Hin. destruct Hin as (pos & Hpos & Hin).
  pose proof (fieldsOf_range u _ pos (Hrange player t') Hpos) as Hpr.
  pose proof (proj1 (fieldsOf_spec u _ pos (Hrange player t')) Hpos) as Hbit.
  pose proof (calcMoveTurns_range u (mkPiece player t') (BIT_SET u 0 pos) o cb Hrange) as Hmr.
  destruct (masked_sub m (negb (PieceType_eqb t' King)) _ Hmr) as [Hr Hsub].
  pose proof (bitBoardToTurns_sub u (mkPiece player t') pos _ _ t Hr Hsub Hin) as Hres.
  rewrite (BIT_SET_zero u pos Hpr) in Hres.
  exists t', pos. split; [exact Ht'|]. split; [exact Hpr|]. split; [exact Hbit|]. exact Hres.
Qed.

Lemma castleTurns_elim u player cb a o t :
  In t (castleTurns u player cb a o) ->
  action t = Castle /\
  piece t = mkPiece (match player with White => White | _ => Black end) King /\
  from t = homeRow player + 4 /\
  ((to t = homeRow player + 6 /\ m_shortCastleRight cb player = true /\
    calcShortCastleTurns u player a o <> 0) \/
   (to t = homeRow player + 2 /\ m_longCastleRight cb player = true /\
    calcLongCastleTurns u player a o <> 0)).
Proof.
  unfold castleTurns. intros Hin. apply in_app_or in Hin. destruct Hin as [Hin|Hin].
  - destruct (m_shortCastleRight cb player); [|destruct Hin].
    destruct (Z.eqb_spec (calcShortCastleTurns u player a o) 0) as [Hz|Hnz];
      cbn [negb] in Hin; [destruct Hin|].
    destruct player; destruct Hin as [<-|[]]; repeat split; left; repeat split; exact Hnz.
  - destruct (m_longCastleRight cb player); [|destruct Hin].
    destruct (Z.eqb_spec (calcLongCastleTurns u player a o) 0) as [Hz|Hnz];
      cbn [negb] in Hin; [destruct Hin|].
    destruct player; destruct Hin as [<-|[]]; repeat split; right; repeat split; exact Hnz.
Qed.

Lemma promotion_not_castle p dest act :
  (if isPromotion p dest then In act promotions else act = Move) -> act <> Castle.
Proof.
  destruct (isPromotion p dest); [|intros ->; discriminate].
  unfold promotions. cbn [In]. intros [<-|[<-|[<-|[<-|[]]]]]; discriminate.
Qed.

(** X15. A generation pass changes nothing of the board but the flags: the
    bitboards, castling rights, en passant square, clocks and next player
    are kept.  Starting with the flag clear, checkmate of the player is
    flagged exactly when the turn list is empty and his king is found in
    check, and stalemate exactly when the list is empty and the king is
    not in check. *)
Theorem generateTurns_game_end_flags (u : UndefShift) (player : PlayerColor)
    (cb : ChessBoard) :
  let turns := fst (generateTurns u player cb) in
  let cb' := snd (generateTurns u player cb) in
  (m_bb cb' = m_bb cb /\
   m_shortCastleRight cb' = m_shortCastleRight cb /\
   m_longCastleRight cb' = m_longCastleRight cb /\
   m_enPassantSquare cb' = m_enPassantSquare cb /\
   m_halfMoveClock cb' = m_halfMoveClock cb /\
   m_fullMoveClock cb' = m_fullMoveClock cb /\
   m_nextPlayer cb' = m_nextPlayer cb) /\
  (m_checkmate cb player = false ->
   (m_checkmate cb' player = true <-> turns = [] /\ m_kingInCheck cb' player = true)) /\
  (m_stalemate cb = false ->
   (m_stalemate cb' = true <-> turns = [] /\ m_kingInCheck cb' player = false)).
Proof.
  cbv zeta. unfold generateTurns. cbn [m_bb setKingInCheck].
  assert (Hself : PlayerColor_eqb player player = true) by (destruct player; reflexivity).
  destruct (Z.land (m_bb cb player King) (calcAllOppTurns u (togglePlayerColor player) cb)
            =? m_bb cb player King).
  - match goal with |- context [match ?l with [] => _ | _ => _ end] => destruct l eqn:Hl end;
      cbn [fst snd m_bb m_shortCastleRight m_longCastleRight m_enPassantSquare
           m_halfMoveClock m_fullMoveClock m_nextPlayer m_checkmate m_stalemate
           m_kingInCheck setCheckmate setKingInCheck];
      unfold setFlag; rewrite Hself.
    + split; [repeat split|]. split; intros Hclear.
      * split; [intros _; split; reflexivity | reflexivity].
      * rewrite Hclear. split; [discriminate | intros [_ Hf]; discriminate].
    + split; [repeat split|]. split; intros Hclear.
      * rewrite Hclear. split; [discriminate | intros [Hf _]; discriminate].
      * rewrite Hclear. split; [discriminate | intros [Hf _]; discriminate].
  - match goal with |- context [match ?l with [] => _ | _ => _ end] => destruct l eqn:Hl end;
      cbn [fst snd m_bb m_shortCastleRight m_longCastleRight m_enPassantSquare
           m_halfMoveClock m_fullMoveClock m_nextPlayer m_checkmate m_stalemate
           m_kingInCheck setStalemate setKingInCheck];
      unfold setFlag; rewrite Hself.
    + split; [repeat split|]. split; intros Hclear.
      * rewrite Hclear. split; [discriminate | intros [_ Hf]; discriminate].
      * split; [intros _; split; reflexivity | reflexivity].
    + split; [repeat split|]. split; intros Hclear.
      * rewrite Hclear. split; [discriminate | intros [Hf _]; discriminate].
      * rewrite Hclear. split; [discriminate | intros [Hf _]; discriminate].
Qed.

Lemma generateTurns_game_end_flags_witness :
  (m_checkmate (snd (generateTurns x86Shift White rookCheckBoard)) White = true <->
   fst (generateTurns x86Shift White rookCheckBoard) = [] /\
   m_kingInCheck (snd (generateTurns x86Shift White rookCheckBoard)) White = true) /\
  (m_stalemate (snd (generateTurns x86Shift White rookCheckBoard)) = true <->
   fst (generateTurns x86Shift White rookCheckBoard) = [] /\
   m_kingInCheck (snd (generateTurns x86Shift White rookCheckBoard)) White = false).
Proof.
  destruct (generateTurns_game_end_flags x86Shift White rookCheckBoard) as (_ & Hc & Hs).
  split; [apply Hc | apply Hs]; reflexivity.
Defined.

(** *** Shape of the generated turns *)

Lemma PlayerColor_eqb_refl c : PlayerColor_eqb c c = true.
Proof. destruct c; reflexivity. Qed.

Lemma castle_short_nonzero u player a o :
  calcShortCastleTurns u player a o <> 0 ->
  noneSet o [homeRow player + 4; homeRow player + 5; homeRow player + 6] = true /\
  noneSet a [homeRow player + 6; homeRow player + 5] = true.
Proof.
  intros Hnz. destruct (calcCastleTurns_cases u player a o) as [Hs _]. cbv zeta in Hs.
  rewrite Hs in Hnz.
  destruct (noneSet o _); [|contradiction]. destruct (noneSet a _); [|contradiction].
  split; reflexivity.
Qed.

Lemma castle_long_nonzero u player a o :
  calcLongCastleTurns u player a o <> 0 ->
  noneSet o [homeRow player + 4; homeRow player + 3; homeRow player + 2] = true /\
  noneSet a [homeRow player + 3; homeRow player + 2; homeRow player + 1] = true.
Proof.
  intros Hnz. destruct (calcCastleTurns_cases u player a o) as [_ Hl]. cbv zeta in Hl.
  rewrite Hl in Hnz.
  destruct (noneSet o _); [|contradiction]. destruct (noneSet a _); [|contradiction].
  split; reflexivity.
Qed.

Lemma noneSet_In bb fields f : noneSet bb fields = true -> In f fields -> Z.testbit bb f = false.
Proof.
  unfold noneSet. rewrite forallb_forall. intros Hall Hin.
  apply negb_true_iff. apply Hall. exact Hin.
Qed.

Lemma homeRow_range player : homeRow player = 0 \/ homeRow player = 56.
Proof. destruct player; [left | right | right]; reflexivity. Qed.

(** X16. Every turn generated for White or Black on a board of 64-bit
    bitboards is a turn of that player onto a square of the board.  It is
    either a castling turn of the king from the E-file of the home rank to
    the G- or C-file, generated only with the matching castling right and
    the king not in check, or a Move or promotion turn from a square that
    holds a piece of the turn's type, to a square of that piece's move
    set. *)
Theorem generated_turns_wellformed (u : UndefShift) (player : PlayerColor) (cb : ChessBoard)
    (t : Turn) :
  player = White \/ player = Black ->
  bitboardsInRange cb ->
  In t (fst (generateTurns u player cb)) ->
  ChessTypes.player (piece t) = player /\ 0 <= to t < 64 /\
  ((action t = Castle /\ type (piece t) = King /\ from t = homeRow player + 4 /\
    ((to t = homeRow player + 6 /\ m_shortCastleRight cb player = true) \/
     (to t = homeRow player + 2 /\ m_longCastleRight cb player = true)) /\
    m_kingInCheck (snd (generateTurns u player cb)) player = false)
   \/
   (action t <> Castle /\ In (type (piece t)) pieceTypes /\ 0 <= from t < 64 /\
    Z.testbit (m_bb cb player (type (piece t))) (from t) = true /\
    Z.testbit (calcMoveTurns u (piece t) (bit (from t))
                 (calcAllOppTurns u (togglePlayerColor player) cb) cb) (to t) = true /\
    (if isPromotion (piece t) (to t) then In (action t) promotions else action t = Move))).
Proof.
  intros Hplayer Hrange Hin. rewrite generateTurns_fst in Hin.
  assert (Hpiece : In t (pieceTurns u player cb
                           (calcAllOppTurns u (togglePlayerColor player) cb)
                           (Some (calcUnCheckFields u (togglePlayerColor player) cb)))
                   \/ In t (pieceTurns u player cb
                              (calcAllOppTurns u (togglePlayerColor player) cb) None) ->
          ChessTypes.player (piece t) = player /\ 0 <= to t < 64 /\
          (action t <> Castle /\ In (type (piece t)) pieceTypes /\ 0 <= from t < 64 /\
           Z.testbit (m_bb cb player (type (piece t))) (from t) = true /\
           Z.testbit (calcMoveTurns u (piece t) (bit (from t))
                        (calcAllOppTurns u (togglePlayerColor player) cb) cb) (to t) = true /\
           (if isPromotion (piece t) (to t) then In (action t) promotions
            else action t = Move))).
  { intros Hor.
    assert (Hex : exists m, In t (pieceTurns u player cb
                                    (calcAllOppTurns u (togglePlayerColor player) cb) m))
      by (destruct Hor as [Hor|Hor]; eexists; exact Hor).
    destruct Hex as (m & Hm).
    destruct (pieceTurns_elim u player cb _ m t Hrange Hm)
      as (t' & pos & Ht' & Hpos & Hbit & Hp & Hf & Hto & Hmove & Hact).
    rewrite Hp, Hf. cbn [ChessTypes.player type].
    split; [reflexivity|]. split; [exact Hto|].
    split; [exact (promotion_not_castle _ _ _ Hact)|].
    split; [exact Ht'|]. split; [exact Hpos|]. split; [exact Hbit|].
    split; [exact Hmove | exact Hact]. }
  destruct (Z.land (m_bb cb player King) (calcAllOppTurns u (togglePlayerColor player) cb)
            =? m_bb cb player King) eqn:Hcheck.
  - destruct (Hpiece (or_introl Hin)) as (H1 & H2 & H3).
    split; [exact H1|]. split; [exact H2|]. right. exact H3.
  - apply in_app_or in Hin. destruct Hin as [Hin|Hin].
    + apply castleTurns_elim in Hin. destruct Hin as (Hact & Hp & Hf & Hto).
      pose proof (homeRow_range player) as Hh.
      split; [rewrite Hp; destruct Hplayer as [->| ->]; reflexivity|].
      split; [destruct Hto as [(-> & _)|(-> & _)]; lia|].
      left. split; [exact Hact|]. split; [rewrite Hp; reflexivity|]. split; [exact Hf|].
      split; [destruct Hto as [(Hto & Hr & _)|(Hto & Hr & _)]; [left | right]; split; assumption|].
      rewrite generateTurns_kingInCheck, PlayerColor_eqb_refl. exact Hcheck.
    + destruct (Hpiece (or_intror Hin)) as (H1 & H2 & H3).
      split; [exact H1|]. split; [exact H2|]. right. exact H3.
Qed.

Lemma generated_turns_wellformed_witness :
  ChessTypes.player (piece (Turn_move (mkPiece White Knight) 6 21)) = White /\
  0 <= to (Turn_move (mkPiece White Knight) 6 21) < 64.
Proof.
  destruct (generated_turns_wellformed x86Shift White startBoard
              (Turn_move (mkPiece White Knight) 6 21)) as (H1 & H2 & _).
  - left. reflexivity.
  - intros c t. destruct c, t; vm_compute; split; first [discriminate | reflexivity].
  - vm_compute. tauto.
  - split; [exact H1 | exact H2].
Defined.

(** *** The king stays off the opponent's turns *)

Lemma calcKingTurns_avoids u king own o i :
  Z.testbit (calcKingTurns u king own o) i = true -> Z.testbit o i = false.
Proof.
  unfold calcKingTurns. cbv zeta. rewrite Z.lxor_spec, (Z.land_spec o).
  destruct (Z.testbit o i); [|reflexivity].
  destruct (Z.testbit (Z.land _ (not64 own)) i); discriminate.
Qed.

(** X17. No turn of the king generated on a board of 64-bit bitboards, be
    it a Move or a castling turn, ends on a square that [calcAllOppTurns]
    lists for the opponent. *)
Theorem king_turns_avoid_opponent_turns (u : UndefShift) (player : PlayerColor)
    (cb : ChessBoard) (t : Turn) :
  bitboardsInRange cb ->
  In t (fst (generateTurns u player cb)) ->
  type (piece t) = King ->
  Z.testbit (calcAllOppTurns u (togglePlayerColor player) cb) (to t) = false.
Proof.
  intros Hrange Hin Hking. rewrite generateTurns_fst in Hin.
  assert (Hpiece : forall m,
            In t (pieceTurns u player cb (calcAllOppTurns u (togglePlayerColor player) cb) m) ->
            Z.testbit (calcAllOppTurns u (togglePlayerColor player) cb) (to t) = false).
  { intros m Hm.
    destruct (pieceTurns_elim u player cb _ m t Hrange Hm)
      as (t' & pos & _ & _ & _ & Hp & _ & _ & Hmove & _).
    rewrite Hp in Hking. cbn [type] in Hking. subst t'.
    unfold calcMoveTurns in Hmove. cbn [type ChessTypes.player] in Hmove.
    exact (calcKingTurns_avoids u _ _ _ _ Hmove). }
  destruct (Z.land (m_bb cb player King) (calcAllOppTurns u (togglePlayerColor player) cb)
            =? m_bb cb player King).
  - exact (Hpiece _ Hin).
  - apply in_app_or in Hin. destruct Hin as [Hin|Hin]; [|exact (Hpiece _ Hin)].
    apply castleTurns_elim in Hin. destruct Hin as (_ & _ & _ & Hto).
    destruct Hto as [(-> & _ & Hnz)|(-> & _ & Hnz)].
    + apply castle_short_nonzero in Hnz. destruct Hnz as [Hsafe _].
      apply (noneSet_In _ _ _ Hsafe). cbn [In]. tauto.
    + apply castle_long_nonzero in Hnz. destruct Hnz as [Hsafe _].
      apply (noneSet_In _ _ _ Hsafe). cbn [In]. tauto.
Qed.

Lemma startBoard_in_range : bitboardsInRange startBoard.
Proof. intros c t. destruct c, t; vm_compute; split; first [discriminate | reflexivity]. Qed.

Lemma rookCheckBoard_range : bitboardsInRange rookCheckBoard.
Proof. intros c t. destruct c, t; vm_compute; split; first [discriminate | reflexivity]. Qed.

Lemma king_turns_avoid_opponent_turns_witness :
  Z.testbit (calcAllOppTurns x86Shift Black rookCheckBoard) 3 = false.
Proof.
  apply (king_turns_avoid_opponent_turns x86Shift White rookCheckBoard
           (Turn_move (mkPiece White King) 4 3)).
  - exact rookCheckBoard_range.
  - vm_compute. tauto.
  - reflexivity.
Defined.

(** *** No turn onto an own piece *)

Lemma rayMoves_target ray smear o a i :
  0 <= i < 64 -> Z.testbit (rayMoves ray smear o a) i = true ->
  Z.testbit o i || negb (Z.testbit a i) = true.
Proof.
  intros Hi. rewrite testbit_rayMoves by exact Hi.
  intros Hb. apply andb_true_iff in Hb. apply Hb.
Qed.

Lemma calcRookTurns_target u r o a i :
  0 <= i < 64 -> Z.testbit (calcRookTurns u r o a) i = true ->
  Z.testbit o i || negb (Z.testbit a i) = true.
Proof.
  intros Hi. unfold calcRookTurns. cbv zeta. rewrite !Z.lor_spec. intros Hb.
  repeat (apply orb_true_iff in Hb; destruct Hb as [Hb|Hb]);
    exact (rayMoves_target _ _ _ _ _ Hi Hb).
Qed.

Lemma calcBishopTurns_target u b o a i :
  0 <= i < 64 -> Z.testbit (calcBishopTurns u b o a) i = true ->
  Z.testbit o i || negb (Z.testbit a i) = true.
Proof.
  intros Hi. unfold calcBishopTurns. cbv zeta. rewrite !Z.lor_spec. intros Hb.
  repeat (apply orb_true_iff in Hb; destruct Hb as [Hb|Hb]);
    exact (rayMoves_target _ _ _ _ _ Hi Hb).
Qed.

Lemma target_not_own own opp i :
  Z.land own opp = 0 ->
  Z.testbit opp i || negb (Z.testbit (Z.lor own opp) i) = true ->
  Z.testbit own i = false.
Proof.
  intros Hdisj Hb.
  assert (Hboth : Z.testbit own i && Z.testbit opp i = false)
    by (rewrite <- Z.land_spec, Hdisj; apply Z.bits_0).
  rewrite Z.lor_spec in Hb.
  destruct (Z.testbit own i), (Z.testbit opp i); try reflexivity; discriminate.
Qed.

Lemma calcPawnTurns_not_own u pawns own opp player ep i :
  0 <= i < 64 -> Z.land own opp = 0 ->
  ep = ERR \/ (0 <= ep < 64 /\ Z.testbit own ep = false) ->
  Z.testbit (calcPawnTurns u pawns opp (Z.lor own opp) player ep) i = true ->
  Z.testbit own i = false.
Proof.
  intros Hi Hdisj Hep. unfold calcPawnTurns. rewrite Z.lor_spec. intros Hb.
  assert (Hboth : Z.testbit own i && Z.testbit opp i = false)
    by (rewrite <- Z.land_spec, Hdisj; apply Z.bits_0).
  apply orb_true_iff in Hb. destruct Hb as [Hb|Hb].
  - assert (Hfree : negb (Z.testbit (Z.lor own opp) i) = true).
    { unfold calcPawnMoveTurns in Hb. destruct player; cbv beta iota zeta in Hb.
      - rewrite Z.lor_spec, !Z.land_spec, testbit_not64 in Hb by exact Hi.
        apply orb_true_iff in Hb. destruct Hb as [Hb|Hb];
          apply andb_true_iff in Hb; apply Hb.
      - rewrite Z.lor_spec, !Z.land_spec, testbit_not64 in Hb by exact Hi.
        apply orb_true_iff in Hb. destruct Hb as [Hb|Hb];
          apply andb_true_iff in Hb; apply Hb.
      - change (Z.lor 0 0) with 0 in Hb. rewrite Z.bits_0 in Hb. discriminate. }
    rewrite Z.lor_spec in Hfree. destruct (Z.testbit own i); [discriminate | reflexivity].
  - assert (Htarget : Z.testbit opp i || (ep =? i) = true).
    { unfold calcPawnAttackTurns in Hb.
      assert (Hopp : Z.testbit (if negb (ep =? ERR) then BIT_SET u opp ep else opp) i
                     = true).
      { destruct player; cbv beta iota zeta in Hb; rewrite Z.land_spec in Hb;
          apply andb_true_iff in Hb; apply Hb. }
      destruct Hep as [->|[Hr _]].
      - change (negb (ERR =? ERR)) with false in Hopp. cbv iota in Hopp.
        rewrite Hopp. reflexivity.
      - replace (ep =? ERR) with false in Hopp
          by (symmetry; apply Z.eqb_neq; unfold ERR; lia).
        cbn [negb] in Hopp. rewrite BIT_SET_bits in Hopp by exact Hr. exact Hopp. }
    apply orb_true_iff in Htarget. destruct Htarget as [Ho|He].
    + rewrite Ho in Hboth. destruct (Z.testbit own i); [discriminate | reflexivity].
    + apply Z.eqb_eq in He. subst i. destruct Hep as [->|[_ Hown]]; [unfold ERR in Hi; lia|].
      exact Hown.
Qed.

Lemma calcMoveTurns_not_own u player cb t' bb o i :
  player = White \/ player = Black ->
  consistentFor cb player -> 0 <= i < 64 ->
  Z.testbit (calcMoveTurns u (mkPiece player t') bb o cb) i = true ->
  Z.testbit (m_bb cb player AllPieces) i = false.
Proof.
  intros Hplayer (Hrange & Hdisj & Hep) Hi.
  assert (Hopp : match player with White => Black | _ => White end = togglePlayerColor player)
    by (destruct Hplayer as [->| ->]; reflexivity).
  unfold calcMoveTurns. cbn [type ChessTypes.player]. rewrite Hopp.
  destruct t'.
  - unfold calcKingTurns. cbv zeta. rewrite Z.lxor_spec, !Z.land_spec, testbit_not64 by exact Hi.
    destruct (Z.testbit (m_bb cb player AllPieces) i); [|reflexivity].
    rewrite !andb_false_r. discriminate.
  - unfold calcQueenTurns. rewrite Z.lor_spec. intros Hb.
    apply (target_not_own _ _ i Hdisj).
    apply orb_true_iff in Hb. destruct Hb as [Hb|Hb];
      [exact (calcRookTurns_target _ _ _ _ _ Hi Hb)
      | exact (calcBishopTurns_target _ _ _ _ _ Hi Hb)].
  - intros Hb. apply (target_not_own _ _ i Hdisj).
    exact (calcBishopTurns_target _ _ _ _ _ Hi Hb).
  - unfold calcKnightTurns. cbv zeta. rewrite Z.land_spec, testbit_not64 by exact Hi.
    destruct (Z.testbit (m_bb cb player AllPieces) i); [|reflexivity].
    rewrite andb_false_r. discriminate.
  - intros Hb. apply (target_not_own _ _ i Hdisj).
    exact (calcRookTurns_target _ _ _ _ _ Hi Hb).
  - apply calcPawnTurns_not_own; assumption.
  - rewrite Z.bits_0. discriminate.
  - rewrite Z.bits_0. discriminate.
Qed.

(** X18. On a consistent board (64-bit bitboards, no square shared by the
    two colours, the en passant square free of the player's pieces) no
    turn generated for White or Black ends on a square that holds a piece
    of the player. *)
Theorem generated_turns_spare_own_pieces (u : UndefShift) (player : PlayerColor)
    (cb : ChessBoard) (t : Turn) :
  player = White \/ player = Black ->
  consistentFor cb player ->
  In t (fst (generateTurns u player cb)) ->
  Z.testbit (m_bb cb player AllPieces) (to t) = false.
Proof.
  intros Hplayer Hcons Hin. pose proof Hcons as (Hrange & _ & _).
  rewrite generateTurns_fst in Hin.
  assert (Hpiece : forall m,
            In t (pieceTurns u player cb (calcAllOppTurns u (togglePlayerColor player) cb) m) ->
            Z.testbit (m_bb cb player AllPieces) (to t) = false).
  { intros m Hm.
    destruct (pieceTurns_elim u player cb _ m t Hrange Hm)
      as (t' & pos & _ & _ & _ & _ & _ & Hto & Hmove & _).
    exact (calcMoveTurns_not_own u player cb t' _ _ _ Hplayer Hcons Hto Hmove). }
  destruct (Z.land (m_bb cb player King) (calcAllOppTurns u (togglePlayerColor player) cb)
            =? m_bb cb player King).
  - exact (Hpiece _ Hin).
  - apply in_app_or in Hin. destruct Hin as [Hin|Hin]; [|exact (Hpiece _ Hin)].
    apply castleTurns_elim in Hin. destruct Hin as (_ & _ & _ & Hto).
    assert (Hfree : Z.testbit (Z.lor (m_bb cb White AllPieces) (m_bb cb Black AllPieces))
                      (to t) = false).
    { destruct Hto as [(-> & _ & Hnz)|(-> & _ & Hnz)].
      - apply castle_short_nonzero in Hnz. destruct Hnz as [_ Hempty].
        apply (noneSet_In _ _ _ Hempty). cbn [In]. tauto.
      - apply castle_long_nonzero in Hnz. destruct Hnz as [_ Hempty].
        apply (noneSet_In _ _ _ Hempty). cbn [In]. tauto. }
    rewrite Z.lor_spec in Hfree. apply orb_false_iff in Hfree.
    destruct Hplayer as [->| ->]; apply Hfree.
Qed.

Lemma startBoard_consistent : consistentFor startBoard White.
Proof.
  split; [exact startBoard_in_range|]. split; [reflexivity|]. left. reflexivity.
Qed.

Lemma generated_turns_spare_own_pieces_witness :
  Z.testbit (m_bb startBoard White AllPieces) 21 = false.
Proof.
  apply (generated_turns_spare_own_pieces x86Shift White startBoard
           (Turn_move (mkPiece White Knight) 6 21)).
  - left. reflexivity.
  - exact startBoard_consistent.
  - vm_compute. tauto.
Defined.

End GeneratorFacts.

(** ** The material evaluator, promotions and the symmetry of the evaluation *)

Module MaterialFacts.

Import Evaluator EvaluatorFacts Material CheckSpec CheckFacts MoveFacts.

Lemma materialStep_white acc piece : materialStep White acc piece = estimateStep acc piece.
Proof. destruct acc. reflexivity. Qed.

Lemma fold_material_white board acc :
  fold_left (materialStep White) board acc = fold_left estimateStep board acc.
Proof.
  revert acc. induction board as [|piece rest IH]; intros acc; [reflexivity|].
  cbn [fold_left]. rewrite materialStep_white. apply IH.
Qed.

Lemma materialStep_black score position piece :
  wellFormedSquare piece ->
  materialStep Black (score, position) piece
  = (score - contribution piece position, nextField position).
Proof.
  intros [->|Hreal].
  { rewrite contribution_noPiece. unfold materialStep. cbn [type noPiece].
    change (pieceTypeIndex NoType <=? pieceTypeIndex Pawn) with false. cbv iota.
    f_equal. lia. }
  rewrite contribution_real by exact Hreal. destruct Hreal as [Hc Ht]. unfold materialStep.
  replace (pieceTypeIndex (type piece) <=? pieceTypeIndex Pawn) with true
    by (symmetry; apply Z.leb_le; exact Ht).
  destruct Hc as [Hc|Hc]; rewrite Hc;
    cbn [PlayerColor_isBlack PlayerColor_eqb]; f_equal; lia.
Qed.

Lemma fold_material_black board : forall score position,
  Forall wellFormedSquare board ->
  fst (fold_left (materialStep Black) board (score, position))
  = score - boardSum position board.
Proof.
  induction board as [|piece rest IH]; intros score position Hwf.
  - cbn. lia.
  - inversion Hwf as [|? ? Hp Hrest]; subst. cbn [fold_left boardSum].
    rewrite materialStep_black by exact Hp. rewrite IH by exact Hrest. lia.
Qed.

(** X19. On a board whose squares hold the empty sentinel or a piece of
    White or Black, [MaterialEvaluator::getMaterialWorth] for a colour is
    the score the incremental evaluator seeded from the same board reports
    for that colour; the worth for Black is the negated worth for White. *)
Theorem material_worth_agrees_with_incremental (board : list Piece) :
  Forall wellFormedSquare board ->
  getMaterialWorth White board = Evaluator.getScore White (fromBoard board) /\
  getMaterialWorth Black board = Evaluator.getScore Black (fromBoard board) /\
  getMaterialWorth Black board = - getMaterialWorth White board.
Proof.
  intros Hwf.
  assert (Hw : getMaterialWorth White board = estimateFullBoard board).
  { unfold getMaterialWorth, estimateFullBoard. rewrite fold_material_white. reflexivity. }
  assert (Hb : getMaterialWorth Black board = - estimateFullBoard board).
  { unfold getMaterialWorth. rewrite fold_material_black by exact Hwf.
    rewrite estimateFullBoard_boardSum. lia. }
  rewrite Hw, Hb. unfold Evaluator.getScore, fromBoard. cbn [m_estimatedScore].
  repeat split.
Qed.

Lemma rookTakesPawnBoard_wellFormed : Forall wellFormedSquare rookTakesPawnBoard.
Proof.
  unfold rookTakesPawnBoard. cbn [replicate app].
  repeat (constructor; [first [left; reflexivity
    | right; split; [first [left; reflexivity | right; reflexivity] | cbn; lia]] |]).
  constructor.
Qed.

Lemma material_worth_agrees_with_incremental_witness :
  getMaterialWorth Black rookTakesPawnBoard = - getMaterialWorth White rookTakesPawnBoard.
Proof.
  apply (material_worth_agrees_with_incremental rookTakesPawnBoard).
  exact rookTakesPawnBoard_wellFormed.
Defined.

(** *** Promotions *)

(** X20. [promotionIncrement] applied to the evaluator of a board on which
    the promoting pawn already stands on its target square yields the
    evaluator of the board with the pawn replaced by a piece of the target
    type. *)
Theorem promotionIncrement_matches_full_evaluation
    (board : list Piece) (turn : Turn) (targetType : PieceType) :
  0 <= to turn < Z.of_nat (length board) ->
  realPiece (mkPiece (player (piece turn)) targetType) ->
  nth (Z.to_nat (to turn)) board noPiece = mkPiece (player (piece turn)) Pawn ->
  promotionIncrement turn targetType (fromBoard board)
  = fromBoard (<[Z.to_nat (to turn) := mkPiece (player (piece turn)) targetType]> board).
Proof.
  intros Hto Hreal Hpawn. unfold promotionIncrement, fromBoard. cbn [m_estimatedScore].
  rewrite !estimateFullBoard_boardSum. rewrite boardSum_insert by lia.
  rewrite Hpawn, Z2Nat.id by lia. unfold A1. rewrite Z.add_0_l.
  assert (Hrp : realPiece (mkPiece (player (piece turn)) Pawn)).
  { destruct Hreal as [Hc _]. split; [exact Hc | cbn; lia]. }
  rewrite !contribution_real by assumption. cbn [player type].
  destruct (PlayerColor_isBlack (player (piece turn))); f_equal; lia.
Qed.

Lemma promotionIncrement_matches_full_evaluation_witness :
  promotionIncrement (Turn_promotionQueen (mkPiece Black Pawn) 16 8) Queen
    (fromBoard rookTakesPawnBoard)
  = fromBoard (<[8%nat := mkPiece Black Queen]> rookTakesPawnBoard).
Proof.
  apply (promotionIncrement_matches_full_evaluation rookTakesPawnBoard
           (Turn_promotionQueen (mkPiece Black Pawn) 16 8) Queen).
  - cbn. lia.
  - split; [right; reflexivity | cbn; lia].
  - reflexivity.
Defined.

(** *** Mirroring the board *)

Lemma flip_table :
  forallb (fun j => (flipHorizontal (flipHorizontal j) =? j)
                    && (0 <=? flipHorizontal j) && (flipHorizontal j <? 64)) squares = true.
Proof. vm_compute. reflexivity. Qed.

Lemma flipHorizontal_facts j :
  0 <= j < 64 -> flipHorizontal (flipHorizontal j) = j /\ 0 <= flipHorizontal j < 64.
Proof.
  intros Hj. pose proof (forallb_squares _ flip_table j Hj) as Htab. cbv beta in Htab.
  apply andb_true_iff in Htab. destruct Htab as [Htab Hlt].
  apply andb_true_iff in Htab. destruct Htab as [Hinv Hle].
  apply Z.eqb_eq in Hinv. apply Z.leb_le in Hle. apply Z.ltb_lt in Hlt. lia.
Qed.

Lemma squares_NoDup : List.NoDup squares.
Proof.
  unfold squares. apply Finite.Injective_map_NoDup; [|apply seq_NoDup].
  intros a b Hab. lia.
Qed.

Lemma flip_squares_perm : Permutation squares (map flipHorizontal squares).
Proof.
  apply NoDup_Permutation_bis.
  - exact squares_NoDup.
  - rewrite length_map. lia.
  - intros j Hj. apply In_squares in Hj. destruct (flipHorizontal_facts j Hj) as [Hinv Hr].
    apply in_map_iff. exists (flipHorizontal j). split; [exact Hinv|].
    apply In_squares. exact Hr.
Qed.

Lemma sumScores_perm l l' : Permutation l l' -> sumScores l = sumScores l'.
Proof.
  intros Hp. unfold sumScores. induction Hp; cbn [fold_right] in *; lia.
Qed.

Lemma boardSum_sum board : forall position,
  boardSum position board
  = sumScores (map (fun i => contribution (nth i board noPiece) (position + Z.of_nat i))
                   (seq 0 (length board))).
Proof.
  induction board as [|piece rest IH]; intros position; [reflexivity|].
  cbn [boardSum length seq map sumScores fold_right nth].
  rewrite Z.add_0_r. f_equal. rewrite IH. unfold nextField.
  rewrite <- seq_shift, map_map. f_equal. apply map_ext. intros i.
  cbn [nth]. f_equal. lia.
Qed.

Lemma mirrorBoard_length board : length (mirrorBoard board) = 64%nat.
Proof. unfold mirrorBoard. rewrite length_map, length_seq. reflexivity. Qed.

Lemma mirrorBoard_nth board i :
  (i < 64)%nat ->
  nth i (mirrorBoard board) noPiece
  = swapColor (nth (Z.to_nat (flipHorizontal (Z.of_nat i))) board noPiece).
Proof.
  intros Hi. unfold mirrorBoard.
  rewrite (nth_indep _ noPiece
             (swapColor (nth (Z.to_nat (flipHorizontal (Z.of_nat 0%nat))) board noPiece)))
    by (rewrite length_map, length_seq; exact Hi).
  rewrite (map_nth (fun i => swapColor (nth (Z.to_nat (flipHorizontal (Z.of_nat i)))
                                          board noPiece)) (seq 0 64) 0%nat i).
  rewrite seq_nth by exact Hi. reflexivity.
Qed.

Lemma contribution_swap p i :
  wellFormedSquare p -> 0 <= i < 64 ->
  contribution (swapColor p) i = - contribution p (flipHorizontal i).
Proof.
  intros [->|Hreal] Hi.
  { change (swapColor noPiece) with noPiece. rewrite !contribution_noPiece. reflexivity. }
  destruct (flipHorizontal_facts i Hi) as [Hinv _].
  assert (Hswap : realPiece (swapColor p)).
  { destruct Hreal as [[Hc|Hc] Ht]; unfold swapColor; rewrite Hc;
      (split; [|exact Ht]); [right | left]; reflexivity. }
  rewrite !contribution_real by assumption.
  destruct Hreal as [[Hc|Hc] Ht]; unfold swapColor; rewrite Hc;
    cbn [player type PlayerColor_isBlack PlayerColor_eqb]; rewrite ?Hinv; lia.
Qed.

Lemma sumScores_opp (g : Z -> Z) l :
  sumScores (map (fun i => - g i) l) = - sumScores (map g l).
Proof. unfold sumScores. induction l as [|x l IH]; cbn [map fold_right] in *; lia. Qed.

(** X21. The evaluation is symmetric in the colours: on a board of 64
    squares holding the empty sentinel or pieces of White or Black,
    mirroring the ranks and swapping the colours of all pieces negates
    [estimateFullBoard]. *)
Theorem evaluation_negated_by_mirroring (board : list Piece) :
  length board = 64%nat ->
  Forall wellFormedSquare board ->
  estimateFullBoard (mirrorBoard board) = - estimateFullBoard board.
Proof.
  intros Hlen Hwf. rewrite !estimateFullBoard_boardSum, !boardSum_sum.
  rewrite mirrorBoard_length, Hlen. unfold A1.
  set (g := fun j : Z => contribution (nth (Z.to_nat j) board noPiece) j).
  assert (Hleft :
    map (fun i => contribution (nth i (mirrorBoard board) noPiece) (0 + Z.of_nat i)) (seq 0 64)
    = map (fun j => - g (flipHorizontal j)) squares).
  { unfold squares. rewrite map_map. apply map_ext_in. intros i Hi. apply in_seq in Hi.
    rewrite mirrorBoard_nth by lia. rewrite Z.add_0_l. unfold g.
    apply contribution_swap; [|lia].
    destruct (Nat.lt_ge_cases (Z.to_nat (flipHorizontal (Z.of_nat i))) (length board))
      as [Hlt|Hge].
    - apply Forall_nth; [exact Hwf | exact Hlt].
    - rewrite nth_overflow by exact Hge. left. reflexivity. }
  assert (Hright :
    map (fun i => contribution (nth i board noPiece) (0 + Z.of_nat i)) (seq 0 64)
    = map g squares).
  { unfold squares. rewrite map_map. apply map_ext. intros i. unfold g.
    rewrite Z.add_0_l, Nat2Z.id. reflexivity. }
  rewrite Hleft, Hright, sumScores_opp. f_equal.
  rewrite <- (map_map flipHorizontal g).
  symmetry. apply sumScores_perm. apply Permutation_map. exact flip_squares_perm.
Qed.

Lemma evaluation_negated_by_mirroring_witness :
  estimateFullBoard (mirrorBoard rookTakesPawnBoard) = - estimateFullBoard rookTakesPawnBoard.
Proof.
  apply (evaluation_negated_by_mirroring rookTakesPawnBoard).
  - reflexivity.
  - exact rookTakesPawnBoard_wellFormed.
Defined.

End MaterialFacts.

(** ** Further properties of the search *)

Module SearchMoreFacts.

Import Negamax SearchSpec Mock SearchFacts.

Section Abort.

Context {TGameState : Type} `{GameStateOps TGameState}.
Variable env : Environment.
Variable tg : Toggles.


(** *** Alpha-beta cutoff disabled *)





(** *** Transposition table disabled *)

Hypothesis Htable : TRANSPOSITION_TABLES_ENABLED tg = false.



End Abort.



(** *** The returned turn *)

Section ReturnedTurn.

Context {TGameState : Type} `{GameStateOps TGameState}.
Variable env : Environment.
Variable tg : Toggles.
Hypothesis Hsort :
  forall l : list (@Option TGameState), Permutation (std_sort env Option Option_lt l) l.
Hypothesis Htable : TRANSPOSITION_TABLES_ENABLED tg = false.

Lemma searchOptions_turn
    (recurse : TGameState -> Z -> Z -> Negamax -> NegamaxResult * Negamax)
    (options : list (@Option TGameState)) (beta : Z) :
  forall best alpha n b,
    fst (searchOptions tg recurse options best alpha beta n) = Some b ->
    turn b = turn best \/ exists o, In o options /\ turn b = Some (optTurn o).
Proof.
  induction options as [|o rest IH]; intros best alpha n b Hsome.
  - cbn [searchOptions fst] in Hsome. injection Hsome as <-. left. reflexivity.
  - cbn [searchOptions] in Hsome.
    destruct (recurse (state o) (- beta) (- alpha) (countNode n)) as [r n1].
    destruct (score best <? score (negResult r)).
    + right.
      destruct (AB_CUTOFF_ENABLED tg && (beta <=? Z.max alpha (score (negResult r)))).
      * cbn [fst] in Hsome. injection Hsome as <-. exists o. split; [left|]; reflexivity.
      * destruct (readAbort (countUpdate n1)) as [[|] n2]; [discriminate Hsome|].
        destruct (IH _ _ _ b Hsome) as [Heq|(o' & Ho' & Heq)].
        -- exists o. split; [left; reflexivity | exact Heq].
        -- exists o'. split; [right; exact Ho' | exact Heq].
    + destruct (AB_CUTOFF_ENABLED tg && (beta <=? Z.max alpha (score (negResult r)))).
      * cbn [fst] in Hsome. injection Hsome as <-. left. reflexivity.
      * destruct (readAbort n1) as [[|] n2]; [discriminate Hsome|].
        destruct (IH _ _ _ b Hsome) as [Heq|(o' & Ho' & Heq)].
        -- left. exact Heq.
        -- right. exists o'. split; [right; exact Ho' | exact Heq].
Qed.

Lemma search_recurse_turn pl st depth alpha beta n t :
  turn (fst (search_recurse env tg pl st depth alpha beta n)) = Some t ->
  In t (getTurnList st) /\ isGameOver st = false /\ pl <> 0%nat.
Proof.
  destruct pl as [|pl].
  - cbn [search_recurse]. destruct (readAbort n) as [[|] n0]; discriminate.
  - rewrite search_recurse_S. destruct (readAbort n) as [[|] n0]; [discriminate|].
    destruct (isGameOver st); [discriminate|].
    rewrite (probeTable_off tg Htable).
    pose proof (searchOptions_turn
                  (fun st' a b n' => search_recurse env tg pl st' (depth + 1) a b n')
                  (considerOptions env tg n0 st depth) beta
                  (mkResult (MIN_SCORE env) None) alpha n0) as Hloop.
    destruct (searchOptions _ _ _ _ _ _ _) as [[b|] n2]; cbn [fst] in Hloop |- *;
      [|discriminate].
    intros Ht. destruct (Hloop b eq_refl) as [Heq|(o & Ho & Heq)].
    + cbn [turn] in Heq. congruence.
    + apply (Permutation_in _ (considerOptions_perm env Hsort tg n0 st depth)) in Ho.
      apply in_map_iff in Ho. destruct Ho as (t' & <- & Hin). cbn [optTurn] in Heq.
      rewrite Ht in Heq. injection Heq as ->. repeat split; [exact Hin | discriminate].
Qed.

End ReturnedTurn.

(** X23. With the transposition table disabled, a turn returned by
    [search] is one of the turns [getTurnList] gives for the searched
    state; a turn is returned only for a state that is not game over and a
    depth above zero. *)
Theorem returned_turn_is_listed {TGameState : Type} `{GameStateOps TGameState}
    (env : Environment) (tg : Toggles) (n : Negamax) (st : TGameState) (maxDepth : nat)
    (t : Turn) :
  (forall l : list (@Option TGameState), Permutation (std_sort env Option Option_lt l) l) ->
  TRANSPOSITION_TABLES_ENABLED tg = false ->
  turn (fst (search env tg n st maxDepth)) = Some t ->
  In t (getTurnList st) /\ isGameOver st = false /\ maxDepth <> 0%nat.
Proof.
  intros Hsort Htable Ht. unfold search in Ht.
  exact (search_recurse_turn env tg Hsort Htable _ _ _ _ _ _ _ Ht).
Qed.

Lemma returned_turn_is_listed_witness :
  In (mockTurn 0 1) (getTurnList (GameStateOps := mockOps refutationGame) 0).
Proof.
  apply (returned_turn_is_listed (H := mockOps refutationGame) mockEnv plain
           (newNegamax tableSize) 0 3%nat (mockTurn 0 1)).
  - intros l. apply insertionSort_perm.
  - reflexivity.
  - vm_compute. reflexivity.
Defined.

(** *** Leaves at the root *)

(** X24. Searching a state that is game over, or searching with depth 0,
    returns the state's own score at depth 0 and no turn; the abort flag and
    the counters are reset and the table is left as it was.  (No abort on
    its way.) *)
Theorem search_of_leaf_root {TGameState : Type} `{GameStateOps TGameState}
    (env : Environment) (tg : Toggles) (n : Negamax) (st : TGameState) (maxDepth : nat) :
  pendingAbort n = None ->
  maxDepth = 0%nat \/ isGameOver st = true ->
  search env tg n st maxDepth
  = (mkResult (getScore st 0) None,
     mkNegamax (m_transpositionTable n) false noCounters None).
Proof.
  intros Hp Hleaf. unfold search.
  rewrite search_recurse_leaf; [|split; [reflexivity | exact Hp] | exact Hleaf].
  unfold withCounters, withAbort. cbn [m_transpositionTable m_abort pendingAbort].
  rewrite Hp. reflexivity.
Qed.

Lemma search_of_leaf_root_witness :
  search (H := mockOps refutationGame) mockEnv allOn (newNegamax tableSize) 1 5%nat
  = (mkResult (-5) None, mkNegamax (TT.emptyTable tableSize) false noCounters None).
Proof.
  apply (search_of_leaf_root (H := mockOps refutationGame) mockEnv allOn
           (newNegamax tableSize) 1 5%nat).
  - reflexivity.
  - right. reflexivity.
Defined.

(** *** The table is not touched when disabled *)

Section TableDisabled.

Context {TGameState : Type} `{GameStateOps TGameState}.
Variable env : Environment.
Variable tg : Toggles.
Hypothesis Htable : TRANSPOSITION_TABLES_ENABLED tg = false.

Lemma readAbort_keeps n :
  m_transpositionTable (snd (readAbort n)) = m_transpositionTable n /\
  transpositionTableHits (m_counters (snd (readAbort n)))
  = transpositionTableHits (m_counters n).
Proof. unfold readAbort. destruct (pendingAbort n) as [[|k]|]; split; reflexivity. Qed.

Lemma searchOptions_keeps
    (recurse : TGameState -> Z -> Z -> Negamax -> NegamaxResult * Negamax)
    (options : list (@Option TGameState)) (beta : Z) :
  (forall st a b n0,
     m_transpositionTable (snd (recurse st a b n0)) = m_transpositionTable n0 /\
     transpositionTableHits (m_counters (snd (recurse st a b n0)))
     = transpositionTableHits (m_counters n0)) ->
  forall best alpha n,
    m_transpositionTable (snd (searchOptions tg recurse options best alpha beta n))
    = m_transpositionTable n /\
    transpositionTableHits (m_counters (snd (searchOptions tg recurse options best alpha beta n)))
    = transpositionTableHits (m_counters n).
Proof.
  intros Hrec. induction options as [|o rest IH]; intros best alpha n.
  - split; reflexivity.
  - cbn [searchOptions].
    pose proof (Hrec (state o) (- beta) (- alpha) (countNode n)) as [Ht Hh].
    destruct (recurse (state o) (- beta) (- alpha) (countNode n)) as [r n1].
    cbn [snd] in Ht, Hh. cbn [countNode withCounters m_transpositionTable m_counters
                              transpositionTableHits] in Ht, Hh.
    destruct (score best <? score (negResult r)).
    + destruct (AB_CUTOFF_ENABLED tg && (beta <=? Z.max alpha (score (negResult r)))).
      * cbn [snd]. split; [exact Ht | exact Hh].
      * pose proof (readAbort_keeps (countUpdate n1)) as [Ht' Hh'].
        destruct (readAbort (countUpdate n1)) as [[|] n2]; cbn [snd] in Ht', Hh' |- *.
        -- split; [rewrite Ht'; exact Ht | rewrite Hh'; exact Hh].
        -- destruct (IH (mkResult (score (negResult r)) (Some (optTurn o)))
                        (Z.max alpha (score (negResult r))) n2) as [Ht2 Hh2].
           split; [rewrite Ht2, Ht'; exact Ht | rewrite Hh2, Hh'; exact Hh].
    + destruct (AB_CUTOFF_ENABLED tg && (beta <=? Z.max alpha (score (negResult r)))).
      * cbn [snd]. split; [exact Ht | exact Hh].
      * pose proof (readAbort_keeps n1) as [Ht' Hh'].
        destruct (readAbort n1) as [[|] n2]; cbn [snd] in Ht', Hh' |- *.
        -- split; [rewrite Ht'; exact Ht | rewrite Hh'; exact Hh].
        -- destruct (IH best (Z.max alpha (score (negResult r))) n2) as [Ht2 Hh2].
           split; [rewrite Ht2, Ht'; exact Ht | rewrite Hh2, Hh'; exact Hh].
Qed.

Lemma search_recurse_keeps pl : forall st depth alpha beta n,
  m_transpositionTable (snd (search_recurse env tg pl st depth alpha beta n))
  = m_transpositionTable n /\
  transpositionTableHits (m_counters (snd (search_recurse env tg pl st depth alpha beta n)))
  = transpositionTableHits (m_counters n).
Proof.
  induction pl as [|pl IH]; intros st depth alpha beta n.
  - cbn [search_recurse]. pose proof (readAbort_keeps n) as Hk.
    destruct (readAbort n) as [[|] n0]; exact Hk.
  - rewrite search_recurse_S. pose proof (readAbort_keeps n) as Hk.
    destruct (readAbort n) as [[|] n0]; cbn [snd] in Hk; [exact Hk|].
    destruct (isGameOver st); [exact Hk|].
    rewrite (probeTable_off tg Htable).
    pose proof (searchOptions_keeps
                  (fun st' a b n' => search_recurse env tg pl st' (depth + 1) a b n')
                  (considerOptions env tg n0 st depth) beta
                  (fun st' a b n0' => IH st' (depth + 1)%nat a b n0')
                  (mkResult (MIN_SCORE env) None) alpha n0) as [Ht Hh].
    destruct (searchOptions _ _ _ _ _ _ _) as [[b|] n2]; cbn [snd] in Ht, Hh |- *.
    + rewrite (storeResult_off env tg Htable). destruct Hk as [Hk1 Hk2].
      split; [rewrite Ht; exact Hk1 | rewrite Hh; exact Hk2].
    + destruct Hk as [Hk1 Hk2]. split; [rewrite Ht; exact Hk1 | rewrite Hh; exact Hk2].
Qed.

End TableDisabled.

(** X25. With TRANSPOSITION_TABLES_ENABLED false a search never writes the
    transposition table and counts no table hit. *)
Theorem disabled_table_is_untouched {TGameState : Type} `{GameStateOps TGameState}
    (env : Environment) (tg : Toggles) (n : Negamax) (st : TGameState) (maxDepth : nat) :
  TRANSPOSITION_TABLES_ENABLED tg = false ->
  m_transpositionTable (snd (search env tg n st maxDepth)) = m_transpositionTable n /\
  transpositionTableHits (m_counters (snd (search env tg n st maxDepth))) = 0.
Proof.
  intros Htable. unfold search.
  destruct (search_recurse_keeps env tg Htable maxDepth st 0%nat (MIN_SCORE env)
              (MAX_SCORE env) (withCounters (withAbort n false) noCounters)) as [Ht Hh].
  split; [exact Ht | exact Hh].
Qed.

Lemma disabled_table_is_untouched_witness :
  m_transpositionTable (snd (search (H := mockOps refutationGame) mockEnv plain
                               afterFirstSearch 0 3%nat))
  = m_transpositionTable afterFirstSearch.
Proof.
  apply (disabled_table_is_untouched (H := mockOps refutationGame) mockEnv plain
           afterFirstSearch 0 3%nat).
  reflexivity.
Defined.

(** *** The window contract of alpha-beta *)

(** X26. Without the transposition table and without an abort,
    [search_recurse] called with a window alpha < beta returns, with the
    cutoff disabled, the plain negamax value of the position; with the
    cutoff enabled it returns a fail-soft bound: a result at or below alpha
    is an upper bound of the value, a result at or above beta a lower
    bound, and a result strictly inside the window is the value itself. *)
Theorem search_recurse_window_contract {TGameState : Type} `{GameStateOps TGameState}
    (env : Environment) (tg : Toggles) (pl : nat) (st : TGameState) (depth : nat)
    (alpha beta : Z) (n : Negamax) :
  (forall l : list (@Option TGameState), Permutation (std_sort env Option Option_lt l) l) ->
  TRANSPOSITION_TABLES_ENABLED tg = false ->
  quiet n -> alpha < beta ->
  (AB_CUTOFF_ENABLED tg = false ->
   score (fst (search_recurse env tg pl st depth alpha beta n))
   = negamaxValue env pl st depth) /\
  (AB_CUTOFF_ENABLED tg = true ->
   failSoft alpha beta (score (fst (search_recurse env tg pl st depth alpha beta n)))
     (negamaxValue env pl st depth)) /\
  quiet (snd (search_recurse env tg pl st depth alpha beta n)).
Proof.
  intros Hsort Htable Hq Hwin. split; [|split].
  - intros Hab.
    exact (proj1 (search_recurse_exact env Hsort tg Htable Hab pl st depth alpha beta n Hq)).
  - intros Hab.
    exact (proj1 (search_recurse_failSoft env Hsort tg Htable Hab pl st depth alpha beta n
                    Hq Hwin)).
  - apply search_recurse_quiet. exact Hq.
Qed.

Lemma search_recurse_window_contract_witness :
  failSoft (-3) 3
    (score (fst (search_recurse (H := mockOps refutationGame) mockEnv
                   (mkToggles true true false) 3 0 0 (-3) 3 (newNegamax tableSize))))
    (negamaxValue (H := mockOps refutationGame) mockEnv 3 0 0).
Proof.
  destruct (search_recurse_window_contract (H := mockOps refutationGame) mockEnv
              (mkToggles true true false) 3 0 0%nat (-3) 3 (newNegamax tableSize))
    as (_ & Hfs & _).
  - intros l. apply insertionSort_perm.
  - reflexivity.
  - split; reflexivity.
  - lia.
  - apply Hfs. reflexivity.
Defined.

End SearchMoreFacts.

(** ** The squares listed for the opponent *)

Module AttackFacts.

Import CheckSpec CheckFacts BitFacts MoveSpec MoveFacts StepFacts SlideFacts TurnListFacts
  GeneratorFacts.

Lemma calcAllOppTurns_unfold u opp cb :
  calcAllOppTurns u opp cb
  = let player := togglePlayerColor opp in
    let all := Z.lor (m_bb cb White AllPieces) (m_bb cb Black AllPieces) in
    let targets := Z.lxor (m_bb cb player AllPieces) (m_bb cb player King) in
    let occupied := Z.lxor all (m_bb cb player King) in
    let a0 := if m_shortCastleRight cb opp
              then Z.lor 0 (calcShortCastleTurns u opp all 0) else 0 in
    let a0 := if m_longCastleRight cb opp
              then Z.lor a0 (calcLongCastleTurns u opp all 0) else a0 in
    let a1 := Z.lor a0 (calcKingTurns u (m_bb cb opp King) 0 0) in
    let a2 := fold_left (fun acc pos =>
                Z.lor acc (calcQueenTurns u (BIT_SET u 0 pos) targets occupied))
                (fieldsOf u (m_bb cb opp Queen)) a1 in
    let a3 := fold_left (fun acc pos =>
                Z.lor acc (calcBishopTurns u (BIT_SET u 0 pos) targets occupied))
                (fieldsOf u (m_bb cb opp Bishop)) a2 in
    let a4 := Z.lor a3 (calcKnightTurns u (m_bb cb opp Knight) 0) in
    let a5 := fold_left (fun acc pos =>
                Z.lor acc (calcRookTurns u (BIT_SET u 0 pos) targets occupied))
                (fieldsOf u (m_bb cb opp Rook)) a4 in
    Z.lor a5 (calcPawnAttackTurns u (m_bb cb opp Pawn) 0xFFFFFFFFFFFFFFFF opp
                (m_enPassantSquare cb)).
Proof. reflexivity. Qed.

Lemma testbit_fold_lor {A : Type} (f : A -> Z) (l : list A) i : forall acc,
  Z.testbit (fold_left (fun acc pos => Z.lor acc (f pos)) l acc) i
  = Z.testbit acc i || existsb (fun pos => Z.testbit (f pos) i) l.
Proof.
  induction l as [|x l IH]; intros acc; cbn [fold_left existsb].
  - symmetry. apply orb_false_r.
  - rewrite IH, Z.lor_spec. symmetry. apply orb_assoc.
Qed.

Lemma existsb_fieldsOf u bb (f g : Z -> bool) :
  0 <= bb < 2 ^ 64 ->
  (forall s, 0 <= s < 64 -> Z.testbit bb s = true -> f s = g s) ->
  existsb f (fieldsOf u bb) = existsb (fun s => Z.testbit bb s && g s) squares.
Proof.
  intros Hbb Hfg. apply eq_true_iff_eq. rewrite existsb_exists, existsb_squares_iff. split.
  - intros (s & Hin & Hf).
    pose proof (fieldsOf_range u bb s Hbb Hin) as Hs.
    pose proof (proj1 (fieldsOf_spec u bb s Hbb) Hin) as Hb.
    exists s. split; [exact Hs|]. rewrite Hb, <- (Hfg s Hs Hb). exact Hf.
  - intros (s & Hs & Hb). apply andb_true_iff in Hb. destruct Hb as [Hb Hg].
    exists s. split; [exact (proj2 (fieldsOf_spec u bb s Hbb) Hb)|].
    rewrite (Hfg s Hs Hb). exact Hg.
Qed.

Lemma noneSet_zero fields : noneSet 0 fields = true.
Proof.
  unfold noneSet. apply forallb_forall. intros f _. rewrite Z.bits_0. reflexivity.
Qed.

Lemma castle_bits u opp all i :
  0 <= i < 64 ->
  Z.testbit (calcShortCastleTurns u opp all 0) i
  = noneSet all [homeRow opp + 6; homeRow opp + 5] && (homeRow opp + 6 =? i) /\
  Z.testbit (calcLongCastleTurns u opp all 0) i
  = noneSet all [homeRow opp + 3; homeRow opp + 2; homeRow opp + 1] && (homeRow opp + 2 =? i).
Proof.
  intros Hi. destruct (calcCastleTurns_cases u opp all 0) as [Hs Hl]. cbv zeta in Hs, Hl.
  rewrite Hs, Hl, !noneSet_zero. cbn [andb].
  pose proof (homeRow_range opp) as Hh.
  split.
  - destruct (noneSet all [homeRow opp + 6; homeRow opp + 5]);
      [apply testbit_bit; lia | apply Z.bits_0].
  - destruct (noneSet all [homeRow opp + 3; homeRow opp + 2; homeRow opp + 1]);
      [apply testbit_bit; lia | apply Z.bits_0].
Qed.

Lemma testbit_all_ones i : 0 <= i < 64 -> Z.testbit 0xFFFFFFFFFFFFFFFF i = true.
Proof.
  intros Hi. change 0xFFFFFFFFFFFFFFFF with (Z.ones 64).
  rewrite Z.testbit_ones_nonneg by lia. apply Z.ltb_lt. lia.
Qed.

Lemma calcAllOppTurns_bits u opp cb i :
  bitboardsInRange cb -> 0 <= i < 64 ->
  m_enPassantSquare cb = ERR \/ 0 <= m_enPassantSquare cb < 64 ->
  (Z.testbit (m_bb cb opp Rook) 0 = true \/ Z.testbit (m_bb cb opp Queen) 0 = true ->
   westClean u) ->
  Z.testbit (calcAllOppTurns u opp cb) i = attackedBy cb opp i.
Proof.
  intros Hrange Hi Hep Hclean. rewrite calcAllOppTurns_unfold. cbv zeta.
  destruct (castle_bits u opp (Z.lor (m_bb cb White AllPieces) (m_bb cb Black AllPieces)) i Hi)
    as [Hshort Hlong].
  rewrite Z.lor_spec, testbit_fold_lor, Z.lor_spec, !testbit_fold_lor, Z.lor_spec.
  rewrite calcPawnAttackTurns_bits by assumption.
  rewrite calcKnightTurns_bits, calcKingTurns_bits by (try exact Hi; apply Hrange).
  rewrite Z.bits_0. cbn [negb andb].
  rewrite (testbit_all_ones i Hi). cbn [orb]. rewrite andb_true_r.
  rewrite (existsb_fieldsOf u (m_bb cb opp Queen) _
             (fun s => slides (rookDirections ++ bishopDirections)
                         (Z.lxor (m_bb cb (togglePlayerColor opp) AllPieces)
                                 (m_bb cb (togglePlayerColor opp) King))
                         (Z.lxor (Z.lor (m_bb cb White AllPieces) (m_bb cb Black AllPieces))
                                 (m_bb cb (togglePlayerColor opp) King)) s i));
    [|apply Hrange|].
  2: { intros s Hs Hb. rewrite BIT_SET_zero by exact Hs.
       apply calcQueenTurns_slides; [exact Hs | exact Hi |].
       intros ->. apply Hclean. right. exact Hb. }
  rewrite (existsb_fieldsOf u (m_bb cb opp Bishop) _
             (fun s => slides bishopDirections
                         (Z.lxor (m_bb cb (togglePlayerColor opp) AllPieces)
                                 (m_bb cb (togglePlayerColor opp) King))
                         (Z.lxor (Z.lor (m_bb cb White AllPieces) (m_bb cb Black AllPieces))
                                 (m_bb cb (togglePlayerColor opp) King)) s i));
    [|apply Hrange|].
  2: { intros s Hs Hb. rewrite BIT_SET_zero by exact Hs.
       apply calcBishopTurns_slides; [exact Hs | exact Hi]. }
  rewrite (existsb_fieldsOf u (m_bb cb opp Rook) _
             (fun s => slides rookDirections
                         (Z.lxor (m_bb cb (togglePlayerColor opp) AllPieces)
                                 (m_bb cb (togglePlayerColor opp) King))
                         (Z.lxor (Z.lor (m_bb cb White AllPieces) (m_bb cb Black AllPieces))
                                 (m_bb cb (togglePlayerColor opp) King)) s i));
    [|apply Hrange|].
  2: { intros s Hs Hb. rewrite BIT_SET_zero by exact Hs.
       apply calcRookTurns_slides; [exact Hs | exact Hi |].
       intros ->. apply Hclean. left. exact Hb. }
  unfold attackedBy. cbv zeta.
  assert (Hacc : Z.testbit
            (if m_longCastleRight cb opp
             then Z.lor (if m_shortCastleRight cb opp
                         then Z.lor 0 (calcShortCastleTurns u opp
                                (Z.lor (m_bb cb White AllPieces) (m_bb cb Black AllPieces)) 0)
                         else 0)
                        (calcLongCastleTurns u opp
                           (Z.lor (m_bb cb White AllPieces) (m_bb cb Black AllPieces)) 0)
             else if m_shortCastleRight cb opp
                  then Z.lor 0 (calcShortCastleTurns u opp
                         (Z.lor (m_bb cb White AllPieces) (m_bb cb Black AllPieces)) 0)
                  else 0) i
          = (m_shortCastleRight cb opp
             && noneSet (Z.lor (m_bb cb White AllPieces) (m_bb cb Black AllPieces))
                  [homeRow opp + 6; homeRow opp + 5] && (homeRow opp + 6 =? i))
            || (m_longCastleRight cb opp
                && noneSet (Z.lor (m_bb cb White AllPieces) (m_bb cb Black AllPieces))
                     [homeRow opp + 3; homeRow opp + 2; homeRow opp + 1]
                && (homeRow opp + 2 =? i))).
  { destruct (m_longCastleRight cb opp), (m_shortCastleRight cb opp);
      rewrite ?Z.lor_spec, ?Hshort, ?Hlong, ?Z.bits_0; cbn [andb orb];
      rewrite ?orb_false_r; reflexivity. }
  rewrite Hacc. reflexivity.
Qed.

(** X27. [calcAllOppTurns], square by square, on a board of 64-bit
    bitboards: it lists the king's target squares of the castlings the
    opponent has the right to (given empty squares between king and rook),
    the squares next to his king, a knight's jump from his knights and
    diagonally in front of his pawns (occupied or not), and the squares his
    queens, bishops and rooks slide to, with the other player's king taken
    off the board and without the squares that hold the opponent's own
    pieces.  A rook or queen on A1 needs the out-of-range shift of
    [getBitsW] to leave the first rank empty. *)
Theorem calcAllOppTurns_squares (u : UndefShift) (opp : PlayerColor) (cb : ChessBoard)
    (i : Field) :
  bitboardsInRange cb -> 0 <= i < 64 ->
  m_enPassantSquare cb = ERR \/ 0 <= m_enPassantSquare cb < 64 ->
  (Z.testbit (m_bb cb opp Rook) 0 = true \/ Z.testbit (m_bb cb opp Queen) 0 = true ->
   westClean u) ->
  Z.testbit (calcAllOppTurns u opp cb) i = attackedBy cb opp i.
Proof. apply calcAllOppTurns_bits. Qed.

Lemma calcAllOppTurns_squares_witness :
  Z.testbit (calcAllOppTurns x86Shift Black rookCheckBoard) 4 = attackedBy rookCheckBoard Black 4.
Proof.
  apply (calcAllOppTurns_squares x86Shift Black rookCheckBoard 4).
  - exact rookCheckBoard_range.
  - lia.
  - left. reflexivity.
  - intros _. reflexivity.
Defined.

End AttackFacts.

(** ** When the king counts as in check *)

Module CheckFlagFacts.

Import CheckSpec CheckFacts BitFacts MoveSpec MoveFacts StepFacts SlideFacts TurnListFacts
  GeneratorFacts AttackFacts.

(** X28. For a player with one king, on square [k], a generation pass sets
    his [kingInCheck] flag exactly when [k] is among the squares listed for
    the opponent: next to the opposing king, a knight's jump from a knight,
    diagonally in front of a pawn, on a free line of a queen, bishop or
    rook, or the target square of a castling the opponent may still
    perform. *)
Theorem check_flag_matches_listed_squares (u : UndefShift) (player : PlayerColor)
    (cb : ChessBoard) (k : Field) :
  bitboardsInRange cb -> 0 <= k < 64 ->
  m_bb cb player King = bit k ->
  m_enPassantSquare cb = ERR \/ 0 <= m_enPassantSquare cb < 64 ->
  (Z.testbit (m_bb cb (togglePlayerColor player) Rook) 0 = true \/
   Z.testbit (m_bb cb (togglePlayerColor player) Queen) 0 = true -> westClean u) ->
  m_kingInCheck (snd (generateTurns u player cb)) player
  = attackedBy cb (togglePlayerColor player) k.
Proof.
  intros Hrange Hk Hking Hep Hclean.
  rewrite generateTurns_kingInCheck, PlayerColor_eqb_refl, Hking.
  rewrite land_bit_eqb by lia.
  apply calcAllOppTurns_bits; assumption.
Qed.

Lemma check_flag_matches_listed_squares_witness :
  m_kingInCheck (snd (generateTurns x86Shift White rookCheckBoard)) White
  = attackedBy rookCheckBoard Black 4.
Proof.
  apply (check_flag_matches_listed_squares x86Shift White rookCheckBoard 4).
  - exact rookCheckBoard_range.
  - lia.
  - reflexivity.
  - left. reflexivity.
  - intros _. reflexivity.
Defined.

Lemma generateTurns_checkmate u player cb :
  m_checkmate (snd (generateTurns u player cb)) player
  = m_checkmate cb player
    || (match fst (generateTurns u player cb) with [] => true | _ => false end
        && m_kingInCheck (snd (generateTurns u player cb)) player).
Proof.
  unfold generateTurns. cbn [m_bb setKingInCheck].
  pose proof (PlayerColor_eqb_refl player) as Hself.
  destruct (Z.land (m_bb cb player King) (calcAllOppTurns u (togglePlayerColor player) cb)
            =? m_bb cb player King).
  - match goal with |- context [match ?l with [] => _ | _ => _ end] => destruct l end;
      cbn [fst snd m_checkmate m_kingInCheck setCheckmate setKingInCheck];
      unfold setFlag; rewrite Hself; destruct (m_checkmate cb player); reflexivity.
  - match goal with |- context [match ?l with [] => _ | _ => _ end] => destruct l end;
      cbn [fst snd m_checkmate m_kingInCheck setStalemate setKingInCheck];
      unfold setFlag; rewrite Hself; destruct (m_checkmate cb player); reflexivity.
Qed.

(** X29. A player whose king bitboard is empty always counts as in check:
    the pass sets his [kingInCheck] flag, generates no castling turn, and
    flags checkmate when no turn is found. *)
Theorem missing_king_counts_as_check (u : UndefShift) (player : PlayerColor)
    (cb : ChessBoard) :
  bitboardsInRange cb ->
  m_bb cb player King = 0 ->
  m_kingInCheck (snd (generateTurns u player cb)) player = true /\
  (forall t, In t (fst (generateTurns u player cb)) -> action t <> Castle) /\
  (fst (generateTurns u player cb) = [] ->
   m_checkmate (snd (generateTurns u player cb)) player = true).
Proof.
  intros Hrange Hking.
  assert (Hcheck : (Z.land (m_bb cb player King)
                      (calcAllOppTurns u (togglePlayerColor player) cb)
                    =? m_bb cb player King) = true).
  { rewrite Hking, Z.land_0_l. reflexivity. }
  split; [|split].
  - rewrite generateTurns_kingInCheck, PlayerColor_eqb_refl. exact Hcheck.
  - intros t Hin. rewrite generateTurns_fst, Hcheck in Hin.
    destruct (pieceTurns_elim u player cb _ _ t Hrange Hin)
      as (t' & pos & _ & _ & _ & _ & _ & _ & _ & Hact).
    exact (promotion_not_castle _ _ _ Hact).
  - intros Hnil. rewrite generateTurns_checkmate, Hnil.
    rewrite generateTurns_kingInCheck, PlayerColor_eqb_refl, Hcheck. apply orb_true_r.
Qed.

Lemma kinglessBoard_range : bitboardsInRange kinglessBoard.
Proof. intros c t. destruct c, t; vm_compute; split; first [discriminate | reflexivity]. Qed.

Lemma missing_king_counts_as_check_witness :
  m_kingInCheck (snd (generateTurns x86Shift White kinglessBoard)) White = true.
Proof.
  destruct (missing_king_counts_as_check x86Shift White kinglessBoard) as (Hflag & _).
  - exact kinglessBoard_range.
  - reflexivity.
  - exact Hflag.
Defined.

End CheckFlagFacts.
